(** * chillon FTP server: the file driver and the accept loop

    A shallow embedding of [server/filedriver.go] (the [FileDriver] that
    maps virtual FTP paths onto a directory of the host) and of the server
    life cycle ([serverOptsWithDefaults], [NewServer], [ListenAndServe],
    [Serve], [Shutdown]).

    The Go runtime the driver runs on is modelled as far as the driver
    uses it, for a Unix host: [strings.Split], [path/filepath]
    ([Clean], [Join], [Rel], [Abs], [Walk]) and the [os] calls on a file
    tree of regular files and directories (no symbolic links, no
    permission or I/O failures). *)

From Stdlib Require Import List String Ascii ZArith Lia Bool Arith DecimalString.
From Stdlib.Strings Require Import Byte.
Import ListNotations.
Open Scope string_scope.
Open Scope list_scope.
Set Warnings "-register-all".

(* ================================================================== *)
(** ** Package [strings] *)

Module strings.

Definition isSep (c : ascii) : bool := Ascii.eqb c "/".

(** [strings.Split(s, "/")]: the substrings between separators; never
    empty, [Split "" = [""]]. *)
Fixpoint Split (s : string) : list string :=
  match s with
  | EmptyString => [""]
  | String c s' =>
      if isSep c then "" :: Split s'
      else match Split s' with
           | [] => [String c ""]
           | x :: xs => String c x :: xs
           end
  end.

(** [strings.Join(elems, "/")]. *)
Definition Join (elems : list string) : string := String.concat "/" elems.

(** No byte of [s] is the separator. *)
Fixpoint noSep (s : string) : bool :=
  match s with
  | EmptyString => true
  | String c s' => negb (isSep c) && noSep s'
  end.

End strings.

(* ================================================================== *)
(** ** Package [path/filepath] (Unix) *)

Module filepath.

(** [os.IsPathSeparator(path[0])] on a non-empty path. *)
Definition rooted (path : string) : bool :=
  match path with
  | String c _ => strings.isSep c
  | EmptyString => false
  end.

(** One turn of the loop of [Clean], at the granularity of path
    elements: [out] is the list of elements written so far and [dotdot]
    the number of leading elements a [..] must not remove. *)
Definition cleanElem (isRooted : bool) (st : list string * nat) (e : string)
  : list string * nat :=
  let '(out, dotdot) := st in
  if e =? "" then st                       (* empty path element *)
  else if e =? "." then st                 (* . element *)
  else if e =? ".." then                   (* .. element *)
    if Nat.ltb dotdot (List.length out)
    then (removelast out, dotdot)          (* can backtrack *)
    else if isRooted then st
    else ((out ++ [".."])%list, S (List.length out))
  else ((out ++ [e])%list, dotdot).        (* real path element *)

Definition cleanState (path : string) : list string * nat :=
  fold_left (cleanElem (rooted path)) (strings.Split path) ([], 0).

(** The elements of the cleaned path. *)
Definition comps (path : string) : list string := fst (cleanState path).

Definition render (isRooted : bool) (out : list string) : string :=
  if isRooted then "/" ++ strings.Join out
  else match out with
       | [] => "."
       | _ => strings.Join out
       end.

(** [filepath.Clean]. *)
Definition Clean (path : string) : string :=
  if path =? "" then "."
  else render (rooted path) (comps path).

(** [filepath.Join]: leading empty elements are ignored, the rest is
    joined with the separator and cleaned. *)
Fixpoint Join (elem : list string) : string :=
  match elem with
  | [] => ""
  | e :: rest =>
      if e =? "" then Join rest else Clean (strings.Join elem)
  end.

(** The elements [Rel] scans in a cleaned path. *)
Definition elems (p : string) : list string :=
  if p =? "" then []
  else if p =? "/" then [""]
  else strings.Split p.

Fixpoint stripCommon (b t : list string) : list string * list string :=
  match b, t with
  | x :: b', y :: t' => if x =? y then stripCommon b' t' else (b, t)
  | _, _ => (b, t)
  end.

(** [filepath.Rel]; [None] is the error result. *)
Definition Rel (basepath targpath : string) : option string :=
  let base := Clean basepath in
  let targ := Clean targpath in
  if targ =? base then Some "."
  else
    let base := if base =? "." then "" else base in
    if negb (Bool.eqb (rooted base) (rooted targ)) then None
    else
      match stripCommon (elems base) (elems targ) with
      | (".." :: _, _ :: _) => None
      | ([], t) => Some (strings.Join t)
      | (b, t) => Some (strings.Join ((map (fun _ => "..") b ++ t)%list))
      end.

Definition IsAbs (path : string) : bool := rooted path.

(** [filepath.Abs], with the working directory [wd] that [os.Getwd]
    returns. *)
Definition Abs (wd path : string) : string :=
  if IsAbs path then Clean path else Join [wd; path].

End filepath.

(* ================================================================== *)
(** ** Go [error] values *)

(** The error numbers the file tree can produce. *)
Inductive Errno :=
  ENOENT | ENOTDIR | EISDIR | EEXIST | ENOTEMPTY | EINVAL | EBUSY | EBADF.

Inductive error :=
| ErrorString (msg : string)                     (* errors.New(msg) *)
| PathError (op path : string) (errno : Errno)   (* *os.PathError *)
| SkipDir                                        (* filepath.SkipDir *)
| SkipAll                                        (* filepath.SkipAll *)
| NetError (msg : string) (temporary : bool).    (* a net.Error *)

Definition errnoText (e : Errno) : string :=
  match e with
  | ENOENT => "no such file or directory"
  | ENOTDIR => "not a directory"
  | EISDIR => "is a directory"
  | EEXIST => "file exists"
  | ENOTEMPTY => "directory not empty"
  | EINVAL => "invalid argument"
  | EBUSY => "device or resource busy"
  | EBADF => "bad file descriptor"
  end.

(** [err.Error()] *)
Definition Error (e : error) : string :=
  match e with
  | ErrorString msg => msg
  | PathError op path errno => op ++ " " ++ path ++ ": " ++ errnoText errno
  | SkipDir => "skip this directory"
  | SkipAll => "skip everything and stop the walk"
  | NetError msg _ => msg
  end.

Definition newline : string := String (ascii_of_nat 10) "".

(** [fmt.Sprintln(a, err)] for a string and an error operand. *)
Definition Sprintln (a : string) (err : error) : string :=
  a ++ " " ++ Error err ++ newline.

(* ================================================================== *)
(** ** Package [os]: a tree of regular files and directories *)

Module os.

Inductive node :=
  | File (data : list byte)
  | Dir (entries : list (string * node)).

(** The file tree below [/] and the working directory of the process (the
    names from [/] down). The entries of a directory are kept in byte
    order of their names, the order [readDirNames] yields. *)
Record FS := { tree : node; wd : list string }.

(** What [os.FileInfo] exposes; a directory reports size 0. *)
Record FileInfo := { Name : string; Size : Z; IsDir : bool }.

Definition ModeDir : Z := Z.shiftl 1 31.

(** *** Directory entries *)

Fixpoint assoc (k : string) (es : list (string * node)) : option node :=
  match es with
  | [] => None
  | (k', v) :: r => if k' =? k then Some v else assoc k r
  end.

Fixpoint replace (k : string) (v : node) (es : list (string * node)) :=
  match es with
  | [] => []
  | (k', v') :: r =>
      if k' =? k then (k, v) :: r else (k', v') :: replace k v r
  end.

Fixpoint insert (k : string) (v : node) (es : list (string * node)) :=
  match es with
  | [] => [(k, v)]
  | (k', v') :: r =>
      if String.ltb k k' then (k, v) :: es else (k', v') :: insert k v r
  end.

Definition set (k : string) (v : node) (es : list (string * node)) :=
  match assoc k es with
  | Some _ => replace k v es
  | None => insert k v es
  end.

Definition del (k : string) (es : list (string * node)) :=
  filter (fun e => negb (fst e =? k)) es.

(** *** Path resolution *)

(** The kernel's walk of one path element over the names from [/]. *)
Definition resolveElem (acc : list string) (e : string) : list string :=
  if e =? "" then acc
  else if e =? "." then acc
  else if e =? ".." then removelast acc
  else (acc ++ [e])%list.

(** The names from [/] down that [name] denotes; the empty path denotes
    nothing. *)
Definition resolve (fs : FS) (name : string) : option (list string) :=
  if name =? "" then None
  else Some (fold_left resolveElem (strings.Split name)
               (if filepath.rooted name then [] else wd fs)).

Fixpoint find (n : node) (cs : list string) : Errno + node :=
  match cs with
  | [] => inr n
  | c :: rest =>
      match n with
      | File _ => inl ENOTDIR
      | Dir es =>
          match assoc c es with
          | None => inl ENOENT
          | Some child => find child rest
          end
      end
  end.

(** Replace, create or delete the entry at [cs] as [f] decides from the
    entry found there. *)
Fixpoint alter (f : option node -> Errno + option node)
         (cs : list string) (n : node) : Errno + node :=
  match cs with
  | [] =>
      match f (Some n) with
      | inl e => inl e
      | inr (Some n') => inr n'
      | inr None => inl EBUSY
      end
  | c :: rest =>
      match n with
      | File _ => inl ENOTDIR
      | Dir es =>
          match rest with
          | [] =>
              match f (assoc c es) with
              | inl e => inl e
              | inr (Some v) => inr (Dir (set c v es))
              | inr None => inr (Dir (del c es))
              end
          | _ :: _ =>
              match assoc c es with
              | None => inl ENOENT
              | Some child =>
                  match alter f rest child with
                  | inl e => inl e
                  | inr child' => inr (Dir (set c child' es))
                  end
              end
          end
      end
  end.

(** [os.basename]: the name a [FileInfo] from [Lstat] reports. *)
Fixpoint allSep (s : string) : bool :=
  match s with
  | EmptyString => true
  | String c s' => strings.isSep c && allSep s'
  end.

Fixpoint stripTrailingSep (s : string) : string :=
  match s with
  | EmptyString => ""
  | String c s' => if allSep s' then String c "" else String c (stripTrailingSep s')
  end.

Definition basename (name : string) : string :=
  let name := stripTrailingSep name in
  if name =? "/" then "/" else last (strings.Split name) "".

Definition statOf (name : string) (n : node) : FileInfo :=
  match n with
  | File data => {| Name := basename name; Size := Z.of_nat (List.length data); IsDir := false |}
  | Dir _ => {| Name := basename name; Size := 0; IsDir := true |}
  end.

(** *** Calls *)

Definition lookup (fs : FS) (name : string) : Errno + node :=
  match resolve fs name with
  | None => inl ENOENT
  | Some cs => find (tree fs) cs
  end.

Definition Lstat (fs : FS) (name : string) : error + FileInfo :=
  match lookup fs name with
  | inl e => inl (PathError "lstat" name e)
  | inr n => inr (statOf name n)
  end.

Definition IsNotExist (err : error) : bool :=
  match err with
  | PathError _ _ ENOENT => true
  | _ => false
  end.

Definition Getwd (fs : FS) : string := "/" ++ strings.Join (wd fs).

Definition update (op : string) (f : option node -> Errno + option node)
           (fs : FS) (name : string) : FS * option error :=
  match resolve fs name with
  | None => (fs, Some (PathError op name ENOENT))
  | Some cs =>
      match alter f cs (tree fs) with
      | inl e => (fs, Some (PathError op name e))
      | inr t => ({| tree := t; wd := wd fs |}, None)
      end
  end.

(** [os.Remove]: a file, or an empty directory. *)
Definition Remove : FS -> string -> FS * option error :=
  update "remove" (fun o =>
    match o with
    | None => inl ENOENT
    | Some (File _) => inr None
    | Some (Dir []) => inr None
    | Some (Dir (_ :: _)) => inl ENOTEMPTY
    end).

(** Open files: the entry they were opened on and the file offset. *)
Record file := { f_name : string; f_pos : Z; f_flag : Z }.

Definition O_RDONLY : Z := 0.
Definition O_RDWR   : Z := 2.
Definition O_CREATE : Z := 64.
Definition O_TRUNC  : Z := 512.
Definition O_APPEND : Z := 1024.

Definition has (flag bit : Z) : bool := negb (Z.land flag bit =? 0)%Z.

(** [os.OpenFile(name, flag, perm)] *)
Definition OpenFile (fs : FS) (name : string) (flag : Z) : FS * (error + file) :=
  let writes := has flag O_RDWR in
  let '(fs', err) :=
    update "open" (fun o =>
      match o with
      | None => if has flag O_CREATE then inr (Some (File [])) else inl ENOENT
      | Some (File data) =>
          if has flag O_TRUNC then inr (Some (File [])) else inr (Some (File data))
      | Some (Dir es) => if writes then inl EISDIR else inr (Some (Dir es))
      end) fs name in
  match err with
  | Some e => (fs', inl e)
  | None => (fs', inr {| f_name := name; f_pos := 0; f_flag := flag |})
  end.

(** [os.Open(name)] *)
Definition Open (fs : FS) (name : string) := OpenFile fs name O_RDONLY.

(** [os.Create(name)] *)
Definition Create (fs : FS) (name : string) :=
  OpenFile fs name (Z.lor O_RDWR (Z.lor O_CREATE O_TRUNC)).

(** [File.Stat] *)
Definition Stat (fs : FS) (f : file) : error + FileInfo :=
  match lookup fs (f_name f) with
  | inl e => inl (PathError "stat" (f_name f) e)
  | inr n => inr (statOf (f_name f) n)
  end.

Definition SeekStart : Z := 0.
Definition SeekEnd   : Z := 2.

(** [File.Seek(offset, whence)] for [io.SeekStart] and [io.SeekEnd]. *)
Definition Seek (fs : FS) (f : file) (offset whence : Z) : file * (error + Z) :=
  let base :=
    if (whence =? SeekEnd)%Z then
      match Stat fs f with inr i => Size i | inl _ => 0%Z end
    else 0%Z in
  let pos := (base + offset)%Z in
  if (pos <? 0)%Z then (f, inl (PathError "seek" (f_name f) EINVAL))
  else ({| f_name := f_name f; f_pos := pos; f_flag := f_flag f |}, inr pos).

Definition writeAt (old : list byte) (pos : nat) (data : list byte) : list byte :=
  (firstn pos (old ++ repeat x00 (pos - List.length old))
     ++ data ++ skipn (pos + List.length data) old)%list.

(** [File.Write]: at the file offset, or at the end of the file when it
    was opened with [O_APPEND]. *)
Definition Write (fs : FS) (f : file) (data : list byte) : FS * (error + Z) :=
  let '(fs', err) :=
    update "write" (fun o =>
      match o with
      | Some (File old) =>
          let pos := if has (f_flag f) O_APPEND then List.length old
                     else Z.to_nat (f_pos f) in
          inr (Some (File (writeAt old pos data)))
      | Some (Dir _) => inl EISDIR
      | None => inl EBADF
      end) fs (f_name f) in
  match err with
  | Some e => (fs', inl e)
  | None => (fs', inr (Z.of_nat (List.length data)))
  end.

(** What reading the file to its end yields from the file offset on. *)
Definition ReadAll (fs : FS) (f : file) : error + list byte :=
  match lookup fs (f_name f) with
  | inr (File data) => inr (skipn (Z.to_nat (f_pos f)) data)
  | inr (Dir _) => inl (PathError "read" (f_name f) EISDIR)
  | inl e => inl (PathError "read" (f_name f) e)
  end.

(** [os.MkdirAll] on the names from [/] down: existing directories are
    entered, missing ones are created, a regular file in the way is
    [ENOTDIR]. *)
Fixpoint mkdirAll (cs : list string) (n : node) : Errno + node :=
  match n with
  | File _ => inl ENOTDIR
  | Dir es =>
      match cs with
      | [] => inr n
      | c :: rest =>
          let child := match assoc c es with
                       | Some ch => ch
                       | None => Dir []
                       end in
          match mkdirAll rest child with
          | inl e => inl e
          | inr child' => inr (Dir (set c child' es))
          end
      end
  end.

Definition MkdirAll (fs : FS) (path : string) : FS * option error :=
  match resolve fs path with
  | None => (fs, Some (PathError "mkdir" path ENOENT))
  | Some cs =>
      match mkdirAll cs (tree fs) with
      | inl e => (fs, Some (PathError "mkdir" path e))
      | inr t => ({| tree := t; wd := wd fs |}, None)
      end
  end.

(** [*os.LinkError] *)
Record LinkError := { le_Op : string; le_Old : string; le_New : string; le_Err : Errno }.

Fixpoint sameNames (a b : list string) : bool :=
  match a, b with
  | [], [] => true
  | x :: a', y :: b' => (x =? y) && sameNames a' b'
  | _, _ => false
  end.

Fixpoint leadsTo (a b : list string) : bool :=
  match a, b with
  | [], _ => true
  | x :: a', y :: b' => (x =? y) && leadsTo a' b'
  | _ :: _, [] => false
  end.

Definition isRoot (cs : list string) : bool :=
  match cs with
  | [] => true
  | _ :: _ => false
  end.

(** The system call [rename]: the entry at the old path moves to the new
    path, where it may replace a regular file or an empty directory of its
    own kind. The root cannot be moved or replaced, and a directory cannot
    move below itself. *)
Definition rename (fs : FS) (oldname newname : string) : FS * option Errno :=
  match resolve fs oldname, resolve fs newname with
  | Some a, Some b =>
      match find (tree fs) a with
      | inl e => (fs, Some e)
      | inr n =>
          if isRoot a || isRoot b then (fs, Some EBUSY)
          else if sameNames a b then (fs, None)
          else if leadsTo a b
          then (fs, Some (match n with Dir _ => EINVAL | File _ => ENOTDIR end))
          else
            match n, find (tree fs) b with
            | Dir _, inr (File _) => (fs, Some ENOTDIR)
            | File _, inr (Dir _) => (fs, Some EISDIR)
            | Dir _, inr (Dir (_ :: _)) => (fs, Some ENOTEMPTY)
            | _, _ =>
                match alter (fun _ => inr None) a (tree fs) with
                | inl e => (fs, Some e)
                | inr t1 =>
                    match alter (fun _ => inr (Some n)) b t1 with
                    | inl e => (fs, Some e)
                    | inr t2 => ({| tree := t2; wd := wd fs |}, None)
                    end
                end
            end
      end
  | _, _ => (fs, Some ENOENT)
  end.

(** [os.Rename]: a new name that is an existing directory is refused
    before the system call. *)
Definition Rename (fs : FS) (oldname newname : string) : FS * option LinkError :=
  let fail e := (fs, Some {| le_Op := "rename"; le_Old := oldname;
                             le_New := newname; le_Err := e |}) in
  let call :=
    match rename fs oldname newname with
    | (fs', Some e) => fail e
    | (fs', None) => (fs', None)
    end in
  match lookup fs newname with
  | inr (Dir _) =>
      match lookup fs oldname with
      | inl e => fail e
      | inr _ =>
          if (newname =? oldname)
             || negb (match resolve fs newname, resolve fs oldname with
                      | Some b, Some a => sameNames b a
                      | _, _ => false
                      end)
          then fail EEXIST
          else call
      end
  | _ => call
  end.

End os.

(** [io.Copy(dst, src)] for a source that delivers [data] and then EOF. *)
Module io.
Definition Copy (fs : os.FS) (dst : os.file) (data : list byte)
  : os.FS * (error + Z) :=
  os.Write fs dst data.
End io.

(* ================================================================== *)
(** ** [filepath.Walk] over the file tree *)

(** What [Walk] hands to its [WalkFunc] besides the path: the [FileInfo] of
    the entry, or the error that kept [Walk] from getting one. *)
Inductive visit :=
| Visited (info : os.FileInfo)
| Failed (err : error).

(** A [WalkFunc] with the state its closure updates. *)
Definition WalkFunc (St : Type) := string -> visit -> St -> St * option error.

Definition isSkipDir (e : error) : bool :=
  match e with SkipDir => true | _ => false end.

Definition nodeIsDir (n : os.node) : bool :=
  match n with os.Dir _ => true | os.File _ => false end.

(** [filepath.walk]: the function is called on the entry itself, then on
    every entry of a directory in the order of their names. The entries
    come with their nodes, which is what [lstat] of the joined path finds
    in a tree that nothing else changes during the walk (lemma
    [lookup_entry] below). *)
Fixpoint walk {St : Type} (walkFn : WalkFunc St) (path : string) (n : os.node)
         (s : St) {struct n} : St * option error :=
  match n with
  | os.File _ => walkFn path (Visited (os.statOf path n)) s
  | os.Dir es =>
      let '(s1, err1) := walkFn path (Visited (os.statOf path n)) s in
      match err1 with
      | Some e => (s1, Some e)
      | None =>
          (fix each (names : list (string * os.node)) (s : St) : St * option error :=
             match names with
             | [] => (s, None)
             | (name, child) :: rest =>
                 let filename := filepath.Join [path; name] in
                 let '(s', err) := walk walkFn filename child s in
                 match err with
                 | None => each rest s'
                 | Some e =>
                     if nodeIsDir child && isSkipDir e then each rest s'
                     else (s', Some e)
                 end
             end) es s1
      end
  end.

(** [filepath.Walk(root, fn)] *)
Definition Walk {St : Type} (fs : os.FS) (root : string) (fn : WalkFunc St)
           (s : St) : St * option error :=
  let '(s', err) :=
    match os.lookup fs root with
    | inl e => fn root (Failed (PathError "lstat" root e)) s
    | inr n => walk fn root n s
    end in
  match err with
  | Some SkipDir => (s', None)
  | Some SkipAll => (s', None)
  | _ => (s', err)
  end.

(* ================================================================== *)
(** ** [server/filedriver.go] *)

(** The permission oracle [Perm]. *)
Record Perm := {
  GetMode  : string -> error + Z;
  GetOwner : string -> error + string;
  GetGroup : string -> error + string }.

Record FileDriver := {
  RootPath : string;
  perm : Perm }.

Record FileInfoEx := {
  info  : os.FileInfo;
  mode  : Z;
  owner : string;
  group : string }.

(** [func (f *FileDriver) realPath(path string) string] *)
Definition realPath (f : FileDriver) (path : string) : string :=
  let paths := strings.Split path in
  filepath.Join (RootPath f :: paths).

(** Calls that change the file tree and may fail. *)
Definition M (A : Type) : Type := os.FS -> os.FS * (error + A).

Definition ret {A} (a : A) : M A := fun fs => (fs, inr a).

Definition bind {A B} (m : M A) (k : A -> M B) : M B :=
  fun fs =>
    match m fs with
    | (fs', inl e) => (fs', inl e)
    | (fs', inr a) => k a fs'
    end.

Definition check (c : os.FS -> os.FS * option error) : M unit :=
  fun fs =>
    match c fs with
    | (fs', Some e) => (fs', inl e)
    | (fs', None) => (fs', inr tt)
    end.

Declare Scope go_scope.
Delimit Scope go_scope with go.
Notation "x <- m ;; k" := (bind m (fun x => k))
  (at level 61, m at next level, right associativity) : go_scope.
Notation "m ;;; k" := (bind m (fun _ => k))
  (at level 61, right associativity) : go_scope.

(** [func (f *FileDriver) ChangeDir(path string) error] *)
Definition ChangeDir (f : FileDriver) (fs : os.FS) (path : string) : option error :=
  let rPath := realPath f path in
  match os.Lstat fs rPath with
  | inl err => Some err
  | inr r => if os.IsDir r then None else Some (ErrorString "Not a directory")
  end.

(** [func (f *FileDriver) Stat(path string) (FileInfo, error)]; what it
    prints on standard output is left out. *)
Definition Stat (f : FileDriver) (fs : os.FS) (path : string) : error + FileInfoEx :=
  let basepath := realPath f path in
  let rPath := filepath.Abs (os.Getwd fs) basepath in
  match os.Lstat fs rPath with
  | inl err => inl err
  | inr r =>
      match GetMode (perm f) path with
      | inl err => inl err
      | inr mode =>
          let mode := if os.IsDir r then Z.lor mode os.ModeDir else mode in
          match GetOwner (perm f) path with
          | inl err => inl err
          | inr owner =>
              match GetGroup (perm f) path with
              | inl err => inl err
              | inr group => inr {| info := r; mode := mode; owner := owner; group := group |}
              end
          end
      end
  end.

(** The closure [ListDir] hands to [filepath.Walk]; [callback] comes with
    the state of its own closure. *)
Definition listDirFn {St : Type} (c : FileDriver) (basepath : string)
           (callback : FileInfoEx -> St -> St * option error) : WalkFunc St :=
  fun f v s =>
    match v with
    | Failed err => (s, Some err)
    | Visited info =>
        let rPath := match filepath.Rel basepath f with
                     | Some r => r
                     | None => ""
                     end in
        if rPath =? os.Name info then
          match GetMode (perm c) rPath with
          | inl err => (s, Some err)
          | inr mode =>
              let mode := if os.IsDir info then Z.lor mode os.ModeDir else mode in
              match GetOwner (perm c) rPath with
              | inl err => (s, Some err)
              | inr owner =>
                  match GetGroup (perm c) rPath with
                  | inl err => (s, Some err)
                  | inr group =>
                      let '(s', err) :=
                        callback {| info := info; mode := mode;
                                    owner := owner; group := group |} s in
                      match err with
                      | Some e => (s', Some e)
                      | None =>
                          if os.IsDir info then (s', Some SkipDir) else (s', None)
                      end
                  end
              end
          end
        else (s, None)
    end.

(** [func (c *FileDriver) ListDir(path string, callback func(FileInfo) error) error] *)
Definition ListDir {St : Type} (c : FileDriver) (fs : os.FS) (path : string)
           (callback : FileInfoEx -> St -> St * option error) (s : St)
  : St * option error :=
  let basepath := realPath c path in
  Walk fs basepath (listDirFn c basepath callback) s.

(** [func (f *FileDriver) DeleteDir(path string) error] *)
Definition DeleteDir (f : FileDriver) (fs : os.FS) (path : string) : os.FS * option error :=
  let rPath := realPath f path in
  match os.Lstat fs rPath with
  | inl err => (fs, Some err)
  | inr r =>
      if os.IsDir r then os.Remove fs rPath
      else (fs, Some (ErrorString "Not a directory"))
  end.

(** [func (c *FileDriver) DeleteFile(path string) error] *)
Definition DeleteFile (c : FileDriver) (fs : os.FS) (path : string) : os.FS * option error :=
  let rPath := realPath c path in
  match os.Lstat fs rPath with
  | inl err => (fs, Some err)
  | inr f =>
      if negb (os.IsDir f) then os.Remove fs rPath
      else (fs, Some (ErrorString "Not a file"))
  end.

(** [func (f *FileDriver) MakeDir(path string) error] *)
Definition MakeDir (f : FileDriver) (fs : os.FS) (path : string) : os.FS * option error :=
  let rPath := realPath f path in
  os.MkdirAll fs rPath.

(** [func (f *FileDriver) GetFile(path string, offset int64) (int64, io.ReadCloser, error)];
    the result of [Seek] is dropped as in the source. *)
Definition GetFile (f : FileDriver) (fs : os.FS) (path : string) (offset : Z)
  : os.FS * (error + (Z * os.file)) :=
  let rPath := realPath f path in
  (r <- (fun fs => os.Open fs rPath) ;;
   info <- (fun fs => (fs, os.Stat fs r)) ;;
   r <- (fun fs => (fs, inr (fst (os.Seek fs r offset os.SeekStart)))) ;;
   ret (os.Size info, r))%go fs.

(** [func (f *FileDriver) PutFile(destPath string, data io.Reader, appendData bool) (int64, error)] *)
Definition PutFile (f : FileDriver) (fs : os.FS) (destPath : string)
           (data : list byte) (appendData : bool) : os.FS * (error + Z) :=
  let rPath := realPath f destPath in
  let exists_ : error + bool :=
    match os.Lstat fs rPath with
    | inr r =>
        if os.IsDir r then inl (ErrorString "A dir has the same name")
        else inr true
    | inl err =>
        if os.IsNotExist err then inr false
        else inl (ErrorString (Sprintln "Put File error:" err))
    end in
  match exists_ with
  | inl err => (fs, inl err)
  | inr isExist =>
      let appendData := if appendData && negb isExist then false else appendData in
      if negb appendData then
        ((if isExist then check (fun fs => os.Remove fs rPath) else ret tt) ;;;
         r <- (fun fs => os.Create fs rPath) ;;
         bytes <- (fun fs => io.Copy fs r data) ;;
         ret bytes)%go fs
      else
        (of_ <- (fun fs => os.OpenFile fs rPath (Z.lor os.O_APPEND os.O_RDWR)) ;;
         of_ <- (fun fs => match os.Seek fs of_ 0 os.SeekEnd with
                           | (_, inl err) => (fs, inl err)
                           | (of', inr _) => (fs, inr of')
                           end) ;;
         bytes <- (fun fs => io.Copy fs of_ data) ;;
         ret bytes)%go fs
  end.

(** [func (f *FileDriver) Rename(fromPath string, toPath string) error] *)
Definition Rename (f : FileDriver) (fs : os.FS) (fromPath toPath : string)
  : os.FS * option os.LinkError :=
  let oldPath := realPath f fromPath in
  let newPath := realPath f toPath in
  os.Rename fs oldPath newPath.

(* ================================================================== *)
(** ** The server: options, listener, accept loop *)

(** The interface [Driver], with the one driver of the repository. *)
Definition Driver := FileDriver.

(** The interface [DriverFactory]. *)
Record DriverFactory := { NewDriver : unit -> error + Driver }.

(** [FileDriverFactory] and its [NewDriver]. *)
Record FileDriverFactory := { fdf_RootPath : string; fdf_Perm : Perm }.

Definition FileDriverFactory_NewDriver (f : FileDriverFactory) : DriverFactory :=
  {| NewDriver := fun _ => inr {| RootPath := fdf_RootPath f; perm := fdf_Perm f |} |}.

(** The interface [Auth]. *)
Record Auth := { CheckPasswd : string -> string -> error + bool }.

(** The loggers: [StdLogger], or one the caller brings. *)
Inductive Logger := StdLogger | UserLogger (id : nat).

(** [type ServerOpts struct]; a [nil] interface value is [None]. *)
Record ServerOpts := {
  Factory        : option DriverFactory;
  auth           : option Auth;
  Name           : string;
  Hostname       : string;
  PublicIp       : string;
  PassivePorts   : string;
  Port           : Z;
  TLS            : bool;
  CertFile       : string;
  KeyFile        : string;
  ExplicitFTPS   : bool;
  WelcomeMessage : string;
  logger         : option Logger }.

(** [&ServerOpts{}] *)
Definition zeroOpts : ServerOpts :=
  {| Factory := None; auth := None; Name := ""; Hostname := "";
     PublicIp := ""; PassivePorts := ""; Port := 0; TLS := false;
     CertFile := ""; KeyFile := ""; ExplicitFTPS := false;
     WelcomeMessage := ""; logger := None |}.

Definition Certificate := nat.

Record tlsConfig := {
  NextProtos   : list string;
  Certificates : list Certificate }.

(** A [net.Listener]: made by [tls.Listen] or by [net.Listen], and closed
    or not. *)
Record Listener := {
  l_tls    : option tlsConfig;
  l_addr   : string;
  l_closed : bool }.

(** [type Server struct]. [ctx] stands for the pair [ctx], [cancel], which
    are set together: [None] before [Serve], then [Some done] where [done]
    says whether [ctx.Done()] is closed. *)
Record Server := {
  opts       : ServerOpts;
  listenTo   : string;
  s_logger   : option Logger;
  listener   : option Listener;
  s_tlsConfig : option tlsConfig;
  ctx        : option bool;
  feats      : string }.

(** [var ErrServerClosed = errors.New("ftp: Server closed")] *)
Definition ErrServerClosed : error := ErrorString "ftp: Server closed".

Definition Itoa (n : Z) : string :=
  DecimalString.NilZero.string_of_int (Z.to_int n).

Fixpoint hasColon (s : string) : bool :=
  match s with
  | EmptyString => false
  | String c s' => Ascii.eqb c ":" || hasColon s'
  end.

(** [net.JoinHostPort] *)
Definition JoinHostPort (host port : string) : string :=
  if hasColon host then "[" ++ host ++ "]:" ++ port
  else host ++ ":" ++ port.

(** [type Conn struct], as far as [newConn] fills it in. *)
Record Conn := {
  namePrefix : string;
  conn       : nat;
  driver     : Driver;
  c_auth     : option Auth;
  c_tlsConfig : option tlsConfig }.

(** What the server does to the world around it: the lines handed to the
    logger, the sessions started with [go ftpConn.Serve()], and the
    connections the accept loop closed itself. *)
Record World := {
  logged   : list (string * string);
  sessions : list Conn;
  closed   : list nat }.

(** What the host answers when the server loads its key pair and binds its
    address. *)
Record Host := {
  LoadX509KeyPair : string -> string -> error + Certificate;
  listen          : string -> option error }.

(** How a call of [Serve] ends: it returns an error, or a nil-pointer
    dereference panics. A call that has not ended is still accepting. *)
Inductive stopped :=
| Returned (err : error)
| Panicked.

(** What happens while the accept loop runs: [Accept] returns in the loop,
    or another goroutine calls [Shutdown]. The set-up of [Serve], each turn
    of its loop and each call of [Shutdown] are taken as indivisible
    steps. *)
Inductive event :=
| Accepts (r : error + nat)
| ShutdownCalled.

Section ServerCode.

(** Constants of package [server] that other files of the package
    declare: [featCmds], the text of [feats] before and after its [%s],
    and [defaultWelcomeMessage]. *)
Variables (featCmds featsPre featsPost defaultWelcomeMessage : string).

(** [func serverOptsWithDefaults(opts *ServerOpts) *ServerOpts] *)
Definition serverOptsWithDefaults (o : option ServerOpts) : ServerOpts :=
  let opts := match o with
              | None => zeroOpts
              | Some opts => opts
              end in
  {| Hostname := if Hostname opts =? "" then "::" else Hostname opts;
     Port := if (Port opts =? 0)%Z then 3000%Z else Port opts;
     Factory := Factory opts;
     Name := if Name opts =? "" then "Go FTP Server" else Name opts;
     WelcomeMessage := if WelcomeMessage opts =? "" then defaultWelcomeMessage
                       else WelcomeMessage opts;
     auth := match auth opts with
             | Some a => Some a
             | None => None
             end;
     logger := match logger opts with
               | Some l => Some l
               | None => Some StdLogger
               end;
     TLS := TLS opts;
     KeyFile := KeyFile opts;
     CertFile := CertFile opts;
     ExplicitFTPS := ExplicitFTPS opts;
     PublicIp := PublicIp opts;
     PassivePorts := PassivePorts opts |}.

(** [func NewServer(opts *ServerOpts) *Server] *)
Definition NewServer (o : option ServerOpts) : Server :=
  let opts := serverOptsWithDefaults o in
  {| opts := opts;
     listenTo := JoinHostPort (Hostname opts) (Itoa (Port opts));
     s_logger := logger opts;
     listener := None;
     s_tlsConfig := None;
     ctx := None;
     feats := "" |}.

(** [func (s *Server) newConn(tcpConn net.Conn, driver Driver) *Conn];
    the buffered reader and writer, the session id and the back
    references are left out. *)
Definition newConn (s : Server) (tcpConn : nat) (driver : Driver) : Conn :=
  {| namePrefix := "/";
     conn := tcpConn;
     driver := driver;
     c_auth := auth (opts s);
     c_tlsConfig := s_tlsConfig s |}.

(** [s.logger.Printf(sessionId, ...)] with the line already formatted; a
    [nil] logger is a panic. *)
Definition Printf (s : Server) (w : World) (sessionId line : string) : option World :=
  match s_logger s with
  | None => None
  | Some _ =>
      Some {| logged := (logged w ++ [(sessionId, line)])%list;
              sessions := sessions w;
              closed := closed w |}
  end.

(** [func simpleTLSConfig(certFile, keyFile string)], returning the
    configuration or an error. *)
Definition simpleTLSConfig (h : Host) (certFile keyFile : string) : error + tlsConfig :=
  match LoadX509KeyPair h certFile keyFile with
  | inl err => inl err
  | inr cert => inr {| NextProtos := ["ftp"]; Certificates := [cert] |}
  end.

(** [net.Listen("tcp", addr)] and [tls.Listen("tcp", addr, config)] *)
Definition net_Listen (h : Host) (addr : string) : error + Listener :=
  match listen h addr with
  | Some err => inl err
  | None => inr {| l_tls := None; l_addr := addr; l_closed := false |}
  end.

Definition tls_Listen (h : Host) (addr : string) (config : tlsConfig) : error + Listener :=
  match listen h addr with
  | Some err => inl err
  | None => inr {| l_tls := Some config; l_addr := addr; l_closed := false |}
  end.

Definition errClosing : error := NetError "use of closed network connection" false.

(** [l.Accept()]: a closed listener fails, an open one returns what
    arrives. *)
Definition Accept (l : Listener) (r : error + nat) : error + nat :=
  if l_closed l then inl errClosing else r.

(** [l.Close()] *)
Definition Close (l : Listener) : Listener * option error :=
  if l_closed l then (l, Some errClosing)
  else ({| l_tls := l_tls l; l_addr := l_addr l; l_closed := true |}, None).

(** [ne, ok := err.(net.Error); ok && ne.Temporary()] *)
Definition isTemporary (err : error) : bool :=
  match err with
  | NetError _ temporary => temporary
  | _ => false
  end.

(** One turn of the [for] loop of [Serve]; [None] means the loop goes
    on. *)
Definition serveTurn (s : Server) (w : World) (r : error + nat)
  : World * option stopped :=
  let sessionID := "" in
  match listener s with
  | None => (w, Some Panicked)
  | Some l =>
      match Accept l r with
      | inl err =>
          match ctx s with
          | Some true => (w, Some (Returned ErrServerClosed))
          | _ =>
              match Printf s w sessionID ("listening error: " ++ Error err) with
              | None => (w, Some Panicked)
              | Some w' =>
                  if isTemporary err then (w', None)
                  else (w', Some (Returned err))
              end
          end
      | inr tcpConn =>
          match Factory (opts s) with
          | None => (w, Some Panicked)
          | Some factory =>
              match NewDriver factory tt with
              | inl err =>
                  match Printf s w sessionID
                          ("Error creating driver, aborting client connection: "
                             ++ Error err) with
                  | None => (w, Some Panicked)
                  | Some w' =>
                      ({| logged := logged w'; sessions := sessions w';
                          closed := (closed w' ++ [tcpConn])%list |}, None)
                  end
              | inr driver =>
                  let ftpConn := newConn s tcpConn driver in
                  ({| logged := logged w;
                      sessions := (sessions w ++ [ftpConn])%list;
                      closed := closed w |}, None)
              end
          end
      end
  end.

(** [func (s *Server) Shutdown() error] *)
Definition Shutdown (s : Server) : Server * option error :=
  let ctx' := match ctx s with
              | Some _ => Some true
              | None => None
              end in
  match listener s with
  | Some l =>
      let '(l', err) := Close l in
      ({| opts := opts s; listenTo := listenTo s; s_logger := s_logger s;
          listener := Some l'; s_tlsConfig := s_tlsConfig s;
          ctx := ctx'; feats := feats s |}, err)
  | None =>
      ({| opts := opts s; listenTo := listenTo s; s_logger := s_logger s;
          listener := None; s_tlsConfig := s_tlsConfig s;
          ctx := ctx'; feats := feats s |}, None)
  end.

(** The accept loop under a sequence of events; [None] when the loop is
    still accepting after them. *)
Fixpoint acceptLoop (s : Server) (w : World) (evs : list event)
  : Server * World * option stopped :=
  match evs with
  | [] => (s, w, None)
  | Accepts r :: evs' =>
      match serveTurn s w r with
      | (w', None) => acceptLoop s w' evs'
      | (w', Some out) => (s, w', Some out)
      end
  | ShutdownCalled :: evs' => acceptLoop (fst (Shutdown s)) w evs'
  end.

(** [func (s *Server) Serve(l net.Listener) error] *)
Definition Serve (s : Server) (l : Listener) (w : World) (evs : list event)
  : Server * World * option stopped :=
  let s := {| opts := opts s; listenTo := listenTo s; s_logger := s_logger s;
              listener := Some l; s_tlsConfig := s_tlsConfig s;
              ctx := Some false; feats := feats s |} in
  acceptLoop s w evs.

(** [func (s *Server) ListenAndServe() error] *)
Definition ListenAndServe (s : Server) (h : Host) (w : World) (evs : list event)
  : Server * World * option stopped :=
  let curFeats := featCmds in
  let withTLS (s : Server) (c : option tlsConfig) :=
    {| opts := opts s; listenTo := listenTo s; s_logger := s_logger s;
       listener := listener s; s_tlsConfig := c;
       ctx := ctx s; feats := feats s |} in
  let setup : error + (Server * string * (error + Listener)) :=
    if TLS (opts s) then
      match simpleTLSConfig h (CertFile (opts s)) (KeyFile (opts s)) with
      | inl err => inl err
      | inr config =>
          let s := withTLS s (Some config) in
          let curFeats := (curFeats ++ " AUTH TLS" ++ newline ++ " PBSZ"
                             ++ newline ++ " PROT" ++ newline)%string in
          if ExplicitFTPS (opts s)
          then inr (s, curFeats, net_Listen h (listenTo s))
          else inr (s, curFeats, tls_Listen h (listenTo s) config)
      end
    else inr (s, curFeats, net_Listen h (listenTo s)) in
  match setup with
  | inl err => (s, w, Some (Returned err))
  | inr (s, _, inl err) => (s, w, Some (Returned err))
  | inr (s, curFeats, inr l) =>
      let s := {| opts := opts s; listenTo := listenTo s; s_logger := s_logger s;
                  listener := listener s; s_tlsConfig := s_tlsConfig s;
                  ctx := ctx s; feats := (featsPre ++ curFeats ++ featsPost)%string |} in
      match Printf s w "" (Name (opts s) ++ " listening on " ++ Itoa (Port (opts s)))%string with
      | None => (s, w, Some Panicked)
      | Some w' => Serve s l w' evs
      end
  end.

End ServerCode.

(* ================================================================== *)
(** ** Vocabulary of the statements *)

(** *** Paths *)

Fixpoint isPrefix (a b : list string) : bool :=
  match a, b with
  | [], _ => true
  | x :: a', y :: b' => (x =? y) && isPrefix a' b'
  | _ :: _, [] => false
  end.

(** [p] lies lexically at or below [root]: both are rooted or both are
    not, and the elements of the cleaned [p] are those of the cleaned
    [root] followed by elements other than [..]. *)
Definition containedb (root p : string) : bool :=
  Bool.eqb (filepath.rooted p) (filepath.rooted root)
  && isPrefix (filepath.comps root) (filepath.comps p)
  && forallb (fun e => negb (e =? ".."))
       (skipn (List.length (filepath.comps root)) (filepath.comps p)).

(** A path element that names a directory entry: not empty, neither [.]
    nor [..], and free of separators. *)
Definition isName (e : string) : bool :=
  negb (e =? "") && negb (e =? ".") && negb (e =? "..") && strings.noSep e.

(** What the loop of [Clean] keeps true of its output: [dotdot] leading
    [..] elements, none of them in a rooted path, then names. *)
Definition cleanInv (r : bool) (st : list string * nat) : Prop :=
  exists names, fst st = repeat ".." (snd st) ++ names
    /\ Forall (fun e => isName e = true) names
    /\ (r = true -> snd st = 0).

(** A cleaned path: what [Clean] returns. *)
Definition cleaned (p : string) : Prop :=
  exists r out dd, cleanInv r (out, dd) /\ p = filepath.render r out.

(** *** The file tree *)

(** The entry at [cs], if there is one. *)
Definition findo (t : os.node) (cs : list string) : option os.node :=
  match os.find t cs with
  | inr n => Some n
  | inl _ => None
  end.

(** [cs] has a last name, and all names before it lead through
    directories of [t]: the parent directory of [cs] exists. *)
Fixpoint parentIsDir (t : os.node) (cs : list string) : bool :=
  match cs, t with
  | [], _ => false
  | _ :: _, os.File _ => false
  | [_], os.Dir _ => true
  | c :: rest, os.Dir es =>
      match os.assoc c es with
      | Some child => parentIsDir child rest
      | None => false
      end
  end.

(** As far as the names of [cs] exist in [t] they are directories: no
    regular file lies on the way to [cs] or at [cs]. *)
Fixpoint noFileOnPath (t : os.node) (cs : list string) : bool :=
  match t with
  | os.File _ => false
  | os.Dir es =>
      match cs with
      | [] => true
      | c :: rest =>
          match os.assoc c es with
          | Some child => noFileOnPath child rest
          | None => true
          end
      end
  end.

(** What a file holds after [d] was stored or appended, given what was
    found at its path before. *)
Definition newContent (before : Errno + os.node) (d : list byte) (appendData : bool)
  : list byte :=
  match before with
  | inr (os.File old) => if appendData then old ++ d else d
  | _ => d
  end.

(** *** Walking a directory *)

(** The loop of [walk] over the entries of a directory. *)
Definition walkEntries {St : Type} (walkFn : WalkFunc St) (path : string) :=
  fix each (names : list (string * os.node)) (s : St) : St * option error :=
    match names with
    | [] => (s, None)
    | (name, child) :: rest =>
        let filename := filepath.Join [path; name] in
        let '(s', err) := walk walkFn filename child s in
        match err with
        | None => each rest s'
        | Some e =>
            if nodeIsDir child && isSkipDir e then each rest s'
            else (s', Some e)
        end
    end.

Definition nodeSize (n : os.node) : Z :=
  match n with
  | os.File data => Z.of_nat (List.length data)
  | os.Dir _ => 0
  end.

(** The [FileInfoEx] that [ListDir] builds for an entry of the listed
    directory, when the oracle answers [md], [ow] and [gr]. *)
Definition listed (md : string -> Z) (ow gr : string -> string)
           (e : string * os.node) : FileInfoEx :=
  let '(name, n) := e in
  {| info := {| os.Name := name; os.Size := nodeSize n; os.IsDir := nodeIsDir n |};
     mode := if nodeIsDir n then Z.lor (md name) os.ModeDir else md name;
     owner := ow name;
     group := gr name |}.

(** The permission oracle answers for the entry [e] with the mode, owner
    and group that [md], [ow] and [gr] give. *)
Definition permOk (c : FileDriver) (md : string -> Z) (ow gr : string -> string)
           (e : string * os.node) : Prop :=
  GetMode (perm c) (fst e) = inr (md (fst e))
  /\ GetOwner (perm c) (fst e) = inr (ow (fst e))
  /\ GetGroup (perm c) (fst e) = inr (gr (fst e)).

(** A callback that records what it is called with. *)
Definition record (i : FileInfoEx) (s : list FileInfoEx)
  : list FileInfoEx * option error :=
  (s ++ [i], None).

(** *** The server *)

(** What [ListenAndServe] appends to the feature list under TLS. *)
Definition tlsFeats : string :=
  (" AUTH TLS" ++ newline ++ " PBSZ" ++ newline ++ " PROT" ++ newline)%string.

(** The world after one more line went to the logger. *)
Definition withLine (w : World) (sessionId line : string) : World :=
  {| logged := logged w ++ [(sessionId, line)];
     sessions := sessions w;
     closed := closed w |}.

(** The server was started by [Serve]: it has its listener and its
    context. *)
Definition serving (s : Server) : Prop :=
  listener s <> None /\ ctx s <> None.

(** *** Paths that part ways, and a tree with one more entry *)

(** The paths part ways at some name: neither leads to the other or
    through it. *)
Fixpoint diverge (a b : list string) : bool :=
  match a, b with
  | x :: a', y :: b' => if x =? y then diverge a' b' else true
  | _, _ => false
  end.

(** The tree [t] with the new entry [v] at [cs], for a [cs] that [t] does
    not have but whose parent directory it has. *)
Fixpoint graft (cs : list string) (v : os.node) (t : os.node) : os.node :=
  match cs, t with
  | [c], os.Dir es => os.Dir (os.insert c v es)
  | c :: rest, os.Dir es =>
      match os.assoc c es with
      | Some child => os.Dir (os.replace c (graft rest v child) es)
      | None => t
      end
  | _, _ => t
  end.

(** *** What a call keeps *)

(** What [t] has, [t'] has too: a regular file with the same content, a
    directory as a directory. *)
Definition keeps (t t' : os.node) : Prop :=
  forall cs n, os.find t cs = inr n ->
    match n with
    | os.File d => os.find t' cs = inr (os.File d)
    | os.Dir _ => exists es', os.find t' cs = inr (os.Dir es')
    end.

(** *** A listing as a loop *)

(** What [ListDir] hands to the callback for an entry of the listed
    directory, or the error of the permission oracle. *)
Definition entryInfo (c : FileDriver) (e : string * os.node) : error + FileInfoEx :=
  let '(name, n) := e in
  match GetMode (perm c) name with
  | inl err => inl err
  | inr m =>
      match GetOwner (perm c) name with
      | inl err => inl err
      | inr o =>
          match GetGroup (perm c) name with
          | inl err => inl err
          | inr g =>
              inr {| info := {| os.Name := name; os.Size := nodeSize n;
                                os.IsDir := nodeIsDir n |};
                     mode := if nodeIsDir n then Z.lor m os.ModeDir else m;
                     owner := o;
                     group := g |}
          end
      end
  end.

(** A listing as a plain loop over the entries of the directory: it goes
    on until the oracle or the callback returns an error, except that
    [SkipDir] at a directory counts as success. *)
Fixpoint listLoop {St : Type} (c : FileDriver)
         (callback : FileInfoEx -> St -> St * option error)
         (es : list (string * os.node)) (s : St) : St * option error :=
  match es with
  | [] => (s, None)
  | e :: rest =>
      let '(s', err) := match entryInfo c e with
                        | inl err => (s, Some err)
                        | inr i => callback i s
                        end in
      match err with
      | None => listLoop c callback rest s'
      | Some x =>
          if nodeIsDir (snd e) && isSkipDir x then listLoop c callback rest s'
          else (s', Some x)
      end
  end.

(** What [Walk] makes of the result of its walk. *)
Definition afterWalk {St : Type} (r : St * option error) : St * option error :=
  match snd r with
  | Some SkipDir => (fst r, None)
  | Some SkipAll => (fst r, None)
  | _ => r
  end.

(** *** The accept loop *)

(** The events of connections arriving one after the other. *)
Definition arrivals (cs : list nat) : list event :=
  map (fun c => Accepts (inr c)) cs.

(** The server as [Serve] sets it up on the listener [l]. *)
Definition started (s : Server) (l : Listener) : Server :=
  {| opts := opts s; listenTo := listenTo s; s_logger := s_logger s;
     listener := Some l; s_tlsConfig := s_tlsConfig s;
     ctx := Some false; feats := feats s |}.

(** The world after the accept loop closed the connection [c] itself. *)
Definition withClosed (w : World) (c : nat) : World :=
  {| logged := logged w; sessions := sessions w; closed := closed w ++ [c] |}.

(** The world after sessions were started. *)
Definition withSessions (w : World) (cs : list Conn) : World :=
  {| logged := logged w; sessions := sessions w ++ cs; closed := closed w |}.

(** *** A small host *)

(** [/srv] holds the directory [a] with the file [x] and the file [b.txt];
    the process runs in [/srv]. *)
Definition sampleTree : os.node :=
  os.Dir [("srv", os.Dir [("a", os.Dir [("x", os.File [x61])]);
                          ("b.txt", os.File [x61; x62])])].

Definition sampleFS : os.FS := {| os.tree := sampleTree; os.wd := ["srv"] |}.

(** An oracle like [SimplePerm]: mode 0644 and one owner and group for
    every path. *)
Definition simplePerm (owner group : string) : Perm :=
  {| GetMode := fun _ => inr 420%Z;
     GetOwner := fun _ => inr owner;
     GetGroup := fun _ => inr group |}.

(** An oracle that knows no path. *)
Definition noPerm : Perm :=
  {| GetMode := fun _ => inl (ErrorString "no mode");
     GetOwner := fun _ => inl (ErrorString "no owner");
     GetGroup := fun _ => inl (ErrorString "no group") |}.

Definition sampleDriver : FileDriver :=
  {| RootPath := "/srv"; perm := simplePerm "root" "root" |}.

Definition strictDriver : FileDriver :=
  {| RootPath := "/srv"; perm := noPerm |}.

(** The driver of a server started in the directory it serves. *)
Definition dotDriver : FileDriver :=
  {| RootPath := "."; perm := simplePerm "root" "root" |}.

Definition sampleOpts : ServerOpts :=
  {| Factory := Some (FileDriverFactory_NewDriver
                        {| fdf_RootPath := "./upload";
                           fdf_Perm := simplePerm "root" "root" |});
     auth := None; Name := "FtpServer"; Hostname := "";
     PublicIp := ""; PassivePorts := ""; Port := 2121; TLS := true;
     CertFile := "cert.pem"; KeyFile := "key.pem"; ExplicitFTPS := false;
     WelcomeMessage := "welcome ftp server"; logger := None |}.

Definition sampleHost : Host :=
  {| LoadX509KeyPair := fun _ _ => inr 7; listen := fun _ => None |}.

Definition emptyWorld : World := {| logged := []; sessions := []; closed := [] |}.

Definition sampleServer : Server :=
  NewServer "Welcome to the Go FTP Server" (Some sampleOpts).

(** The server as [Serve] has set it up on a plain listener. *)
Definition acceptingServer : Server :=
  fst (fst (Serve sampleServer
              {| l_tls := None; l_addr := "[::]:2121"; l_closed := false |}
              emptyWorld [])).

(** The plain listener of the sample server. *)
Definition sampleListener : Listener :=
  {| l_tls := None; l_addr := "[::]:2121"; l_closed := false |}.

(** A factory that delivers no driver, and a server with it. *)
Definition brokenFactory : DriverFactory :=
  {| NewDriver := fun _ => inl (ErrorString "no driver") |}.

Definition brokenServer : Server :=
  NewServer "Welcome to the Go FTP Server"
    (Some {| Factory := Some brokenFactory;
             auth := None; Name := "FtpServer"; Hostname := "";
             PublicIp := ""; PassivePorts := ""; Port := 2121; TLS := false;
             CertFile := ""; KeyFile := ""; ExplicitFTPS := false;
             WelcomeMessage := ""; logger := None |}).

(* ================================================================== *)
(** * Proofs *)

(** ** The path functions on the cases of their Go tests *)

Example Split_cases :
  strings.Split "/a//b" = [""; "a"; ""; "b"] /\ strings.Split "" = [""].
Proof. split; reflexivity. Qed.

Example Clean_cases :
  filepath.Clean "abc//def//ghi" = "abc/def/ghi"
  /\ filepath.Clean "abc/./../def" = "def"
  /\ filepath.Clean "/../abc" = "/abc"
  /\ filepath.Clean "abc/../../././../def" = "../../def"
  /\ filepath.Clean "abc/def/" = "abc/def"
  /\ filepath.Clean "" = "."
  /\ filepath.Clean "/" = "/".
Proof. repeat split. Qed.

Example Join_cases :
  filepath.Join ["a"; "b"] = "a/b"
  /\ filepath.Join ["a"; ""] = "a"
  /\ filepath.Join [""; "b"] = "b"
  /\ filepath.Join ["/"; "a"] = "/a"
  /\ filepath.Join [""; ""] = ""
  /\ filepath.Join ["a/"; "b"] = "a/b".
Proof. repeat split. Qed.

Example Rel_cases :
  filepath.Rel "a/b" "a/b" = Some "."
  /\ filepath.Rel "a/b" "a/b/c/d" = Some "c/d"
  /\ filepath.Rel "a/b/c" "a/c/d" = Some "../../c/d"
  /\ filepath.Rel "a/b/c/d" "a/b" = Some "../.."
  /\ filepath.Rel "/a/b" "/a/b/c/d" = Some "c/d"
  /\ filepath.Rel "." "a/b" = Some "a/b"
  /\ filepath.Rel "." ".." = Some ".."
  /\ filepath.Rel ".." "." = None
  /\ filepath.Rel ".." "a" = None
  /\ filepath.Rel "/a" "a" = None.
Proof. repeat split. Qed.

Example basename_cases :
  os.basename "/srv/b.txt" = "b.txt"
  /\ os.basename "upload" = "upload"
  /\ os.basename "a/" = "a"
  /\ os.basename "/" = "/"
  /\ os.basename "." = ".".
Proof. repeat split. Qed.

(** ** Facts about [strings.Split] and [strings.Join] *)

Lemma Split_nonempty (s : string) : strings.Split s <> [].
Proof.
  destruct s as [|c s]; simpl; [discriminate|].
  destruct (strings.isSep c); [discriminate|].
  destruct (strings.Split s); discriminate.
Qed.

Lemma Split_noSep (s : string) :
  Forall (fun e => strings.noSep e = true) (strings.Split s).
Proof.
  induction s as [|c s IH]; simpl.
  - repeat constructor.
  - destruct (strings.isSep c) eqn:Hc.
    + constructor; [reflexivity|exact IH].
    + destruct (strings.Split s) as [|x xs]; [repeat constructor; simpl; now rewrite Hc|].
      inversion IH; subst. constructor; [simpl; rewrite Hc; assumption|assumption].
Qed.

Lemma Split_of_noSep (s : string) :
  strings.noSep s = true -> strings.Split s = [s].
Proof.
  induction s as [|c s IH]; simpl; [reflexivity|].
  intros H. apply andb_true_iff in H as [Hc Hs].
  apply negb_true_iff in Hc. rewrite Hc, (IH Hs). reflexivity.
Qed.

Lemma Split_app (a b : string) :
  strings.Split (a ++ "/" ++ b)%string = strings.Split a ++ strings.Split b.
Proof.
  induction a as [|c a IH]; simpl in *; [reflexivity|].
  rewrite IH. destruct (strings.isSep c); [reflexivity|].
  destruct (strings.Split a) as [|x xs] eqn:E; [now apply Split_nonempty in E|reflexivity].
Qed.

Lemma Join_cons (x y : string) (l : list string) :
  strings.Join (x :: y :: l) = (x ++ "/" ++ strings.Join (y :: l))%string.
Proof. reflexivity. Qed.

Lemma Split_Join (l : list string) :
  l <> [] -> Forall (fun e => strings.noSep e = true) l ->
  strings.Split (strings.Join l) = l.
Proof.
  induction l as [|x l IH]; [congruence|]. intros _ H.
  inversion H as [|? ? Hx Hl]; subst.
  destruct l as [|y l].
  - now apply Split_of_noSep.
  - rewrite Join_cons, Split_app, (Split_of_noSep x Hx), IH; [reflexivity|discriminate|assumption].
Qed.

Lemma Join_Split (s : string) : strings.Join (strings.Split s) = s.
Proof.
  induction s as [|c s IH]; simpl; [reflexivity|].
  destruct (strings.Split s) as [|x xs] eqn:E; [now apply Split_nonempty in E|].
  destruct (strings.isSep c) eqn:Hc.
  - rewrite Join_cons, IH. unfold strings.isSep in Hc.
    apply Ascii.eqb_eq in Hc. now subst c.
  - destruct xs as [|y ys].
    + simpl in *. now subst.
    + rewrite Join_cons in *. rewrite <- IH. reflexivity.
Qed.

Lemma length_append (a b : string) :
  String.length (a ++ b)%string = String.length a + String.length b.
Proof. induction a as [|x a IH]; simpl; [reflexivity|now rewrite IH]. Qed.

Lemma append_assoc (a b c : string) : ((a ++ b) ++ c)%string = (a ++ b ++ c)%string.
Proof. induction a as [|x a IH]; simpl; [reflexivity|now rewrite IH]. Qed.

Lemma isName_spec (e : string) :
  isName e = true ->
  (e =? "") = false /\ (e =? ".") = false /\ (e =? "..") = false
  /\ strings.noSep e = true.
Proof.
  unfold isName. rewrite !andb_true_iff, !negb_true_iff. tauto.
Qed.

Lemma cleanElem_name r out dd e :
  isName e = true -> filepath.cleanElem r (out, dd) e = (out ++ [e], dd).
Proof.
  intros H. apply isName_spec in H as (H1 & H2 & H3 & _).
  unfold filepath.cleanElem. now rewrite H1, H2, H3.
Qed.

Lemma cleanElem_inv r st e :
  strings.noSep e = true -> cleanInv r st -> cleanInv r (filepath.cleanElem r st e).
Proof.
  intros He [names (Hout & Hn & Hr)]. destruct st as [out dd]. simpl in *.
  unfold filepath.cleanElem.
  destruct (e =? "") eqn:E1; [now exists names|].
  destruct (e =? ".") eqn:E2; [now exists names|].
  destruct (e =? "..") eqn:E3.
  - destruct (Nat.ltb dd (List.length out)) eqn:Hlt.
    + apply Nat.ltb_lt in Hlt. subst out.
      rewrite length_app, repeat_length in Hlt.
      destruct names as [|n names] using rev_ind; [simpl in Hlt; lia|].
      exists names. simpl. rewrite app_assoc, removelast_last.
      apply Forall_app in Hn as [Hn _]. auto.
    + apply Nat.ltb_ge in Hlt. subst out.
      rewrite length_app, repeat_length in Hlt.
      destruct names as [|n names]; [|simpl in Hlt; lia].
      rewrite app_nil_r in *. rewrite repeat_length.
      destruct r.
      * exists []. simpl. rewrite app_nil_r. auto.
      * exists []. simpl. rewrite app_nil_r. split; [|split; [constructor|discriminate]].
        now rewrite <- repeat_cons.
  - exists (names ++ [e]). simpl. subst out. rewrite app_assoc.
    split; [reflexivity|]. split; [|assumption].
    apply Forall_app. split; [assumption|]. constructor; [|constructor].
    unfold isName. now rewrite E1, E2, E3, He.
Qed.

Lemma fold_cleanElem_inv r l st :
  Forall (fun e => strings.noSep e = true) l ->
  cleanInv r st -> cleanInv r (fold_left (filepath.cleanElem r) l st).
Proof.
  revert st. induction l as [|e l IH]; intros st Hl Hst; simpl; [assumption|].
  inversion Hl; subst. apply IH; [assumption|]. now apply cleanElem_inv.
Qed.

Lemma cleanInv_init r : cleanInv r ([], 0).
Proof. exists []. simpl. auto. Qed.

Lemma cleanState_inv (p : string) : cleanInv (filepath.rooted p) (filepath.cleanState p).
Proof.
  apply fold_cleanElem_inv; [apply Split_noSep|apply cleanInv_init].
Qed.

(** Folding over an already clean list of elements rebuilds it. *)
Lemma fold_dotdots (j k : nat) :
  fold_left (filepath.cleanElem false) (repeat ".." k) (repeat ".." j, j)
  = (repeat ".." (j + k), j + k).
Proof.
  revert j. induction k as [|k IH]; intros j; simpl.
  - now rewrite Nat.add_0_r.
  - rewrite repeat_length, Nat.ltb_irrefl.
    rewrite <- repeat_cons.
    change (".." :: repeat ".." j) with (repeat ".." (S j)).
    rewrite IH. now rewrite Nat.add_succ_r.
Qed.

Lemma fold_names r (names : list string) (out : list string) (dd : nat) :
  Forall (fun e => isName e = true) names ->
  fold_left (filepath.cleanElem r) names (out, dd) = (out ++ names, dd).
Proof.
  revert out. induction names as [|n names IH]; intros out H; cbn [fold_left].
  - now rewrite app_nil_r.
  - inversion H; subst. rewrite cleanElem_name by assumption.
    rewrite IH by assumption. now rewrite <- app_assoc.
Qed.

Lemma refold r out dd :
  cleanInv r (out, dd) ->
  fold_left (filepath.cleanElem r) out ([], 0) = (out, dd).
Proof.
  intros [names (Hout & Hn & Hr)]. simpl in *. subst out.
  rewrite fold_left_app.
  destruct r.
  - rewrite (Hr eq_refl). simpl. now apply fold_names.
  - change (@nil string, 0) with (repeat ".." 0, 0).
    rewrite fold_dotdots. simpl. now apply fold_names.
Qed.

Lemma noSep_of_inv r out dd :
  cleanInv r (out, dd) -> Forall (fun e => strings.noSep e = true) out.
Proof.
  intros [names (Hout & Hn & _)]. simpl in *. subst out.
  apply Forall_app. split.
  - apply Forall_forall. intros x Hx. apply repeat_spec in Hx. now subst.
  - eapply Forall_impl; [|exact Hn]. intros a Ha. now apply isName_spec in Ha.
Qed.

Lemma head_of_inv r out dd x xs :
  cleanInv r (out, dd) -> out = x :: xs -> filepath.rooted x = false /\ x <> "".
Proof.
  intros [names (Hout & Hn & _)] E. simpl in *. subst out.
  destruct dd as [|dd]; simpl in E.
  - subst names. inversion Hn; subst. apply isName_spec in H1 as (H1 & _ & _ & H4).
    apply String.eqb_neq in H1. destruct x as [|c x]; [congruence|]. simpl in *.
    apply andb_true_iff in H4 as [H4 _]. apply negb_true_iff in H4. split; [assumption|discriminate].
  - inversion E; subst. split; [reflexivity|discriminate].
Qed.

Lemma rooted_app (a b : string) : a <> "" -> filepath.rooted (a ++ b)%string = filepath.rooted a.
Proof. destruct a; [congruence|reflexivity]. Qed.

Lemma Join_head (x : string) (xs : list string) :
  x <> "" -> strings.Join (x :: xs) <> "" /\
  filepath.rooted (strings.Join (x :: xs)) = filepath.rooted x.
Proof.
  intros Hx. destruct xs as [|y ys].
  - simpl. auto.
  - rewrite Join_cons. split; [destruct x; [congruence|discriminate]|now apply rooted_app].
Qed.

Lemma render_nonempty r out dd :
  cleanInv r (out, dd) -> filepath.render r out <> "" /\
  filepath.rooted (filepath.render r out) = r.
Proof.
  intros H. unfold filepath.render. destruct r.
  - split; [discriminate|reflexivity].
  - destruct out as [|x xs]; [split; [discriminate|reflexivity]|].
    destruct (head_of_inv _ _ _ _ _ H eq_refl) as [Hr Hx].
    destruct (Join_head x xs Hx) as [H1 H2]. split; [assumption|congruence].
Qed.

Lemma Split_render r out dd :
  cleanInv r (out, dd) ->
  fold_left (filepath.cleanElem r) (strings.Split (filepath.render r out)) ([], 0)
  = (out, dd).
Proof.
  intros H. pose proof (noSep_of_inv _ _ _ H) as Hs.
  pose proof (refold _ _ _ H) as Hf.
  unfold filepath.render. destruct r.
  - change ("/" ++ strings.Join out)%string with ("" ++ "/" ++ strings.Join out)%string.
    rewrite Split_app. simpl.
    destruct out as [|x xs].
    + simpl. simpl in Hf. exact Hf.
    + rewrite Split_Join by (assumption || discriminate). exact Hf.
  - destruct out as [|x xs].
    + simpl. simpl in Hf. exact Hf.
    + rewrite Split_Join by (assumption || discriminate). exact Hf.
Qed.

Lemma cleanState_render r out dd :
  cleanInv r (out, dd) -> filepath.cleanState (filepath.render r out) = (out, dd).
Proof.
  intros H. unfold filepath.cleanState.
  destruct (render_nonempty _ _ _ H) as [_ Hr]. rewrite Hr.
  now apply Split_render.
Qed.

Lemma Clean_render r out dd :
  cleanInv r (out, dd) -> filepath.Clean (filepath.render r out) = filepath.render r out.
Proof.
  intros H. unfold filepath.Clean, filepath.comps.
  destruct (render_nonempty _ _ _ H) as [Hne Hr].
  apply String.eqb_neq in Hne. rewrite Hne, Hr, (cleanState_render _ _ _ H).
  reflexivity.
Qed.

Lemma Clean_cleaned (p : string) : cleaned (filepath.Clean p).
Proof.
  unfold filepath.Clean. destruct (p =? "").
  - exists false, [], 0. split; [apply cleanInv_init|reflexivity].
  - exists (filepath.rooted p), (filepath.comps p), (snd (filepath.cleanState p)).
    split; [|reflexivity]. unfold filepath.comps.
    rewrite <- surjective_pairing. apply cleanState_inv.
Qed.

Lemma Clean_idem (p : string) : filepath.Clean (filepath.Clean p) = filepath.Clean p.
Proof.
  destruct (Clean_cleaned p) as (r & out & dd & H & E). rewrite E.
  now apply Clean_render with dd.
Qed.

Lemma Clean_push r out dd n :
  cleanInv r (out, dd) -> isName n = true ->
  filepath.Clean (filepath.render r out ++ "/" ++ n)%string = filepath.render r (out ++ [n]).
Proof.
  intros H Hn. destruct (render_nonempty _ _ _ H) as [Hne Hr].
  unfold filepath.Clean, filepath.comps, filepath.cleanState.
  rewrite rooted_app by assumption. rewrite Hr.
  assert (((filepath.render r out ++ "/" ++ n)%string =? "") = false) as ->.
  { apply String.eqb_neq. destruct (filepath.render r out); [congruence|discriminate]. }
  rewrite Split_app, fold_left_app, (Split_render _ _ _ H).
  rewrite Split_of_noSep by (now apply isName_spec in Hn). cbn [fold_left].
  now rewrite cleanElem_name.
Qed.

Lemma cleanInv_push r out dd n :
  cleanInv r (out, dd) -> isName n = true -> cleanInv r (out ++ [n], dd).
Proof.
  intros H Hn. rewrite <- (cleanElem_name r out dd n Hn).
  apply cleanElem_inv; [now apply isName_spec in Hn|assumption].
Qed.

Lemma Clean_state (y : string) :
  filepath.cleanState (filepath.Clean y) = filepath.cleanState y
  /\ filepath.rooted (filepath.Clean y) = filepath.rooted y.
Proof.
  unfold filepath.Clean. destruct (y =? "") eqn:E.
  - apply String.eqb_eq in E. subst y. split; reflexivity.
  - pose proof (cleanState_inv y) as H.
    destruct (filepath.cleanState y) as [out dd] eqn:Es.
    unfold filepath.comps. rewrite Es. simpl.
    split; [now apply cleanState_render|].
    now destruct (render_nonempty _ _ _ H).
Qed.

Lemma fold_extends r l out dd :
  Forall (fun e => e <> "..") l ->
  exists rest,
    fst (fold_left (filepath.cleanElem r) l (out, dd)) = out ++ rest
    /\ forallb (fun e => negb (e =? "..")) rest = true.
Proof.
  revert out dd. induction l as [|e l IH]; intros out dd H; cbn [fold_left].
  - exists []. simpl. now rewrite app_nil_r.
  - inversion H as [|? ? He Hl]; subst.
    apply String.eqb_neq in He.
    unfold filepath.cleanElem at 2. rewrite He.
    destruct (e =? ""); [now apply IH|].
    destruct (e =? "."); [now apply IH|].
    destruct (IH (out ++ [e]) dd Hl) as [rest [E F]].
    exists (e :: rest). rewrite E, <- app_assoc. simpl. now rewrite He, F.
Qed.

Lemma isPrefix_app (a b : list string) : isPrefix a (a ++ b) = true.
Proof.
  induction a as [|x a IH]; simpl; [reflexivity|].
  now rewrite String.eqb_refl, IH.
Qed.

Lemma skipn_app_exact {A} (a b : list A) : skipn (List.length a) (a ++ b) = b.
Proof. induction a; simpl; auto. Qed.

Lemma contained_extends (root p : string) (rest : list string) :
  filepath.rooted p = filepath.rooted root ->
  filepath.comps p = filepath.comps root ++ rest ->
  forallb (fun e => negb (e =? "..")) rest = true ->
  containedb root p = true.
Proof.
  intros Hr Hc Hf. unfold containedb.
  rewrite Hr, Hc, eqb_reflx, isPrefix_app, skipn_app_exact, Hf. reflexivity.
Qed.

(** [filepath.Join] of elements that came out of [strings.Split]. *)
Lemma Join_elems (l : list string) :
  Forall (fun e => strings.noSep e = true) l ->
  Forall (fun e => e <> "..") l ->
  containedb "" (filepath.Join l) = true.
Proof.
  induction l as [|e l IH]; intros Hs Hd; [reflexivity|].
  inversion Hs as [|? ? He Hl]; subst. inversion Hd; subst.
  cbn [filepath.Join]. destruct (e =? "") eqn:E; [now apply IH|].
  apply String.eqb_neq in E.
  destruct (Clean_state (strings.Join (e :: l))) as [Hst Hr].
  destruct (Join_head e l E) as [_ Hj].
  destruct (fold_extends (filepath.rooted (strings.Join (e :: l))) (e :: l) [] 0 Hd)
    as [rest [Hf Hb]].
  apply contained_extends with rest.
  - rewrite Hr, Hj. destruct e as [|c e]; [congruence|].
    simpl in He |- *. apply andb_true_iff in He as [He _].
    now apply negb_true_iff in He.
  - unfold filepath.comps. rewrite Hst. unfold filepath.cleanState.
    rewrite Split_Join by (assumption || discriminate).
    exact Hf.
  - exact Hb.
Qed.


(** C4, amended: for every [RootPath] and every client path none of whose
    elements is [..], [realPath] is a physical path lexically at or below
    [RootPath]. (The driver does not look at [..] itself; the connection
    cleans virtual paths before it calls the driver.) *)
Theorem realPath_contained_without_dotdot (f : FileDriver) (path : string) :
  Forall (fun e => e <> "..") (strings.Split path) ->
  containedb (RootPath f) (realPath f path) = true.
Proof.
  intros Hd. unfold realPath. cbn [filepath.Join].
  destruct (RootPath f =? "") eqn:E.
  - apply String.eqb_eq in E. rewrite E.
    apply Join_elems; [apply Split_noSep|assumption].
  - apply String.eqb_neq in E.
    destruct (strings.Split path) as [|x xs] eqn:Es; [now apply Split_nonempty in Es|].
    rewrite Join_cons, <- Es, Join_Split.
    set (y := (RootPath f ++ "/" ++ path)%string).
    destruct (Clean_state y) as [Hst Hr].
    assert (Hy : filepath.rooted y = filepath.rooted (RootPath f))
      by (now apply rooted_app).
    destruct (filepath.cleanState (RootPath f)) as [out dd] eqn:Eo.
    destruct (fold_extends (filepath.rooted (RootPath f)) (strings.Split path) out dd)
      as [rest [Hf Hb]]; [now rewrite Es|].
    apply contained_extends with rest.
    + now rewrite Hr.
    + unfold filepath.comps. rewrite Hst, Eo.
      unfold filepath.cleanState. rewrite Hy. unfold y.
      rewrite Split_app, fold_left_app.
      change (fold_left (filepath.cleanElem (filepath.rooted (RootPath f)))
                (strings.Split (RootPath f)) ([], 0))
        with (filepath.cleanState (RootPath f)).
      rewrite Eo. exact Hf.
    + exact Hb.
Qed.

Lemma realPath_contained_witness :
  containedb "/srv" (realPath sampleDriver "/a/x") = true.
Proof.
  apply (realPath_contained_without_dotdot sampleDriver "/a/x").
  simpl. repeat constructor; discriminate.
Defined.

(** C4 as stated fails: the elements [..] of a client path climb out of
    the root. *)
Lemma realPath_escapes_root :
  realPath sampleDriver "/../x" = "/x"
  /\ containedb (RootPath sampleDriver) (realPath sampleDriver "/../x") = false.
Proof. split; reflexivity. Qed.

(** ** Directory entries *)

Lemma assoc_replace k v es :
  os.assoc k es <> None -> os.assoc k (os.replace k v es) = Some v.
Proof.
  induction es as [|[k' v'] es IH]; simpl; [congruence|].
  destruct (k' =? k) eqn:E; simpl.
  - now rewrite String.eqb_refl.
  - now rewrite E.
Qed.

Lemma assoc_insert k v es :
  os.assoc k es = None -> os.assoc k (os.insert k v es) = Some v.
Proof.
  induction es as [|[k' v'] es IH]; simpl.
  - now rewrite String.eqb_refl.
  - destruct (k' =? k) eqn:E; [discriminate|]. intros H.
    destruct (String.ltb k k'); simpl.
    + now rewrite String.eqb_refl.
    + rewrite E. auto.
Qed.

Lemma assoc_set k v es : os.assoc k (os.set k v es) = Some v.
Proof.
  unfold os.set. destruct (os.assoc k es) eqn:E.
  - apply assoc_replace. congruence.
  - now apply assoc_insert.
Qed.

Lemma replace_same k v es : os.assoc k es = Some v -> os.replace k v es = es.
Proof.
  induction es as [|[k' v'] es IH]; simpl; [reflexivity|].
  destruct (k' =? k) eqn:E.
  - apply String.eqb_eq in E. intros [= ->]. now subst.
  - intros H. now rewrite IH.
Qed.

Lemma set_same k v es : os.assoc k es = Some v -> os.set k v es = es.
Proof. intros H. unfold os.set. rewrite H. now apply replace_same. Qed.

Lemma assoc_del k es : os.assoc k (os.del k es) = None.
Proof.
  induction es as [|[k' v'] es IH]; simpl; [reflexivity|].
  destruct (k' =? k) eqn:E; simpl; [assumption|now rewrite E].
Qed.

(** ** Changing one entry of the tree *)

Lemma find_cons_dir c rest es :
  os.find (os.Dir es) (c :: rest)
  = match os.assoc c es with
    | Some child => os.find child rest
    | None => inl ENOENT
    end.
Proof. reflexivity. Qed.

Lemma alter_last f c es :
  os.alter f [c] (os.Dir es)
  = match f (os.assoc c es) with
    | inl e => inl e
    | inr (Some v) => inr (os.Dir (os.set c v es))
    | inr None => inr (os.Dir (os.del c es))
    end.
Proof. reflexivity. Qed.

Lemma alter_cons f c c2 rest es :
  os.alter f (c :: c2 :: rest) (os.Dir es)
  = match os.assoc c es with
    | None => inl ENOENT
    | Some child =>
        match os.alter f (c2 :: rest) child with
        | inl e => inl e
        | inr child' => inr (os.Dir (os.set c child' es))
        end
    end.
Proof. reflexivity. Qed.

Lemma alter_spec f cs : forall t o',
  parentIsDir t cs = true ->
  f (findo t cs) = inr o' ->
  exists t', os.alter f cs t = inr t' /\ findo t' cs = o'
             /\ parentIsDir t' cs = true.
Proof.
  induction cs as [|c rest IH]; intros t o' Hp Hf; [discriminate|].
  destruct t as [d|es]; [now destruct rest|].
  destruct rest as [|c2 rest].
  - unfold findo in Hf. rewrite find_cons_dir in Hf. rewrite alter_last.
    assert (E : f (os.assoc c es) = inr o').
    { destruct (os.assoc c es); exact Hf. }
    rewrite E. destruct o' as [v|].
    + eexists. split; [reflexivity|]. split; [|reflexivity].
      unfold findo. rewrite find_cons_dir, assoc_set. reflexivity.
    + eexists. split; [reflexivity|]. split; [|reflexivity].
      unfold findo. rewrite find_cons_dir, assoc_del. reflexivity.
  - cbn [parentIsDir] in Hp. rewrite alter_cons.
    destruct (os.assoc c es) as [child|] eqn:Ea; [|discriminate].
    unfold findo in Hf. rewrite find_cons_dir, Ea in Hf.
    destruct (IH child o' Hp Hf) as (child' & H1 & H2 & H3).
    rewrite H1. eexists. split; [reflexivity|].
    unfold findo. rewrite find_cons_dir. cbn [parentIsDir].
    rewrite assoc_set. auto.
Qed.

Lemma alter_same f cs : forall t n,
  os.find t cs = inr n -> f (Some n) = inr (Some n) -> os.alter f cs t = inr t.
Proof.
  induction cs as [|c rest IH]; intros t n Hfind Hf.
  - simpl in *. injection Hfind as ->. now rewrite Hf.
  - destruct t as [d|es]; [discriminate|].
    rewrite find_cons_dir in Hfind.
    destruct (os.assoc c es) as [child|] eqn:Ea; [|discriminate].
    destruct rest as [|c2 rest].
    + simpl in Hfind. injection Hfind as ->. rewrite alter_last, Ea, Hf.
      now rewrite set_same.
    + rewrite alter_cons, Ea, (IH child n Hfind Hf). now rewrite set_same.
Qed.

Lemma find_parentIsDir cs : forall t e,
  parentIsDir t cs = true -> os.find t cs = inl e -> e = ENOENT.
Proof.
  induction cs as [|c rest IH]; intros t e Hp Hf; [discriminate|].
  destruct t as [d|es]; [now destruct rest|].
  rewrite find_cons_dir in Hf. destruct rest as [|c2 rest].
  - destruct (os.assoc c es); [discriminate|congruence].
  - cbn [parentIsDir] in Hp. destruct (os.assoc c es) as [child|]; [|discriminate].
    eauto.
Qed.

Lemma find_some_parentIsDir cs : forall t n,
  cs <> [] -> os.find t cs = inr n -> parentIsDir t cs = true.
Proof.
  induction cs as [|c rest IH]; intros t n Hne Hf; [congruence|].
  destruct t as [d|es]; [discriminate|].
  rewrite find_cons_dir in Hf. destruct rest as [|c2 rest]; [reflexivity|].
  cbn [parentIsDir]. destruct (os.assoc c es) as [child|]; [|discriminate].
  eapply IH; [discriminate|eassumption].
Qed.

Lemma resolve_wd fs t name :
  os.resolve {| os.tree := t; os.wd := os.wd fs |} name = os.resolve fs name.
Proof. reflexivity. Qed.

Lemma update_spec op f fs name cs o' :
  os.resolve fs name = Some cs ->
  parentIsDir (os.tree fs) cs = true ->
  f (findo (os.tree fs) cs) = inr o' ->
  exists t', os.update op f fs name = ({| os.tree := t'; os.wd := os.wd fs |}, None)
             /\ findo t' cs = o' /\ parentIsDir t' cs = true.
Proof.
  intros Hr Hp Hf. unfold os.update. rewrite Hr.
  destruct (alter_spec f cs _ _ Hp Hf) as (t' & H1 & H2 & H3).
  rewrite H1. eauto.
Qed.

Lemma update_same op f fs name n :
  os.lookup fs name = inr n -> f (Some n) = inr (Some n) ->
  os.update op f fs name = (fs, None).
Proof.
  unfold os.lookup, os.update. destruct (os.resolve fs name) as [cs|]; [|discriminate].
  intros Hfind Hf. rewrite (alter_same f cs _ n Hfind Hf). now destruct fs.
Qed.

(** ** [GetFile] *)


(** C3: for every existing regular file with content [c] and every offset
    [n] with [0 <= n <= length c], [GetFile] succeeds, returns the full
    size of the file, and a reader whose remaining bytes are the suffix of
    [c] from offset [n] on. *)
Theorem GetFile_from_offset (f : FileDriver) (fs : os.FS) (path : string)
        (c : list byte) (n : Z) :
  os.lookup fs (realPath f path) = inr (os.File c) ->
  (0 <= n <= Z.of_nat (List.length c))%Z ->
  exists r,
    GetFile f fs path n = (fs, inr (Z.of_nat (List.length c), r))
    /\ os.ReadAll fs r = inr (skipn (Z.to_nat n) c).
Proof.
  intros Hl Hn. unfold GetFile, bind, ret, os.Open, os.OpenFile.
  rewrite (update_same _ _ _ _ _ Hl) by reflexivity.
  unfold os.Stat. cbn [os.f_name]. rewrite Hl. cbn [os.statOf os.Size].
  unfold os.Seek. cbn [os.f_name os.f_pos os.f_flag].
  change (os.SeekStart =? os.SeekEnd)%Z with false. cbn iota.
  destruct (0 + n <? 0)%Z eqn:E; [apply Z.ltb_lt in E; lia|].
  eexists. split; [reflexivity|].
  unfold os.ReadAll. cbn [fst os.f_name os.f_pos]. rewrite Hl.
  now rewrite Z.add_0_l.
Qed.

Lemma GetFile_from_offset_witness :
  exists r,
    GetFile sampleDriver sampleFS "/b.txt" 1 = (sampleFS, inr (2%Z, r))
    /\ os.ReadAll sampleFS r = inr [x62].
Proof.
  apply (GetFile_from_offset sampleDriver sampleFS "/b.txt" [x61; x62] 1);
    [reflexivity | simpl; lia].
Defined.

(** ** [Stat] *)


(** C9: [Stat] returns an error whenever [GetMode], [GetOwner] or
    [GetGroup] fails for the path, whether or not the file exists; it
    succeeds exactly when the file exists and all three calls succeed. *)
Theorem Stat_needs_the_permission_oracle (f : FileDriver) (fs : os.FS) (path : string) :
  ((exists e, GetMode (perm f) path = inl e)
   \/ (exists e, GetOwner (perm f) path = inl e)
   \/ (exists e, GetGroup (perm f) path = inl e) ->
   exists e, Stat f fs path = inl e)
  /\ ((exists fi, Stat f fs path = inr fi) <->
      (exists r, os.Lstat fs (filepath.Abs (os.Getwd fs) (realPath f path)) = inr r)
      /\ (exists m, GetMode (perm f) path = inr m)
      /\ (exists o, GetOwner (perm f) path = inr o)
      /\ (exists g, GetGroup (perm f) path = inr g)).
Proof.
  unfold Stat.
  set (rPath := filepath.Abs (os.Getwd fs) (realPath f path)).
  split; [|split].
  - intros H. destruct (os.Lstat fs rPath); [eauto|].
    destruct (GetMode (perm f) path); [eauto|].
    destruct (GetOwner (perm f) path); [eauto|].
    destruct (GetGroup (perm f) path); [eauto|].
    destruct H as [[e E]|[[e E]|[e E]]]; discriminate.
  - intros [fi E]. destruct (os.Lstat fs rPath); [discriminate|].
    destruct (GetMode (perm f) path); [discriminate|].
    destruct (GetOwner (perm f) path); [discriminate|].
    destruct (GetGroup (perm f) path); [discriminate|].
    repeat split; eauto.
  - intros ([r E1] & [m E2] & [o E3] & [g E4]).
    rewrite E1, E2, E3, E4. eauto.
Qed.

Lemma Stat_needs_the_permission_oracle_witness :
  (exists r, os.Lstat sampleFS
               (filepath.Abs (os.Getwd sampleFS) (realPath strictDriver "/b.txt"))
             = inr r)
  /\ exists e, Stat strictDriver sampleFS "/b.txt" = inl e.
Proof.
  split; [eexists; reflexivity|].
  apply (proj1 (Stat_needs_the_permission_oracle strictDriver sampleFS "/b.txt")).
  left. eexists. reflexivity.
Defined.

Lemma findo_Some t cs n : findo t cs = Some n <-> os.find t cs = inr n.
Proof.
  unfold findo. destruct (os.find t cs); split; congruence.
Qed.

Lemma writeAt_fresh (d : list byte) : os.writeAt [] 0 d = d.
Proof.
  unfold os.writeAt. simpl. rewrite skipn_nil. now rewrite app_nil_r.
Qed.

Lemma writeAt_end (old d : list byte) :
  os.writeAt old (List.length old) d = old ++ d.
Proof.
  unfold os.writeAt. rewrite Nat.sub_diag. simpl. rewrite app_nil_r, firstn_all.
  rewrite skipn_all2 by lia. now rewrite app_nil_r.
Qed.

Section Calls.

Variables (fs : os.FS) (name : string) (cs : list string).
Hypothesis Hres : os.resolve fs name = Some cs.
Hypothesis Hpar : parentIsDir (os.tree fs) cs = true.

Lemma Create_spec :
  (forall es, findo (os.tree fs) cs <> Some (os.Dir es)) ->
  exists t' flag,
    os.Create fs name
    = ({| os.tree := t'; os.wd := os.wd fs |},
       inr {| os.f_name := name; os.f_pos := 0; os.f_flag := flag |})
    /\ os.has flag os.O_APPEND = false
    /\ findo t' cs = Some (os.File [])
    /\ parentIsDir t' cs = true.
Proof.
  intros Hnd. unfold os.Create, os.OpenFile.
  match goal with |- context [os.update ?op ?f fs name] =>
    destruct (update_spec op f fs name cs (Some (os.File [])) Hres Hpar)
      as (t' & H1 & H2 & H3)
  end.
  { destruct (findo (os.tree fs) cs) as [[old|es]|]; try reflexivity.
    now elim (Hnd es). }
  rewrite H1. exists t'. eexists. split; [reflexivity|]. auto.
Qed.

Lemma Remove_file_spec (old : list byte) :
  findo (os.tree fs) cs = Some (os.File old) ->
  exists t',
    os.Remove fs name = ({| os.tree := t'; os.wd := os.wd fs |}, None)
    /\ findo t' cs = None
    /\ parentIsDir t' cs = true.
Proof.
  intros Hf. unfold os.Remove.
  apply update_spec; [assumption|assumption|]. now rewrite Hf.
Qed.

Lemma OpenFile_append_spec (old : list byte) :
  findo (os.tree fs) cs = Some (os.File old) ->
  os.OpenFile fs name (Z.lor os.O_APPEND os.O_RDWR)
  = (fs, inr {| os.f_name := name; os.f_pos := 0;
                os.f_flag := Z.lor os.O_APPEND os.O_RDWR |}).
Proof.
  intros Hf. unfold os.OpenFile.
  rewrite (update_same _ _ fs name (os.File old)); [reflexivity| |reflexivity].
  unfold os.lookup. rewrite Hres. now apply findo_Some.
Qed.

Lemma Write_spec (h : os.file) (old d : list byte) :
  os.f_name h = name ->
  findo (os.tree fs) cs = Some (os.File old) ->
  exists t',
    os.Write fs h d
    = ({| os.tree := t'; os.wd := os.wd fs |}, inr (Z.of_nat (List.length d)))
    /\ findo t' cs
       = Some (os.File (os.writeAt old
                          (if os.has (os.f_flag h) os.O_APPEND
                           then List.length old else Z.to_nat (os.f_pos h)) d))
    /\ parentIsDir t' cs = true.
Proof.
  intros Hn Hf. unfold os.Write. rewrite Hn.
  match goal with |- context [os.update ?op ?f fs name] =>
    destruct (update_spec op f fs name cs
                (Some (os.File (os.writeAt old
                          (if os.has (os.f_flag h) os.O_APPEND
                           then List.length old else Z.to_nat (os.f_pos h)) d)))
                Hres Hpar)
      as (t' & H1 & H2 & H3)
  end.
  { now rewrite Hf. }
  rewrite H1. eauto.
Qed.

End Calls.


(** C2, amended: for every destination whose physical path is not empty,
    is not an existing directory and has an existing parent directory, and
    for every byte sequence [d]: [PutFile] without [appendData] leaves the
    file holding exactly [d]; with [appendData] it leaves the old content
    followed by [d] when the file existed and exactly [d] when it did not;
    the returned count is the length of [d]. *)
Theorem PutFile_with_parent (f : FileDriver) (fs : os.FS) (destPath : string)
        (d : list byte) (appendData : bool) (cs : list string) :
  os.resolve fs (realPath f destPath) = Some cs ->
  parentIsDir (os.tree fs) cs = true ->
  (forall es, os.lookup fs (realPath f destPath) <> inr (os.Dir es)) ->
  exists fs',
    PutFile f fs destPath d appendData = (fs', inr (Z.of_nat (List.length d)))
    /\ os.lookup fs' (realPath f destPath)
       = inr (os.File (newContent (os.lookup fs (realPath f destPath)) d appendData)).
Proof.
  intros Hres Hpar Hnd. unfold PutFile.
  set (rPath := realPath f destPath) in *.
  assert (Hlk : forall t', os.lookup {| os.tree := t'; os.wd := os.wd fs |} rPath
                           = os.find t' cs).
  { intros t'. unfold os.lookup. rewrite resolve_wd, Hres. reflexivity. }
  assert (Hlk0 : os.lookup fs rPath = os.find (os.tree fs) cs).
  { unfold os.lookup. now rewrite Hres. }
  unfold os.Lstat. rewrite Hlk0 in Hnd |- *.
  destruct (os.find (os.tree fs) cs) as [e|[old|es]] eqn:Hfind;
    [| |now elim (Hnd es)].
  - (* the destination does not exist *)
    rewrite (find_parentIsDir cs _ e Hpar Hfind). cbn [os.IsNotExist].
    rewrite andb_true_r.
    assert (E : (if appendData then false else appendData) = false)
      by (now destruct appendData).
    rewrite E. cbn [negb]. unfold bind, ret.
    destruct (Create_spec fs rPath cs Hres Hpar) as (t1 & flag & H1 & Hfl & H2 & H3).
    { unfold findo. rewrite Hfind. discriminate. }
    rewrite H1. unfold io.Copy.
    cbn [os.wd] in *.
    destruct (Write_spec {| os.tree := t1; os.wd := os.wd fs |} rPath cs)
      with (h := {| os.f_name := rPath; os.f_pos := 0; os.f_flag := flag |})
           (old := @nil byte) (d := d)
      as (t2 & H4 & H5 & _);
      [now rewrite resolve_wd|assumption|reflexivity|assumption|].
    rewrite H4. eexists. split; [reflexivity|].
    cbn [os.wd] in *. rewrite Hlk. apply findo_Some. rewrite H5.
    cbn [os.f_flag os.f_pos]. rewrite Hfl. simpl Z.to_nat.
    now rewrite writeAt_fresh.
  - (* the destination is a regular file *)
    cbn [os.statOf os.IsDir]. cbn [negb]. rewrite andb_false_r.
    assert (Hfo : findo (os.tree fs) cs = Some (os.File old))
      by (now apply findo_Some).
    destruct appendData; cbn [negb newContent]; unfold bind, ret, check.
    + rewrite (OpenFile_append_spec fs rPath cs Hres old Hfo).
      unfold os.Seek, os.Stat. cbn [os.f_name os.f_pos os.f_flag].
      rewrite Hlk0. cbn [os.statOf os.Size].
      change (os.SeekEnd =? os.SeekEnd)%Z with true. cbn iota.
      destruct (Z.of_nat (List.length old) + 0 <? 0)%Z eqn:E;
        [apply Z.ltb_lt in E; lia|].
      unfold io.Copy.
      destruct (Write_spec fs rPath cs Hres Hpar
                  {| os.f_name := rPath;
                     os.f_pos := Z.of_nat (List.length old) + 0;
                     os.f_flag := Z.lor os.O_APPEND os.O_RDWR |} old d
                  eq_refl Hfo) as (t2 & H4 & H5 & _).
      rewrite H4. eexists. split; [reflexivity|].
      rewrite Hlk. apply findo_Some. rewrite H5.
      cbn [os.f_flag]. change (os.has (Z.lor os.O_APPEND os.O_RDWR) os.O_APPEND) with true.
      cbn iota. now rewrite writeAt_end.
    + destruct (Remove_file_spec fs rPath cs Hres Hpar old Hfo) as (t0 & H0 & H01 & H02).
      rewrite H0.
      destruct (Create_spec {| os.tree := t0; os.wd := os.wd fs |} rPath cs)
        as (t1 & flag & H1 & Hfl & H2 & H3);
        [now rewrite resolve_wd|assumption| |].
      { cbn [os.tree]. rewrite H01. discriminate. }
      rewrite H1. unfold io.Copy. cbn [os.wd] in *.
      destruct (Write_spec {| os.tree := t1; os.wd := os.wd fs |} rPath cs)
        with (h := {| os.f_name := rPath; os.f_pos := 0; os.f_flag := flag |})
             (old := @nil byte) (d := d)
        as (t2 & H4 & H5 & _);
        [now rewrite resolve_wd|assumption|reflexivity|assumption|].
      rewrite H4. eexists. split; [reflexivity|].
      cbn [os.wd] in *. rewrite Hlk. apply findo_Some. rewrite H5.
      cbn [os.f_flag os.f_pos]. rewrite Hfl. simpl Z.to_nat.
      now rewrite writeAt_fresh.
Qed.

Lemma PutFile_with_parent_witness :
  exists fs',
    PutFile sampleDriver sampleFS "/b.txt" [x63] true = (fs', inr 1%Z)
    /\ os.lookup fs' (realPath sampleDriver "/b.txt")
       = inr (os.File [x61; x62; x63]).
Proof.
  apply (PutFile_with_parent sampleDriver sampleFS "/b.txt" [x63] true
           ["srv"; "b.txt"]);
    [reflexivity | reflexivity | intros es; vm_compute; discriminate].
Defined.

(** C2 as stated fails: a destination that is not an existing directory,
    but whose parent directory is missing, is not written. *)
Lemma PutFile_fails_without_parent :
  os.lookup sampleFS (realPath sampleDriver "/q/c") = inl ENOENT
  /\ PutFile sampleDriver sampleFS "/q/c" [x63] false
     = (sampleFS, inl (PathError "open" "/srv/q/c" ENOENT))
  /\ os.lookup (fst (PutFile sampleDriver sampleFS "/q/c" [x63] false))
       (realPath sampleDriver "/q/c") = inl ENOENT.
Proof. repeat split. Qed.

(** ** [MkdirAll] *)

Lemma mkdirAll_cons c rest es :
  os.mkdirAll (c :: rest) (os.Dir es)
  = match os.mkdirAll rest (match os.assoc c es with
                            | Some ch => ch
                            | None => os.Dir []
                            end) with
    | inl e => inl e
    | inr child' => inr (os.Dir (os.set c child' es))
    end.
Proof. reflexivity. Qed.

Lemma mkdirAll_nil t :
  os.mkdirAll [] t = match t with
                     | os.File _ => inl ENOTDIR
                     | os.Dir _ => inr t
                     end.
Proof. now destruct t. Qed.

Lemma mkdirAll_file cs d : os.mkdirAll cs (os.File d) = inl ENOTDIR.
Proof. now destruct cs. Qed.

Lemma noFileOnPath_empty cs : noFileOnPath (os.Dir []) cs = true.
Proof. now destruct cs. Qed.

Lemma mkdirAll_ok cs : forall t,
  noFileOnPath t cs = true -> exists t', os.mkdirAll cs t = inr t'.
Proof.
  induction cs as [|c rest IH]; intros t H.
  - destruct t; [discriminate|]. rewrite mkdirAll_nil. eauto.
  - destruct t as [d|es]; [discriminate|]. rewrite mkdirAll_cons.
    cbn [noFileOnPath] in H.
    destruct (os.assoc c es) as [child|].
    + destruct (IH child H) as [t' E]. rewrite E. eauto.
    + destruct (IH (os.Dir []) (noFileOnPath_empty rest)) as [t' E]. rewrite E. eauto.
Qed.


Lemma mkdirAll_prefixes cs : forall t t',
  os.mkdirAll cs t = inr t' ->
  forall k, exists es, os.find t' (firstn k cs) = inr (os.Dir es).
Proof.
  induction cs as [|c rest IH]; intros t t' H k.
  - rewrite firstn_nil. destruct t; [discriminate|]. rewrite mkdirAll_nil in H.
    injection H as <-. simpl. eauto.
  - destruct t as [d|es]; [discriminate|]. rewrite mkdirAll_cons in H.
    destruct (os.mkdirAll rest _) as [e|child'] eqn:E; [discriminate|].
    injection H as <-. destruct k as [|k]; [simpl; eauto|].
    rewrite firstn_cons, find_cons_dir, assoc_set. eapply IH, E.
Qed.

Lemma mkdirAll_idem cs : forall t t',
  os.mkdirAll cs t = inr t' -> os.mkdirAll cs t' = inr t'.
Proof.
  induction cs as [|c rest IH]; intros t t' H.
  - destruct t; [discriminate|]. rewrite mkdirAll_nil in H. now injection H as <-.
  - destruct t as [d|es]; [discriminate|]. rewrite mkdirAll_cons in H.
    destruct (os.mkdirAll rest _) as [e|child'] eqn:E; [discriminate|].
    injection H as <-. rewrite mkdirAll_cons, assoc_set, (IH _ _ E).
    now rewrite set_same by apply assoc_set.
Qed.

Lemma mkdirAll_existing cs : forall t es,
  os.find t cs = inr (os.Dir es) -> os.mkdirAll cs t = inr t.
Proof.
  induction cs as [|c rest IH]; intros t es H.
  - simpl in H. injection H as ->. reflexivity.
  - destruct t as [d|es0]; [discriminate|]. rewrite find_cons_dir in H.
    rewrite mkdirAll_cons.
    destruct (os.assoc c es0) as [child|] eqn:Ea; [|discriminate].
    rewrite (IH child es H). now rewrite set_same.
Qed.


(** C10, amended: running [MakeDir] twice is the same as running it once,
    for every path; on an existing directory it succeeds and changes
    nothing; and for every path whose physical path is not empty and on
    which no regular file lies, it succeeds and afterwards every prefix of
    the path is a directory. *)
Theorem MakeDir_idempotent_and_parent_creating (f : FileDriver) (fs : os.FS)
        (path : string) :
  MakeDir f (fst (MakeDir f fs path)) path = MakeDir f fs path
  /\ (forall es, os.lookup fs (realPath f path) = inr (os.Dir es) ->
      MakeDir f fs path = (fs, None))
  /\ (forall cs,
      os.resolve fs (realPath f path) = Some cs ->
      noFileOnPath (os.tree fs) cs = true ->
      exists fs',
        MakeDir f fs path = (fs', None)
        /\ forall k, exists es,
             os.find (os.tree fs') (firstn k cs) = inr (os.Dir es)).
Proof.
  unfold MakeDir, os.MkdirAll, os.lookup.
  set (rPath := realPath f path).
  split; [|split].
  - destruct (os.resolve fs rPath) as [cs|] eqn:Hr; cbn [fst]; [|now rewrite Hr].
    destruct (os.mkdirAll cs (os.tree fs)) as [e|t'] eqn:E; cbn [fst].
    + now rewrite Hr, E.
    + rewrite resolve_wd, Hr. cbn [os.tree os.wd]. now rewrite (mkdirAll_idem _ _ _ E).
  - intros es. destruct (os.resolve fs rPath) as [cs|]; [|discriminate].
    intros H. rewrite (mkdirAll_existing _ _ _ H). now destruct fs.
  - intros cs Hr Hn. rewrite Hr.
    destruct (mkdirAll_ok cs _ Hn) as [t' E]. rewrite E.
    eexists. split; [reflexivity|]. cbn [os.tree].
    now apply mkdirAll_prefixes with (os.tree fs).
Qed.

Lemma MakeDir_witness :
  exists fs',
    MakeDir sampleDriver sampleFS "/q/r" = (fs', None)
    /\ forall k, exists es,
         os.find (os.tree fs') (firstn k ["srv"; "q"; "r"]) = inr (os.Dir es).
Proof.
  apply (proj2 (proj2 (MakeDir_idempotent_and_parent_creating
                         sampleDriver sampleFS "/q/r")) ["srv"; "q"; "r"]);
    reflexivity.
Defined.

(** C10 as stated fails: [MakeDir] does not succeed for every path; a
    regular file at the path or on the way to it makes it fail. *)
Lemma MakeDir_fails_at_a_file :
  MakeDir sampleDriver sampleFS "/b.txt"
  = (sampleFS, Some (PathError "mkdir" "/srv/b.txt" ENOTDIR))
  /\ MakeDir sampleDriver sampleFS "/b.txt/r"
     = (sampleFS, Some (PathError "mkdir" "/srv/b.txt/r" ENOTDIR)).
Proof. split; reflexivity. Qed.



Lemma walk_dir {St} (fn : WalkFunc St) path es s :
  walk fn path (os.Dir es) s
  = let '(s1, err1) := fn path (Visited (os.statOf path (os.Dir es))) s in
    match err1 with
    | Some e => (s1, Some e)
    | None => walkEntries fn path es s1
    end.
Proof. reflexivity. Qed.

Lemma walk_file {St} (fn : WalkFunc St) path d s :
  walk fn path (os.File d) s = fn path (Visited (os.statOf path (os.File d))) s.
Proof. reflexivity. Qed.

Lemma walkEntries_cons {St} (fn : WalkFunc St) path name child rest s :
  walkEntries fn path ((name, child) :: rest) s
  = let '(s', err) := walk fn (filepath.Join [path; name]) child s in
    match err with
    | None => walkEntries fn path rest s'
    | Some e =>
        if nodeIsDir child && isSkipDir e then walkEntries fn path rest s'
        else (s', Some e)
    end.
Proof. reflexivity. Qed.

(** *** [os.basename] *)

Lemma allSep_noSep e : e <> "" -> strings.noSep e = true -> os.allSep e = false.
Proof.
  destruct e as [|c e]; [congruence|]. simpl. intros _ H.
  apply andb_true_iff in H as [H _]. apply negb_true_iff in H. now rewrite H.
Qed.

Lemma allSep_app a e : os.allSep e = false -> os.allSep (a ++ e)%string = false.
Proof.
  intros H. induction a as [|c a IH]; simpl; [assumption|].
  rewrite IH. apply andb_false_r.
Qed.

Lemma strip_noSep e : strings.noSep e = true -> os.stripTrailingSep e = e.
Proof.
  induction e as [|c e IH]; simpl; [reflexivity|]. intros H.
  apply andb_true_iff in H as [_ H].
  destruct e as [|c' e]; [reflexivity|].
  rewrite allSep_noSep by (assumption || discriminate). now rewrite IH.
Qed.

Lemma strip_app a e :
  e <> "" -> strings.noSep e = true -> os.stripTrailingSep (a ++ e)%string = (a ++ e)%string.
Proof.
  intros He Hs. induction a as [|c a IH]; simpl; [now apply strip_noSep|].
  rewrite allSep_app by (now apply allSep_noSep). now rewrite IH.
Qed.

Lemma basename_plain e :
  e <> "" -> strings.noSep e = true -> os.basename e = e.
Proof.
  intros He Hs. unfold os.basename. rewrite strip_noSep by assumption.
  destruct (e =? "/") eqn:E.
  - apply String.eqb_eq in E. subst. discriminate.
  - now rewrite Split_of_noSep.
Qed.

Lemma basename_slash a e :
  e <> "" -> strings.noSep e = true -> os.basename (a ++ "/" ++ e)%string = e.
Proof.
  intros He Hs. unfold os.basename.
  replace (os.stripTrailingSep (a ++ "/" ++ e)%string) with (a ++ "/" ++ e)%string.
  2:{ symmetry. rewrite <- (append_assoc a "/" e). apply strip_app; assumption. }
  destruct ((a ++ "/" ++ e)%string =? "/") eqn:E.
  - apply String.eqb_eq in E. destruct a as [|c a]; simpl in E.
    + injection E as E. congruence.
    + injection E as _ E. destruct a; discriminate.
  - rewrite Split_app, (Split_of_noSep e Hs). apply last_last.
Qed.

Lemma Join_snoc (out : list string) (e : string) :
  out <> [] -> strings.Join (out ++ [e]) = (strings.Join out ++ "/" ++ e)%string.
Proof.
  induction out as [|x out IH]; [congruence|]. intros _.
  destruct out as [|y out].
  - reflexivity.
  - simpl app in IH |- *. rewrite Join_cons, IH by discriminate.
    rewrite Join_cons, append_assoc. reflexivity.
Qed.

Lemma basename_render_snoc r out e :
  e <> "" -> strings.noSep e = true ->
  os.basename (filepath.render r (out ++ [e])) = e.
Proof.
  intros He Hs. unfold filepath.render. destruct out as [|x out].
  - destruct r; simpl.
    + now apply (basename_slash "" e).
    + now apply basename_plain.
  - rewrite Join_snoc by discriminate.
    destruct r.
    + exact (basename_slash ("/" ++ strings.Join (x :: out)) e He Hs).
    + destruct ((x :: out) ++ [e]) eqn:Ex; [discriminate|]. now apply basename_slash.
Qed.

Lemma inv_elems r out dd :
  cleanInv r (out, dd) ->
  Forall (fun e => e <> "" /\ e <> "." /\ strings.noSep e = true) out.
Proof.
  intros [names (Hout & Hn & _)]. simpl in *. subst out.
  apply Forall_app. split.
  - apply Forall_forall. intros x Hx. apply repeat_spec in Hx. subst.
    repeat split; discriminate.
  - eapply Forall_impl; [|exact Hn]. intros a Ha.
    apply isName_spec in Ha as (H1 & H2 & _ & H4).
    apply String.eqb_neq in H1, H2. auto.
Qed.

Lemma basename_cleaned r out dd :
  cleanInv r (out, dd) ->
  filepath.render r out <> "." -> os.basename (filepath.render r out) <> ".".
Proof.
  intros H Hne. destruct out as [|x out] using rev_ind.
  - destruct r; [discriminate|]. now elim Hne.
  - clear IHout. apply inv_elems in H. apply Forall_app in H as [_ H].
    inversion H as [|? ? (H1 & H2 & H3) _]; subst.
    now rewrite basename_render_snoc.
Qed.

(** *** [filepath.Rel] from a directory to one of its entries *)

Lemma stripCommon_app (l t : list string) : filepath.stripCommon l (l ++ t) = ([], t).
Proof.
  induction l as [|x l IH]; simpl.
  - now destruct t.
  - now rewrite String.eqb_refl.
Qed.

Lemma elems_Join (l : list string) :
  l <> [] ->
  Forall (fun e => e <> "" /\ e <> "." /\ strings.noSep e = true) l ->
  filepath.elems (strings.Join l) = l
  /\ filepath.elems ("/" ++ strings.Join l)%string = "" :: l.
Proof.
  intros Hne H. destruct l as [|x l]; [congruence|].
  inversion H as [|? ? (H1 & H2 & H3) Hl]; subst.
  destruct (Join_head x l H1) as [Hj Hr].
  assert (Hs : Forall (fun e => strings.noSep e = true) (x :: l)).
  { eapply Forall_impl; [|exact H]. now intros a (_ & _ & Ha). }
  assert (Hx : filepath.rooted x = false).
  { destruct x as [|c x]; [congruence|]. simpl in *.
    apply andb_true_iff in H3 as [H3 _]. now apply negb_true_iff in H3. }
  unfold filepath.elems. split.
  - apply String.eqb_neq in Hj. rewrite Hj.
    destruct (strings.Join (x :: l) =? "/") eqn:E.
    + apply String.eqb_eq in E. rewrite E in Hr. simpl in Hr. congruence.
    + now apply Split_Join.
  - simpl (_ =? ""). cbv iota.
    destruct (("/" ++ strings.Join (x :: l))%string =? "/") eqn:E.
    + apply String.eqb_eq in E. simpl in E. injection E as E. congruence.
    + change ("/" ++ strings.Join (x :: l))%string
        with ("" ++ "/" ++ strings.Join (x :: l))%string.
      rewrite Split_app, Split_Join by (assumption || discriminate). reflexivity.
Qed.

Lemma Join_not_dot (l : list string) :
  l <> [] ->
  Forall (fun e => e <> "" /\ e <> "." /\ strings.noSep e = true) l ->
  strings.Join l <> ".".
Proof.
  intros Hne H E. destruct (elems_Join l Hne H) as [He _].
  rewrite E in He. compute in He. subst l.
  inversion H as [|? ? (_ & H2 & _) _]. congruence.
Qed.

Lemma render_inj r out dd out' dd' :
  cleanInv r (out, dd) -> cleanInv r (out', dd') ->
  filepath.render r out = filepath.render r out' -> out = out'.
Proof.
  intros H H' E. apply cleanState_render in H, H'. rewrite E in H. congruence.
Qed.

Section Entry.

Variables (r : bool) (out : list string) (dd : nat) (name : string).
Hypothesis Hinv : cleanInv r (out, dd).
Hypothesis Hname : isName name = true.

Let base := filepath.render r out.
Let filename := filepath.render r (out ++ [name]).

Lemma Join_entry : filepath.Join [base; name] = filename.
Proof.
  cbn [filepath.Join]. destruct (render_nonempty _ _ _ Hinv) as [Hne _].
  apply String.eqb_neq in Hne. fold base in Hne. rewrite Hne.
  rewrite Join_cons. change (strings.Join [name]) with name.
  now apply Clean_push with dd.
Qed.

Lemma elems_entry :
  filepath.elems filename
  = filepath.elems (if base =? "." then "" else base) ++ [name].
Proof.
  pose proof (inv_elems _ _ _ Hinv) as He.
  pose proof (inv_elems _ _ _ (cleanInv_push _ _ _ _ Hinv Hname)) as He'.
  unfold base, filename, filepath.render.
  destruct out as [|x xs].
  - destruct r.
    + simpl app. destruct (elems_Join [name]) as [_ E]; [discriminate|assumption|].
      rewrite E. reflexivity.
    + simpl app. destruct (elems_Join [name]) as [E _]; [discriminate|assumption|].
      simpl (_ =? _). cbv iota. rewrite E. reflexivity.
  - destruct (elems_Join (x :: xs)) as [E1 E2]; [discriminate|assumption|].
    destruct (elems_Join ((x :: xs) ++ [name])) as [E3 E4]; [discriminate|assumption|].
    simpl app in *.
    destruct r.
    + rewrite E4.
      assert (Ed : (("/" ++ strings.Join (x :: xs))%string =? ".") = false)
        by reflexivity.
      change (String "/" (strings.Join (x :: xs)))
        with ("/" ++ strings.Join (x :: xs))%string.
      now rewrite Ed, E2.
    + pose proof (Join_not_dot (x :: xs)) as Hd.
      rewrite E3.
      destruct (strings.Join (x :: xs) =? ".") eqn:Ed.
      * apply String.eqb_eq in Ed. elim Hd; (assumption || discriminate).
      * now rewrite E1.
Qed.

Lemma Rel_entry : filepath.Rel base filename = Some name.
Proof.
  pose proof (cleanInv_push _ _ _ _ Hinv Hname) as Hinv'.
  pose proof elems_entry as He.
  destruct (render_nonempty _ _ _ Hinv) as [_ Hr].
  destruct (render_nonempty _ _ _ Hinv') as [_ Hr'].
  pose proof (Clean_render _ _ _ Hinv) as Hc.
  pose proof (Clean_render _ _ _ Hinv') as Hc'.
  assert (E : (filename =? base) = false).
  { apply String.eqb_neq. intros E.
    apply (render_inj _ _ _ _ _ Hinv' Hinv) in E.
    apply (f_equal (@List.length string)) in E. rewrite length_app in E.
    simpl in E. lia. }
  unfold base, filename in *. unfold filepath.Rel.
  rewrite Hc, Hc', E.
  assert (Hroot : filepath.rooted (if filepath.render r out =? "." then ""
                                   else filepath.render r out)
                  = filepath.rooted (filepath.render r (out ++ [name]))).
  { rewrite Hr'. destruct (filepath.render r out =? ".") eqn:Ed; [|assumption].
    apply String.eqb_eq in Ed. rewrite Ed in Hr. now rewrite <- Hr. }
  rewrite Hroot, eqb_reflx. cbn [negb].
  rewrite He, stripCommon_app. reflexivity.
Qed.

Lemma basename_entry : os.basename filename = name.
Proof.
  apply isName_spec in Hname as (H1 & _ & _ & H4). apply String.eqb_neq in H1.
  now apply basename_render_snoc.
Qed.

End Entry.

(** *** What [lstat] finds at an entry of a walked directory *)

Lemma fold_resolve_render r out dd start :
  cleanInv r (out, dd) ->
  fold_left os.resolveElem (strings.Split (filepath.render r out)) start
  = fold_left os.resolveElem out start.
Proof.
  intros H. pose proof (noSep_of_inv _ _ _ H) as Hs.
  unfold filepath.render. destruct r.
  - change ("/" ++ strings.Join out)%string with ("" ++ "/" ++ strings.Join out)%string.
    rewrite Split_app. destruct out as [|x xs]; [reflexivity|].
    now rewrite Split_Join by (assumption || discriminate).
  - destruct out as [|x xs]; [reflexivity|].
    now rewrite Split_Join by (assumption || discriminate).
Qed.

Lemma resolveElem_name acc n : isName n = true -> os.resolveElem acc n = acc ++ [n].
Proof.
  intros H. apply isName_spec in H as (H1 & H2 & H3 & _).
  unfold os.resolveElem. now rewrite H1, H2, H3.
Qed.

Lemma resolve_entry fs r out dd name cs :
  cleanInv r (out, dd) -> isName name = true ->
  os.resolve fs (filepath.render r out) = Some cs ->
  os.resolve fs (filepath.render r (out ++ [name])) = Some (cs ++ [name]).
Proof.
  intros H Hn. pose proof (cleanInv_push _ _ _ _ H Hn) as H'.
  destruct (render_nonempty _ _ _ H) as [Hne Hr].
  destruct (render_nonempty _ _ _ H') as [Hne' Hr'].
  unfold os.resolve. apply String.eqb_neq in Hne, Hne'.
  rewrite Hne, Hne', Hr, Hr'.
  rewrite (fold_resolve_render _ _ _ _ H), (fold_resolve_render _ _ _ _ H').
  intros [= <-]. rewrite fold_left_app. cbn [fold_left].
  now rewrite resolveElem_name.
Qed.

Lemma find_snoc cs : forall t es name,
  os.find t cs = inr (os.Dir es) ->
  os.find t (cs ++ [name])
  = match os.assoc name es with
    | Some child => inr child
    | None => inl ENOENT
    end.
Proof.
  induction cs as [|c cs IH]; intros t es name H.
  - simpl in H. injection H as ->. simpl. now destruct (os.assoc name es).
  - destruct t as [d|es0]; [discriminate|].
    simpl app. rewrite find_cons_dir in *.
    destruct (os.assoc c es0); [now apply IH|discriminate].
Qed.

(** In a directory reached by a cleaned path, [lstat] of the joined path
    of an entry finds the node of that entry. *)
Lemma lookup_entry fs base es name child :
  cleaned base ->
  os.lookup fs base = inr (os.Dir es) ->
  isName name = true ->
  os.assoc name es = Some child ->
  os.lookup fs (filepath.Join [base; name]) = inr child.
Proof.
  intros (r & out & dd & Hinv & ->) Hl Hn Ha.
  rewrite (Join_entry r out dd name Hinv Hn).
  unfold os.lookup in *.
  destruct (os.resolve fs (filepath.render r out)) as [cs|] eqn:Hr; [|discriminate].
  rewrite (resolve_entry fs r out dd name cs Hinv Hn Hr).
  now rewrite (find_snoc cs _ es name Hl), Ha.
Qed.

Lemma Join_cleaned (l : list string) :
  filepath.Join l = "" \/ cleaned (filepath.Join l).
Proof.
  induction l as [|e l IH]; [now left|]. cbn [filepath.Join].
  destruct (e =? ""); [assumption|]. right. apply Clean_cleaned.
Qed.

Lemma statOf_entry path n :
  os.statOf path n
  = {| os.Name := os.basename path; os.Size := nodeSize n; os.IsDir := nodeIsDir n |}.
Proof. now destruct n. Qed.

Section ListDir.

Context {St : Type}.
Variables (c : FileDriver) (callback : FileInfoEx -> St -> St * option error).
Variables (md : string -> Z) (ow gr : string -> string).
Variables (r : bool) (out : list string) (dd : nat).
Hypothesis Hinv : cleanInv r (out, dd).
Hypothesis Hcb : forall i s, snd (callback i s) = None.

Let base := filepath.render r out.
Let fn := listDirFn c base callback.

Lemma listDirFn_root n s :
  base <> "." -> fn base (Visited (os.statOf base n)) s = (s, None).
Proof.
  intros Hne. unfold fn, listDirFn, filepath.Rel.
  rewrite String.eqb_refl, statOf_entry. cbn [os.Name].
  destruct ("." =? os.basename base) eqn:E; [|reflexivity].
  apply String.eqb_eq in E. symmetry in E.
  now apply (basename_cleaned r out dd) in E.
Qed.

Lemma listDirFn_entry name child s :
  isName name = true -> permOk c md ow gr (name, child) ->
  fn (filepath.Join [base; name])
     (Visited (os.statOf (filepath.Join [base; name]) child)) s
  = (fst (callback (listed md ow gr (name, child)) s),
     if nodeIsDir child then Some SkipDir else None).
Proof.
  intros Hn (Hm & Ho & Hg). cbn [fst] in *.
  unfold fn, base. rewrite (Join_entry r out dd name Hinv Hn).
  unfold listDirFn.
  rewrite (Rel_entry r out dd name Hinv Hn), statOf_entry.
  cbn [os.Name os.IsDir]. rewrite (basename_entry r out name Hn).
  rewrite String.eqb_refl, Hm, Ho, Hg. cbn [listed].
  match goal with |- context [callback ?i s] =>
    pose proof (Hcb i s) as E; destruct (callback i s) as [s' err]
  end.
  cbn [snd fst] in *. subst err. now destruct (nodeIsDir child).
Qed.

Lemma walk_entry name child s :
  isName name = true -> permOk c md ow gr (name, child) ->
  walk fn (filepath.Join [base; name]) child s
  = (fst (callback (listed md ow gr (name, child)) s),
     if nodeIsDir child then Some SkipDir else None).
Proof.
  intros Hn Hp. destruct child as [d|es].
  - rewrite walk_file. now apply listDirFn_entry.
  - rewrite walk_dir, listDirFn_entry by assumption. reflexivity.
Qed.

Lemma walkEntries_all es : forall s,
  Forall (fun e => isName (fst e) = true) es ->
  Forall (permOk c md ow gr) es ->
  walkEntries fn base es s
  = (fold_left (fun s e => fst (callback (listed md ow gr e) s)) es s, None).
Proof.
  induction es as [|[name child] es IH]; intros s Hn Hp; [reflexivity|].
  inversion Hn; inversion Hp; subst.
  rewrite walkEntries_cons, walk_entry by assumption.
  cbn [fold_left]. destruct (nodeIsDir child); cbn [andb isSkipDir]; now apply IH.
Qed.

End ListDir.


(** C1, amended: for every directory whose physical path is not [.], when
    the permission oracle answers for the name of every immediate child
    and the callback returns no error, [ListDir] calls the callback once
    for each immediate child, in the order of their names, and for nothing
    else (not for the directory itself, not for deeper entries), and
    returns [nil]. *)
Theorem ListDir_one_call_per_child {St : Type} (c : FileDriver) (fs : os.FS)
        (path : string) (es : list (string * os.node))
        (callback : FileInfoEx -> St -> St * option error) (s : St)
        (md : string -> Z) (ow gr : string -> string) :
  os.lookup fs (realPath c path) = inr (os.Dir es) ->
  realPath c path <> "." ->
  Forall (fun e => isName (fst e) = true) es ->
  Forall (permOk c md ow gr) es ->
  (forall i s, snd (callback i s) = None) ->
  ListDir c fs path callback s
  = (fold_left (fun s e => fst (callback (listed md ow gr e) s)) es s, None).
Proof.
  intros Hl Hne Hn Hp Hcb. unfold ListDir, Walk.
  set (basepath := realPath c path) in *. rewrite Hl.
  assert (Hc : cleaned basepath).
  { destruct (Join_cleaned (RootPath c :: strings.Split path)) as [E|H]; [|exact H].
    unfold basepath, realPath in Hl. rewrite E in Hl. discriminate. }
  destruct Hc as (r & out & dd & Hinv & E). rewrite E in *.
  rewrite walk_dir, (listDirFn_root c callback r out dd Hinv) by assumption.
  now rewrite (walkEntries_all c callback md ow gr r out dd Hinv Hcb).
Qed.

Lemma ListDir_one_call_per_child_witness :
  ListDir sampleDriver sampleFS "/" record []
  = ([ {| info := {| os.Name := "a"; os.Size := 0; os.IsDir := true |};
          mode := 2147484068; owner := "root"; group := "root" |};
       {| info := {| os.Name := "b.txt"; os.Size := 2; os.IsDir := false |};
          mode := 420; owner := "root"; group := "root" |} ],
     None).
Proof.
  apply (ListDir_one_call_per_child sampleDriver sampleFS "/"
           [("a", os.Dir [("x", os.File [x61])]); ("b.txt", os.File [x61; x62])]
           record [] (fun _ => 420%Z) (fun _ => "root") (fun _ => "root")).
  - reflexivity.
  - vm_compute. discriminate.
  - repeat constructor.
  - repeat constructor.
  - reflexivity.
Defined.

(** C1 as stated fails: when the permission oracle fails, the walk stops
    and the callback is not called for the children of the directory. *)
Lemma ListDir_stops_when_the_oracle_fails :
  os.lookup sampleFS (realPath strictDriver "/")
  = inr (os.Dir [("a", os.Dir [("x", os.File [x61])]);
                 ("b.txt", os.File [x61; x62])])
  /\ ListDir strictDriver sampleFS "/" record []
     = ([], Some (ErrorString "no mode"))
  /\ map (fun i => os.Name (info i))
       (fst (ListDir strictDriver sampleFS "/" record []))
     <> ["a"; "b.txt"].
Proof. repeat split. discriminate. Qed.

(** The case the statement above leaves out: a driver whose root is [.]
    lists its root as the single entry [.], because the info of the
    walked root is then named like its relative path. *)
Lemma ListDir_of_dot_lists_the_root_itself :
  realPath dotDriver "/" = "."
  /\ ListDir dotDriver sampleFS "/" record []
     = ([ {| info := {| os.Name := "."; os.Size := 0; os.IsDir := true |};
             mode := 2147484068; owner := "root"; group := "root" |} ],
        None).
Proof. split; reflexivity. Qed.

Lemma acceptLoop_app pre : forall s w s1 w1 evs,
  acceptLoop s w pre = (s1, w1, None) ->
  acceptLoop s w (pre ++ evs) = acceptLoop s1 w1 evs.
Proof.
  induction pre as [|ev pre IH]; intros s w s1 w1 evs H; simpl in *.
  - now injection H as <- <-.
  - destruct ev as [r|].
    + destruct (serveTurn s w r) as [w' [out|]]; [discriminate|now apply IH].
    + now apply IH.
Qed.

Lemma Shutdown_serving s : serving s -> serving (fst (Shutdown s)).
Proof.
  intros [Hl Hc]. unfold Shutdown, serving.
  destruct (listener s) as [l|]; [|congruence].
  destruct (Close l) as [l' err]. cbn [fst listener ctx].
  destruct (ctx s); [split; discriminate|congruence].
Qed.

Lemma acceptLoop_serving evs : forall s w s1 w1 out,
  serving s -> acceptLoop s w evs = (s1, w1, out) -> serving s1.
Proof.
  induction evs as [|ev evs IH]; intros s w s1 w1 out Hs H; simpl in H.
  - now injection H as <- _ _.
  - destruct ev as [r|].
    + destruct (serveTurn s w r) as [w' [o|]].
      * now injection H as <- _ _.
      * eapply IH; eassumption.
    + eapply IH; [|eassumption]. now apply Shutdown_serving.
Qed.

Lemma Shutdown_closes s :
  serving s ->
  exists l, listener (fst (Shutdown s)) = Some l /\ l_closed l = true
            /\ ctx (fst (Shutdown s)) = Some true.
Proof.
  intros [Hl Hc]. unfold Shutdown.
  destruct (listener s) as [l|]; [|congruence].
  destruct (ctx s) as [d|]; [|congruence].
  unfold Close. destruct (l_closed l) eqn:E; cbn [fst listener ctx]; eauto.
Qed.

Lemma serveTurn_after_cancel s w l r err :
  listener s = Some l -> ctx s = Some true -> Accept l r = inl err ->
  serveTurn s w r = (w, Some (Returned ErrServerClosed)).
Proof.
  intros Hl Hc Ha. unfold serveTurn. now rewrite Hl, Ha, Hc.
Qed.

Lemma acceptLoop_after_Shutdown s w r post :
  serving s ->
  acceptLoop s w (ShutdownCalled :: Accepts r :: post)
  = (fst (Shutdown s), w, Some (Returned ErrServerClosed)).
Proof.
  intros Hs. destruct (Shutdown_closes s Hs) as (l & Hl & Hcl & Hc).
  cbn [acceptLoop].
  rewrite (serveTurn_after_cancel _ w l r errClosing Hl Hc); [reflexivity|].
  unfold Accept. now rewrite Hcl.
Qed.

Section ServerFacts.

Variables (featCmds featsPre featsPost defaultWelcomeMessage : string).


(** [ListenAndServe] returns before it accepts anything, or it is a call
    of [Serve]. *)
Lemma ListenAndServe_cases s h w :
  (exists s0 out, forall evs, ListenAndServe featCmds featsPre featsPost s h w evs = (s0, w, Some out))
  \/ (exists s' l w',
        (forall evs, ListenAndServe featCmds featsPre featsPost s h w evs = Serve s' l w' evs)
        /\ opts s' = opts s
        /\ feats s' = (featsPre
                         ++ (if TLS (opts s) then featCmds ++ tlsFeats else featCmds)
                         ++ featsPost)%string
        /\ l_closed l = false
        /\ (l_tls l <> None <->
            TLS (opts s) = true /\ ExplicitFTPS (opts s) = false)).
Proof.
  unfold ListenAndServe.
  destruct (TLS (opts s)) eqn:Et.
  - unfold simpleTLSConfig.
    destruct (LoadX509KeyPair h (CertFile (opts s)) (KeyFile (opts s))) as [err|cert].
    { left. eauto. }
    cbn [opts listenTo].
    destruct (ExplicitFTPS (opts s)) eqn:Ee.
    + unfold net_Listen. destruct (listen h (listenTo s)) as [err|].
      { left. eauto. }
      unfold Printf. cbn [s_logger opts].
      destruct (s_logger s); [|left; eauto].
      right. do 3 eexists. split; [intros evs; reflexivity|].
      cbn [opts feats l_closed l_tls].
      split; [reflexivity|split; [reflexivity|split; [reflexivity|]]].
      split; [intros Hx; now elim Hx|intros [_ Hx]; discriminate].
    + unfold tls_Listen. destruct (listen h (listenTo s)) as [err|].
      { left. eauto. }
      unfold Printf. cbn [s_logger opts].
      destruct (s_logger s); [|left; eauto].
      right. do 3 eexists. split; [intros evs; reflexivity|].
      cbn [opts feats l_closed l_tls].
      split; [reflexivity|split; [reflexivity|split; [reflexivity|]]].
      split; [auto|discriminate].
  - unfold net_Listen. destruct (listen h (listenTo s)) as [err|].
    { left. eauto. }
    unfold Printf. cbn [s_logger opts].
    destruct (s_logger s); [|left; eauto].
    right. do 3 eexists. split; [intros evs; reflexivity|].
    cbn [opts feats l_closed l_tls].
    split; [reflexivity|split; [reflexivity|split; [reflexivity|]]].
    split; [intros Hx; now elim Hx|intros [Hx _]; discriminate].
Qed.

Lemma Serve_serving s l w evs s1 w1 out :
  Serve s l w evs = (s1, w1, out) -> serving s1.
Proof.
  unfold Serve. apply acceptLoop_serving. split; discriminate.
Qed.

Lemma Serve_after_Shutdown s l w pre r post s1 w1 :
  Serve s l w pre = (s1, w1, None) ->
  Serve s l w (pre ++ ShutdownCalled :: Accepts r :: post)
  = (fst (Shutdown s1), w1, Some (Returned ErrServerClosed)).
Proof.
  intros H. pose proof (Serve_serving _ _ _ _ _ _ _ H) as Hs.
  unfold Serve in *. rewrite (acceptLoop_app _ _ _ _ _ _ H).
  now apply acceptLoop_after_Shutdown.
Qed.

(** C5: once [Shutdown] was called while [Serve] (or [ListenAndServe]) is
    accepting, the next [Accept] fails and the call returns
    [ErrServerClosed], whatever the accept error is; [Shutdown] cancels the
    context and closes the listener and leaves the sessions, the log and
    the closed connections as they were; on a server that was never
    started it returns [nil] and changes nothing. *)
Theorem Shutdown_makes_Serve_return_ErrServerClosed :
  (forall s l w pre r post s1 w1,
      Serve s l w pre = (s1, w1, None) ->
      Serve s l w (pre ++ ShutdownCalled :: Accepts r :: post)
      = (fst (Shutdown s1), w1, Some (Returned ErrServerClosed)))
  /\ (forall s h w pre r post s1 w1,
      ListenAndServe featCmds featsPre featsPost s h w pre = (s1, w1, None) ->
      ListenAndServe featCmds featsPre featsPost s h w (pre ++ ShutdownCalled :: Accepts r :: post)
      = (fst (Shutdown s1), w1, Some (Returned ErrServerClosed)))
  /\ (forall s w l r err,
      listener s = Some l -> ctx s = Some true -> Accept l r = inl err ->
      serveTurn s w r = (w, Some (Returned ErrServerClosed)))
  /\ (forall s w evs s1 w1,
      acceptLoop s w evs = (s1, w1, None) ->
      acceptLoop s w (evs ++ [ShutdownCalled]) = (fst (Shutdown s1), w1, None))
  /\ (forall s, serving s ->
      exists l, listener (fst (Shutdown s)) = Some l /\ l_closed l = true
                /\ ctx (fst (Shutdown s)) = Some true)
  /\ (forall o, Shutdown (NewServer defaultWelcomeMessage o)
                = (NewServer defaultWelcomeMessage o, None)).
Proof.
  split; [|split; [|split; [|split; [|split]]]].
  - intros. now apply Serve_after_Shutdown.
  - intros s h w pre r post s1 w1 H.
    destruct (ListenAndServe_cases s h w) as [(s0 & out & E)|(s' & l & w' & E & _)].
    + rewrite E in H. discriminate.
    + rewrite E in *. now apply Serve_after_Shutdown.
  - intros. eapply serveTurn_after_cancel; eassumption.
  - intros s w evs s1 w1 H. now rewrite (acceptLoop_app _ _ _ _ _ _ H).
  - exact Shutdown_closes.
  - reflexivity.
Qed.

(** C6: when [Accept] fails and no shutdown was requested, [Serve] logs the
    error; if the error is a [net.Error] whose [Temporary()] is true the
    loop goes on accepting, for any other error [Serve] returns that
    error. *)
Theorem Serve_accept_error (s : Server) (w : World) (l : Listener)
        (lg : Logger) (r : error + nat) (err : error) (evs : list event) :
  listener s = Some l ->
  ctx s = Some false ->
  s_logger s = Some lg ->
  Accept l r = inl err ->
  acceptLoop s w (Accepts r :: evs)
  = if isTemporary err
    then acceptLoop s (withLine w "" ("listening error: " ++ Error err)) evs
    else (s, withLine w "" ("listening error: " ++ Error err), Some (Returned err)).
Proof.
  intros Hl Hc Hg Ha. cbn [acceptLoop]. unfold serveTurn, Printf.
  rewrite Hl, Ha, Hc, Hg. fold (withLine w "" ("listening error: " ++ Error err)).
  now destruct (isTemporary err).
Qed.

(** C7: when [ListenAndServe] has started to accept, the feature list is
    [featCmds] followed by [AUTH TLS], [PBSZ] and [PROT] if the TLS option
    is set and [featCmds] alone if it is not, and the listener is a TLS
    listener exactly when TLS is set and [ExplicitFTPS] is not. *)
Theorem ListenAndServe_features_and_listener (s : Server) (h : Host) (w : World)
        (s1 : Server) (w1 : World) :
  ListenAndServe featCmds featsPre featsPost s h w [] = (s1, w1, None) ->
  (feats s1 = (featsPre ++ (featCmds ++ tlsFeats) ++ featsPost)%string
   <-> TLS (opts s) = true)
  /\ (feats s1 = (featsPre ++ featCmds ++ featsPost)%string
      <-> TLS (opts s) = false)
  /\ exists l,
       listener s1 = Some l
       /\ (l_tls l <> None <-> TLS (opts s) = true /\ ExplicitFTPS (opts s) = false).
Proof.
  intros H.
  destruct (ListenAndServe_cases s h w)
    as [(s0 & out & E)|(s' & l & w' & E & Ho & Hf & Hc & Ht)].
  - rewrite E in H. discriminate.
  - rewrite E in H. unfold Serve in H. cbn [acceptLoop] in H.
    injection H as <- _. cbn [feats listener].
    assert (Hne : (featsPre ++ (featCmds ++ tlsFeats) ++ featsPost)%string
                  <> (featsPre ++ featCmds ++ featsPost)%string).
    { intros E'. apply (f_equal String.length) in E'.
      rewrite !length_append in E'. simpl in E'. lia. }
    rewrite Hf. split; [|split; [|eauto]].
    + destruct (TLS (opts s)); split; (reflexivity || discriminate || intros X).
      now elim Hne.
    + destruct (TLS (opts s)); split; (reflexivity || discriminate || intros X).
      now elim Hne.
Qed.

(** C8: for every [ServerOpts] value, [nil] included, [NewServer] puts
    the default in place of an empty [Hostname], [Name] or
    [WelcomeMessage], of a zero [Port] and of a [nil] [Logger], and
    carries every other value over unchanged. *)
Theorem NewServer_applies_defaults (o : option ServerOpts) :
  let given := match o with Some opts => opts | None => zeroOpts end in
  let got := opts (NewServer defaultWelcomeMessage o) in
  Hostname got = (if Hostname given =? "" then "::" else Hostname given)
  /\ Port got = (if (Port given =? 0)%Z then 3000%Z else Port given)
  /\ Name got = (if Name given =? "" then "Go FTP Server" else Name given)
  /\ WelcomeMessage got = (if WelcomeMessage given =? "" then defaultWelcomeMessage
                           else WelcomeMessage given)
  /\ logger got = Some (match logger given with Some l => l | None => StdLogger end)
  /\ s_logger (NewServer defaultWelcomeMessage o) = logger got
  /\ Factory got = Factory given
  /\ auth got = auth given
  /\ TLS got = TLS given
  /\ CertFile got = CertFile given
  /\ KeyFile got = KeyFile given
  /\ ExplicitFTPS got = ExplicitFTPS given
  /\ PublicIp got = PublicIp given
  /\ PassivePorts got = PassivePorts given.
Proof.
  cbn [NewServer opts serverOptsWithDefaults Hostname Port Name WelcomeMessage
       logger s_logger Factory auth TLS CertFile KeyFile ExplicitFTPS
       PublicIp PassivePorts].
  repeat split.
  - now destruct (logger _).
  - now destruct (auth _).
Qed.

End ServerFacts.

Lemma Shutdown_witness :
  snd (ListenAndServe " UTF8" "Extensions supported:" "" sampleServer sampleHost
         emptyWorld ([Accepts (inr 1)] ++ ShutdownCalled :: Accepts (inr 2) :: []))
  = Some (Returned ErrServerClosed).
Proof.
  destruct (Shutdown_makes_Serve_return_ErrServerClosed
              " UTF8" "Extensions supported:" "" "Welcome to the Go FTP Server")
    as (_ & H & _).
  erewrite (H sampleServer sampleHost emptyWorld [Accepts (inr 1)] (inr 2) []);
    reflexivity.
Defined.

Lemma Serve_accept_error_witness :
  acceptLoop acceptingServer emptyWorld [Accepts (inl (ErrorString "boom"))]
  = (acceptingServer,
     withLine emptyWorld "" "listening error: boom",
     Some (Returned (ErrorString "boom"))).
Proof.
  exact (Serve_accept_error acceptingServer emptyWorld
           {| l_tls := None; l_addr := "[::]:2121"; l_closed := false |}
           StdLogger (inl (ErrorString "boom")) (ErrorString "boom") []
           eq_refl eq_refl eq_refl eq_refl).
Defined.

Lemma ListenAndServe_features_and_listener_witness :
  let started := fst (fst (ListenAndServe " UTF8" "Extensions supported:" ""
                             sampleServer sampleHost emptyWorld [])) in
  (feats started = ("Extensions supported:" ++ (" UTF8" ++ tlsFeats) ++ "")%string
   <-> TLS (opts sampleServer) = true)
  /\ (feats started = ("Extensions supported:" ++ " UTF8" ++ "")%string
      <-> TLS (opts sampleServer) = false)
  /\ exists l,
       listener started = Some l
       /\ (l_tls l <> None <->
           TLS (opts sampleServer) = true /\ ExplicitFTPS (opts sampleServer) = false).
Proof.
  eapply (ListenAndServe_features_and_listener " UTF8" "Extensions supported:" ""
            sampleServer sampleHost emptyWorld).
  reflexivity.
Defined.

(** The server of [main.go] apart from its TLS option: the empty
    [Hostname] becomes [::], the port is kept. *)
Example NewServer_of_main :
  listenTo sampleServer = "[::]:2121"
  /\ Name (opts sampleServer) = "FtpServer"
  /\ s_logger sampleServer = Some StdLogger.
Proof. repeat split. Qed.

(* ================================================================== *)
(** * More of the driver and of the server *)

(** ** Entries away from a changed path *)

Lemma assoc_replace_other j k v es :
  j <> k -> os.assoc j (os.replace k v es) = os.assoc j es.
Proof.
  intros Hne. induction es as [|[k' v'] es IH]; simpl; [reflexivity|].
  destruct (k' =? k) eqn:E; simpl.
  - apply String.eqb_eq in E. subst k'.
    assert ((k =? j) = false) as -> by (apply String.eqb_neq; congruence).
    reflexivity.
  - destruct (k' =? j); [reflexivity|exact IH].
Qed.

Lemma assoc_insert_other j k v es :
  j <> k -> os.assoc j (os.insert k v es) = os.assoc j es.
Proof.
  intros Hne. induction es as [|[k' v'] es IH]; simpl.
  - assert ((k =? j) = false) as -> by (apply String.eqb_neq; congruence).
    reflexivity.
  - destruct (String.ltb k k'); simpl.
    + assert ((k =? j) = false) as -> by (apply String.eqb_neq; congruence).
      reflexivity.
    + destruct (k' =? j); [reflexivity|exact IH].
Qed.

Lemma assoc_set_other j k v es :
  j <> k -> os.assoc j (os.set k v es) = os.assoc j es.
Proof.
  intros Hne. unfold os.set. destruct (os.assoc k es).
  - now apply assoc_replace_other.
  - now apply assoc_insert_other.
Qed.

Lemma assoc_del_other j k es :
  j <> k -> os.assoc j (os.del k es) = os.assoc j es.
Proof.
  intros Hne. induction es as [|[k' v'] es IH]; simpl; [reflexivity|].
  destruct (k' =? k) eqn:E; simpl.
  - apply String.eqb_eq in E. subst k'.
    assert ((k =? j) = false) as -> by (apply String.eqb_neq; congruence).
    exact IH.
  - destruct (k' =? j); [reflexivity|exact IH].
Qed.

Lemma parentIsDir_cons c c2 rest es :
  parentIsDir (os.Dir es) (c :: c2 :: rest)
  = match os.assoc c es with
    | Some child => parentIsDir child (c2 :: rest)
    | None => false
    end.
Proof. reflexivity. Qed.

Lemma diverge_sym a : forall b, diverge a b = diverge b a.
Proof.
  induction a as [|x a IH]; intros [|y b]; simpl; try reflexivity.
  rewrite (String.eqb_sym y x). destruct (x =? y); [apply IH|reflexivity].
Qed.

Lemma diverge_neq a b : diverge a b = true -> a <> b.
Proof.
  revert b. induction a as [|x a IH]; intros [|y b] H; simpl in H; try discriminate.
  destruct (x =? y) eqn:E.
  - intros [= _ E']. now apply (IH b).
  - apply String.eqb_neq in E. congruence.
Qed.

(** Changing the entry at [cs] leaves what is found at every path that
    parts ways with [cs]. *)
Lemma alter_frame f cs : forall t t' cs',
  os.alter f cs t = inr t' ->
  diverge cs cs' = true ->
  os.find t' cs' = os.find t cs'
  /\ parentIsDir t' cs' = parentIsDir t cs'.
Proof.
  induction cs as [|c rest IH]; intros t t' cs' Ha Hd; [discriminate|].
  destruct cs' as [|y cs']; [discriminate|].
  destruct t as [d|es]; [now destruct rest|].
  cbn [diverge] in Hd.
  destruct rest as [|c2 rest].
  - rewrite alter_last in Ha.
    destruct (c =? y) eqn:E; [now destruct cs'|].
    apply String.eqb_neq in E.
    destruct (f (os.assoc c es)) as [e|[v|]]; [discriminate| |];
      injection Ha as <-; rewrite !find_cons_dir.
    + rewrite assoc_set_other by congruence. split; [reflexivity|].
      destruct cs'; [reflexivity|].
      rewrite !parentIsDir_cons. now rewrite assoc_set_other by congruence.
    + rewrite assoc_del_other by congruence. split; [reflexivity|].
      destruct cs'; [reflexivity|].
      rewrite !parentIsDir_cons. now rewrite assoc_del_other by congruence.
  - rewrite alter_cons in Ha.
    destruct (os.assoc c es) as [child|] eqn:Ea; [|discriminate].
    destruct (os.alter f (c2 :: rest) child) as [e|child'] eqn:Ec; [discriminate|].
    injection Ha as <-. rewrite !find_cons_dir.
    destruct (c =? y) eqn:E.
    + apply String.eqb_eq in E. subst y.
      rewrite assoc_set, Ea.
      destruct (IH child child' cs' Ec Hd) as [H1 H2]. split; [exact H1|].
      destruct cs' as [|y2 cs']; [discriminate|].
      rewrite !parentIsDir_cons, assoc_set, Ea. exact H2.
    + apply String.eqb_neq in E.
      rewrite assoc_set_other by congruence. split; [reflexivity|].
      destruct cs'; [reflexivity|].
      rewrite !parentIsDir_cons. now rewrite assoc_set_other by congruence.
Qed.

(** A regular file and another path that is absent or a regular file,
    with its parent directory, part ways. *)
Lemma files_diverge a : forall t b d,
  os.find t a = inr (os.File d) ->
  parentIsDir t b = true ->
  (forall es, os.find t b <> inr (os.Dir es)) ->
  a <> b ->
  diverge a b = true.
Proof.
  induction a as [|x a IH]; intros t b d Hf Hp Hn Hne.
  - simpl in Hf. injection Hf as ->. destruct b as [|y [|]]; discriminate.
  - destruct t as [d0|es]; [discriminate|].
    rewrite find_cons_dir in Hf.
    destruct (os.assoc x es) as [child|] eqn:Ea; [|discriminate].
    destruct b as [|y b]; [discriminate|]. cbn [diverge].
    destruct (x =? y) eqn:E; [|reflexivity].
    apply String.eqb_eq in E. subst y.
    destruct b as [|y2 b].
    + destruct a as [|x2 a]; [congruence|].
      destruct child as [d1|es1]; [discriminate|].
      exfalso. apply (Hn es1). rewrite find_cons_dir, Ea. reflexivity.
    + rewrite parentIsDir_cons, Ea in Hp.
      apply (IH child (y2 :: b) d Hf Hp).
      * intros es1. specialize (Hn es1). now rewrite find_cons_dir, Ea in Hn.
      * congruence.
Qed.

(** ** A new entry and its removal *)

Lemma replace_insert k v v' es :
  os.assoc k es = None -> os.replace k v' (os.insert k v es) = os.insert k v' es.
Proof.
  induction es as [|[k' w] es IH]; simpl.
  - now rewrite String.eqb_refl.
  - destruct (k' =? k) eqn:E; [discriminate|]. intros H.
    destruct (String.ltb k k'); simpl.
    + now rewrite String.eqb_refl.
    + now rewrite E, IH.
Qed.

Lemma del_absent k es : os.assoc k es = None -> os.del k es = es.
Proof.
  induction es as [|[k' w] es IH]; simpl; [reflexivity|].
  destruct (k' =? k) eqn:E; [discriminate|]. intros H. simpl. now rewrite IH.
Qed.

Lemma del_insert k v es : os.assoc k es = None -> os.del k (os.insert k v es) = es.
Proof.
  induction es as [|[k' w] es IH]; simpl.
  - now rewrite String.eqb_refl.
  - destruct (k' =? k) eqn:E; [discriminate|]. intros H.
    destruct (String.ltb k k'); simpl.
    + rewrite String.eqb_refl. simpl. rewrite E. simpl. now rewrite del_absent.
    + rewrite E. simpl. now rewrite IH.
Qed.

Lemma replace_replace k v v' es :
  os.replace k v' (os.replace k v es) = os.replace k v' es.
Proof.
  induction es as [|[k' w] es IH]; simpl; [reflexivity|].
  destruct (k' =? k) eqn:E; simpl.
  - now rewrite String.eqb_refl.
  - now rewrite E, IH.
Qed.

Lemma set_present k v w es :
  os.assoc k es = Some w -> os.set k v es = os.replace k v es.
Proof. intros H. unfold os.set. now rewrite H. Qed.

Lemma set_absent k v es :
  os.assoc k es = None -> os.set k v es = os.insert k v es.
Proof. intros H. unfold os.set. now rewrite H. Qed.

Lemma findo_cons c rest es :
  findo (os.Dir es) (c :: rest)
  = match os.assoc c es with
    | Some child => findo child rest
    | None => None
    end.
Proof. unfold findo. rewrite find_cons_dir. now destruct (os.assoc c es). Qed.

Lemma graft_last c v es : graft [c] v (os.Dir es) = os.Dir (os.insert c v es).
Proof. reflexivity. Qed.

Lemma graft_cons c c2 rest v es :
  graft (c :: c2 :: rest) v (os.Dir es)
  = match os.assoc c es with
    | Some child => os.Dir (os.replace c (graft (c2 :: rest) v child) es)
    | None => os.Dir es
    end.
Proof. reflexivity. Qed.

Section Graft.

Variables (f : option os.node -> Errno + option os.node) (v : os.node).

Lemma alter_absent cs : forall t,
  parentIsDir t cs = true -> findo t cs = None ->
  f None = inr (Some v) ->
  os.alter f cs t = inr (graft cs v t).
Proof.
  induction cs as [|c rest IH]; intros t Hp Hn Hf; [discriminate|].
  destruct t as [d|es]; [now destruct rest|].
  destruct rest as [|c2 rest].
  - rewrite findo_cons in Hn. rewrite alter_last. cbn [graft].
    destruct (os.assoc c es) as [ch|] eqn:Ea; [discriminate|].
    now rewrite Hf, set_absent.
  - rewrite parentIsDir_cons in Hp. rewrite findo_cons in Hn.
    rewrite alter_cons. cbn [graft].
    destruct (os.assoc c es) as [child|] eqn:Ea; [|discriminate].
    rewrite (IH child Hp Hn Hf). now rewrite (set_present _ _ child).
Qed.

Lemma find_graft cs : forall t,
  parentIsDir t cs = true -> findo t cs = None ->
  os.find (graft cs v t) cs = inr v /\ parentIsDir (graft cs v t) cs = true.
Proof.
  induction cs as [|c rest IH]; intros t Hp Hn; [discriminate|].
  destruct t as [d|es]; [now destruct rest|].
  destruct rest as [|c2 rest].
  - rewrite findo_cons in Hn. cbn [graft].
    destruct (os.assoc c es) as [ch|] eqn:Ea; [discriminate|].
    rewrite find_cons_dir, assoc_insert by assumption. split; reflexivity.
  - rewrite parentIsDir_cons in Hp. rewrite findo_cons in Hn. cbn [graft].
    destruct (os.assoc c es) as [child|] eqn:Ea; [|discriminate].
    destruct (IH child Hp Hn) as [H1 H2].
    rewrite find_cons_dir, parentIsDir_cons, assoc_replace by congruence.
    split; assumption.
Qed.

Lemma alter_graft cs : forall t o,
  parentIsDir t cs = true -> findo t cs = None ->
  f (Some v) = inr o ->
  os.alter f cs (graft cs v t)
  = inr (match o with
         | Some v' => graft cs v' t
         | None => t
         end).
Proof.
  induction cs as [|c rest IH]; intros t o Hp Hn Hf; [discriminate|].
  destruct t as [d|es]; [now destruct rest|].
  destruct rest as [|c2 rest].
  - rewrite findo_cons in Hn. rewrite graft_last.
    destruct (os.assoc c es) as [ch|] eqn:Ea; [discriminate|].
    rewrite alter_last, assoc_insert, Hf by assumption.
    destruct o as [v'|].
    + rewrite (set_present _ _ v) by (now apply assoc_insert).
      now rewrite replace_insert.
    + now rewrite del_insert.
  - rewrite parentIsDir_cons in Hp. rewrite findo_cons in Hn. rewrite !graft_cons.
    destruct (os.assoc c es) as [child|] eqn:Ea; [|discriminate].
    rewrite alter_cons, assoc_replace by congruence.
    rewrite (IH child o Hp Hn Hf).
    rewrite (set_present _ _ (graft (c2 :: rest) v child))
      by (apply assoc_replace; congruence).
    rewrite replace_replace. destruct o as [v'|].
    + now rewrite graft_cons, Ea.
    + now rewrite replace_same.
Qed.

End Graft.

(** ** What the calls leave alone *)

Lemma update_frame op f fs name fs' e cs cs' :
  os.update op f fs name = (fs', e) ->
  os.resolve fs name = Some cs ->
  diverge cs cs' = true ->
  os.find (os.tree fs') cs' = os.find (os.tree fs) cs'
  /\ os.wd fs' = os.wd fs.
Proof.
  unfold os.update. intros H Hr Hd. rewrite Hr in H.
  destruct (os.alter f cs (os.tree fs)) as [e0|t'] eqn:Ea.
  - injection H as <- _. auto.
  - injection H as <- _. cbn [os.tree os.wd].
    split; [|reflexivity]. now apply (alter_frame f cs _ _ cs' Ea).
Qed.

Lemma update_fails op f fs name fs' e :
  os.update op f fs name = (fs', Some e) -> fs' = fs.
Proof.
  unfold os.update. destruct (os.resolve fs name) as [cs|]; [|congruence].
  destruct (os.alter f cs (os.tree fs)); congruence.
Qed.

Lemma update_wd op f fs name fs' e :
  os.update op f fs name = (fs', e) -> os.wd fs' = os.wd fs.
Proof.
  unfold os.update. destruct (os.resolve fs name) as [cs|]; [|now intros [= <- _]].
  destruct (os.alter f cs (os.tree fs)); now intros [= <- _].
Qed.

Lemma resolve_same_wd fs fs' name :
  os.wd fs' = os.wd fs -> os.resolve fs' name = os.resolve fs name.
Proof. intros H. unfold os.resolve. now rewrite H. Qed.

Lemma OpenFile_frame fs name flag fs' r cs cs' :
  os.OpenFile fs name flag = (fs', r) ->
  os.resolve fs name = Some cs ->
  diverge cs cs' = true ->
  os.find (os.tree fs') cs' = os.find (os.tree fs) cs' /\ os.wd fs' = os.wd fs.
Proof.
  unfold os.OpenFile. intros H Hr Hd.
  match type of H with context [os.update ?op ?f fs name] =>
    destruct (os.update op f fs name) as [fs1 e] eqn:E
  end.
  assert (fs' = fs1) as -> by (destruct e; congruence).
  now apply (update_frame _ _ _ _ _ _ _ _ E Hr).
Qed.

Lemma Write_frame fs h d fs' r cs cs' :
  os.Write fs h d = (fs', r) ->
  os.resolve fs (os.f_name h) = Some cs ->
  diverge cs cs' = true ->
  os.find (os.tree fs') cs' = os.find (os.tree fs) cs' /\ os.wd fs' = os.wd fs.
Proof.
  unfold os.Write. intros H Hr Hd.
  match type of H with context [os.update ?op ?f fs ?n] =>
    destruct (os.update op f fs n) as [fs1 e] eqn:E
  end.
  assert (fs' = fs1) as -> by (destruct e; congruence).
  now apply (update_frame _ _ _ _ _ _ _ _ E Hr).
Qed.

Lemma OpenFile_name fs name flag fs' h :
  os.OpenFile fs name flag = (fs', inr h) -> os.f_name h = name.
Proof.
  unfold os.OpenFile.
  match goal with |- context [os.update ?op ?f fs name] =>
    destruct (os.update op f fs name) as [fs1 [e|]]
  end; [discriminate|]. now intros [= _ <-].
Qed.

Lemma Seek_name fs h off wh h' r :
  os.Seek fs h off wh = (h', r) -> os.f_name h' = os.f_name h.
Proof.
  unfold os.Seek. destruct (_ <? 0)%Z; now intros [= <- _].
Qed.

(** [PutFile] changes nothing at a path that parts ways with its
    destination. *)
Lemma PutFile_frame f fs destPath d appendData fs' r cs cs' :
  PutFile f fs destPath d appendData = (fs', r) ->
  os.resolve fs (realPath f destPath) = Some cs ->
  diverge cs cs' = true ->
  os.find (os.tree fs') cs' = os.find (os.tree fs) cs' /\ os.wd fs' = os.wd fs.
Proof.
  unfold PutFile. set (rPath := realPath f destPath). intros H Hr Hd.
  destruct (os.Lstat fs rPath) as [err|st].
  - destruct (os.IsNotExist err); [|injection H as <- _; auto].
    rewrite andb_true_r in H.
    assert (E : (if appendData then false else appendData) = false)
      by (now destruct appendData).
    rewrite E in H. cbn [negb] in H. unfold bind, ret in H.
    destruct (os.Create fs rPath) as [fs1 [e|h]] eqn:E1.
    + injection H as <- _. now apply (OpenFile_frame _ _ _ _ _ _ _ E1 Hr).
    + destruct (OpenFile_frame _ _ _ _ _ _ cs' E1 Hr Hd) as [F1 W1].
      pose proof (OpenFile_name _ _ _ _ _ E1) as Hn.
      unfold io.Copy in H.
      destruct (os.Write fs1 h d) as [fs2 r2] eqn:E2.
      assert (fs' = fs2) as -> by (destruct r2; congruence).
      destruct (Write_frame _ _ _ _ _ cs cs' E2) as [F2 W2]; [|assumption|].
      { rewrite Hn. now rewrite (resolve_same_wd fs fs1). }
      split; congruence.
  - destruct (os.IsDir st); [injection H as <- _; auto|].
    cbn [negb] in H. rewrite andb_false_r in H.
    destruct appendData; cbn [negb] in H; unfold bind, ret, check in H.
    + destruct (os.OpenFile fs rPath (Z.lor os.O_APPEND os.O_RDWR))
        as [fs1 [e|h]] eqn:E1.
      * injection H as <- _. now apply (OpenFile_frame _ _ _ _ _ _ _ E1 Hr).
      * destruct (OpenFile_frame _ _ _ _ _ _ cs' E1 Hr Hd) as [F1 W1].
        pose proof (OpenFile_name _ _ _ _ _ E1) as Hn.
        destruct (os.Seek fs1 h 0 os.SeekEnd) as [h' [e|z]] eqn:Es.
        { injection H as <- _. auto. }
        pose proof (Seek_name _ _ _ _ _ _ Es) as Hn'.
        unfold io.Copy in H.
        destruct (os.Write fs1 h' d) as [fs2 r2] eqn:E2.
        assert (fs' = fs2) as -> by (destruct r2; congruence).
        destruct (Write_frame _ _ _ _ _ cs cs' E2) as [F2 W2]; [|assumption|].
        { rewrite Hn', Hn. now rewrite (resolve_same_wd fs fs1). }
        split; congruence.
    + destruct (os.Remove fs rPath) as [fs0 [e|]] eqn:E0.
      * injection H as <- _. unfold os.Remove in E0.
        now apply (update_frame _ _ _ _ _ _ _ _ E0 Hr).
      * unfold os.Remove in E0.
        destruct (update_frame _ _ _ _ _ _ cs cs' E0 Hr Hd) as [F0 W0].
        assert (Hr0 : os.resolve fs0 rPath = Some cs)
          by (now rewrite (resolve_same_wd fs fs0)).
        destruct (os.Create fs0 rPath) as [fs1 [e|h]] eqn:E1.
        { injection H as <- _.
          destruct (OpenFile_frame _ _ _ _ _ _ cs' E1 Hr0 Hd). split; congruence. }
        destruct (OpenFile_frame _ _ _ _ _ _ cs' E1 Hr0 Hd) as [F1 W1].
        pose proof (OpenFile_name _ _ _ _ _ E1) as Hn.
        unfold io.Copy in H.
        destruct (os.Write fs1 h d) as [fs2 r2] eqn:E2.
        assert (fs' = fs2) as -> by (destruct r2; congruence).
        destruct (Write_frame _ _ _ _ _ cs cs' E2) as [F2 W2]; [|assumption|].
        { rewrite Hn. now rewrite (resolve_same_wd fs0 fs1). }
        split; congruence.
Qed.

(** ** What [PutFile] and [GetFile] do to one file *)

Lemma lookup_resolved fs name cs t :
  os.resolve fs name = Some cs ->
  os.lookup {| os.tree := t; os.wd := os.wd fs |} name = os.find t cs.
Proof. intros H. unfold os.lookup. now rewrite resolve_wd, H. Qed.

Lemma lookup_find fs name cs :
  os.resolve fs name = Some cs -> os.lookup fs name = os.find (os.tree fs) cs.
Proof. intros H. unfold os.lookup. now rewrite H. Qed.

(** A destination that does not exist yet, in an existing directory. *)
Lemma PutFile_new f fs destPath d appendData cs :
  os.resolve fs (realPath f destPath) = Some cs ->
  parentIsDir (os.tree fs) cs = true ->
  findo (os.tree fs) cs = None ->
  PutFile f fs destPath d appendData
  = ({| os.tree := graft cs (os.File d) (os.tree fs); os.wd := os.wd fs |},
     inr (Z.of_nat (List.length d))).
Proof.
  intros Hres Hpar Hno. unfold PutFile.
  set (rPath := realPath f destPath) in *.
  unfold os.Lstat. rewrite (lookup_find _ _ _ Hres).
  destruct (os.find (os.tree fs) cs) as [e|n] eqn:Hfind;
    [|unfold findo in Hno; now rewrite Hfind in Hno].
  rewrite (find_parentIsDir cs _ e Hpar Hfind). cbn [os.IsNotExist].
  rewrite andb_true_r.
  assert (E : (if appendData then false else appendData) = false)
    by (now destruct appendData).
  rewrite E. cbn [negb]. unfold bind, ret, os.Create, os.OpenFile, os.update.
  rewrite Hres.
  rewrite (alter_absent _ (os.File []) cs (os.tree fs) Hpar Hno) by reflexivity.
  unfold io.Copy, os.Write, os.update. cbn [os.f_name os.f_flag os.f_pos].
  rewrite resolve_wd, Hres. cbn [os.tree os.wd].
  erewrite (alter_graft _ (os.File []) cs (os.tree fs)); [|assumption|assumption|reflexivity].
  cbv beta iota. simpl Z.to_nat. now rewrite writeAt_fresh.
Qed.

(** A destination that is a regular file. *)
Lemma PutFile_over f fs destPath d appendData cs old :
  os.resolve fs (realPath f destPath) = Some cs ->
  parentIsDir (os.tree fs) cs = true ->
  os.find (os.tree fs) cs = inr (os.File old) ->
  exists t',
    PutFile f fs destPath d appendData
    = ({| os.tree := t'; os.wd := os.wd fs |}, inr (Z.of_nat (List.length d)))
    /\ os.find t' cs = inr (os.File (if appendData then old ++ d else d))
    /\ parentIsDir t' cs = true.
Proof.
  intros Hres Hpar Hfind. unfold PutFile.
  set (rPath := realPath f destPath) in *.
  unfold os.Lstat. rewrite (lookup_find _ _ _ Hres), Hfind.
  cbn [os.statOf os.IsDir]. cbn [negb]. rewrite andb_false_r.
  assert (Hfo : findo (os.tree fs) cs = Some (os.File old))
    by (now apply findo_Some).
  destruct appendData; cbn [negb]; unfold bind, ret, check.
  - rewrite (OpenFile_append_spec fs rPath cs Hres old Hfo).
    unfold os.Seek, os.Stat. cbn [os.f_name os.f_pos os.f_flag].
    rewrite (lookup_find _ _ _ Hres), Hfind. cbn [os.statOf os.Size].
    change (os.SeekEnd =? os.SeekEnd)%Z with true. cbn iota.
    destruct (Z.of_nat (List.length old) + 0 <? 0)%Z eqn:E;
      [apply Z.ltb_lt in E; lia|].
    unfold io.Copy.
    destruct (Write_spec fs rPath cs Hres Hpar
                {| os.f_name := rPath;
                   os.f_pos := Z.of_nat (List.length old) + 0;
                   os.f_flag := Z.lor os.O_APPEND os.O_RDWR |} old d
                eq_refl Hfo) as (t2 & H4 & H5 & H6).
    rewrite H4. exists t2. split; [reflexivity|]. split; [|assumption].
    apply findo_Some. rewrite H5.
    cbn [os.f_flag]. change (os.has (Z.lor os.O_APPEND os.O_RDWR) os.O_APPEND) with true.
    cbn iota. now rewrite writeAt_end.
  - destruct (Remove_file_spec fs rPath cs Hres Hpar old Hfo) as (t0 & H0 & H01 & H02).
    rewrite H0.
    destruct (Create_spec {| os.tree := t0; os.wd := os.wd fs |} rPath cs)
      as (t1 & flag & H1 & Hfl & H2 & H3);
      [now rewrite resolve_wd|assumption| |].
    { cbn [os.tree]. rewrite H01. discriminate. }
    rewrite H1. unfold io.Copy. cbn [os.wd] in *.
    destruct (Write_spec {| os.tree := t1; os.wd := os.wd fs |} rPath cs)
      with (h := {| os.f_name := rPath; os.f_pos := 0; os.f_flag := flag |})
           (old := @nil byte) (d := d)
      as (t2 & H4 & H5 & H6);
      [now rewrite resolve_wd|assumption|reflexivity|assumption|].
    rewrite H4. exists t2. split; [reflexivity|]. split; [|assumption].
    apply findo_Some. rewrite H5.
    cbn [os.f_flag os.f_pos]. rewrite Hfl. simpl Z.to_nat.
    now rewrite writeAt_fresh.
Qed.

(** Both cases together. *)
Lemma PutFile_stores f fs destPath d appendData cs :
  os.resolve fs (realPath f destPath) = Some cs ->
  parentIsDir (os.tree fs) cs = true ->
  (forall es, os.find (os.tree fs) cs <> inr (os.Dir es)) ->
  exists t',
    PutFile f fs destPath d appendData
    = ({| os.tree := t'; os.wd := os.wd fs |}, inr (Z.of_nat (List.length d)))
    /\ os.find t' cs
       = inr (os.File (newContent (os.find (os.tree fs) cs) d appendData))
    /\ parentIsDir t' cs = true.
Proof.
  intros Hres Hpar Hnd.
  destruct (os.find (os.tree fs) cs) as [e|[old|es]] eqn:Hfind.
  - assert (Hno : findo (os.tree fs) cs = None)
      by (unfold findo; now rewrite Hfind).
    rewrite (PutFile_new f fs destPath d appendData cs Hres Hpar Hno).
    eexists. split; [reflexivity|]. cbn [newContent].
    now apply find_graft.
  - now apply PutFile_over.
  - now elim (Hnd es).
Qed.

(** [GetFile] on a regular file, for any offset. *)
Lemma GetFile_reads f fs path c n :
  os.lookup fs (realPath f path) = inr (os.File c) ->
  exists r,
    GetFile f fs path n = (fs, inr (Z.of_nat (List.length c), r))
    /\ os.ReadAll fs r = inr (skipn (Z.to_nat n) c).
Proof.
  intros Hl. unfold GetFile, bind, ret, os.Open, os.OpenFile.
  rewrite (update_same _ _ _ _ _ Hl) by reflexivity.
  unfold os.Stat. cbn [os.f_name]. rewrite Hl. cbn [os.statOf os.Size].
  unfold os.Seek. cbn [os.f_name os.f_pos os.f_flag].
  change (os.SeekStart =? os.SeekEnd)%Z with false. cbn iota.
  rewrite Z.add_0_l.
  destruct (n <? 0)%Z eqn:E; eexists; (split; [reflexivity|]);
    unfold os.ReadAll; cbn [fst os.f_name os.f_pos]; rewrite Hl.
  - apply Z.ltb_lt in E. now destruct n.
  - reflexivity.
Qed.


Lemma find_absent t cs :
  parentIsDir t cs = true -> findo t cs = None -> os.find t cs = inl ENOENT.
Proof.
  intros Hp Hn. unfold findo in Hn.
  destruct (os.find t cs) as [e|n] eqn:E; [|discriminate].
  now rewrite (find_parentIsDir cs t e Hp E).
Qed.

(** X1: when the parent directory of [path] exists and [path] is not a
    directory, a file stored with [PutFile] (not appending) is read back by
    [GetFile]: the size returned is the length of the data stored and, from
    any offset [n], the reader delivers the data after its first [n]
    bytes. *)
Theorem PutFile_then_GetFile (f : FileDriver) (fs : os.FS) (path : string)
        (d : list byte) (cs : list string) (n : Z) :
  os.resolve fs (realPath f path) = Some cs ->
  parentIsDir (os.tree fs) cs = true ->
  (forall es, os.lookup fs (realPath f path) <> inr (os.Dir es)) ->
  let fs' := fst (PutFile f fs path d false) in
  exists r,
    GetFile f fs' path n = (fs', inr (Z.of_nat (List.length d), r))
    /\ os.ReadAll fs' r = inr (skipn (Z.to_nat n) d).
Proof.
  intros Hres Hpar Hnd. rewrite (lookup_find _ _ _ Hres) in Hnd.
  destruct (PutFile_stores f fs path d false cs Hres Hpar Hnd) as (t' & E & Hf & _).
  rewrite E. cbn [fst]. apply GetFile_reads.
  rewrite (lookup_resolved _ _ _ _ Hres), Hf.
  now destruct (os.find (os.tree fs) cs) as [e|[old|es]].
Qed.

Lemma PutFile_then_GetFile_witness :
  let fs' := fst (PutFile sampleDriver sampleFS "/new.txt" [x68; x69] false) in
  exists r,
    GetFile sampleDriver fs' "/new.txt" 1 = (fs', inr (2%Z, r))
    /\ os.ReadAll fs' r = inr [x69].
Proof.
  apply (PutFile_then_GetFile sampleDriver sampleFS "/new.txt" [x68; x69]
           ["srv"; "new.txt"] 1);
    [reflexivity|reflexivity|intros es H; discriminate H].
Defined.

(** X2: storing [d1] with [PutFile] and then appending [d2] to the same
    path leaves the file [d1] followed by [d2], and the second call returns
    the length of [d2]. *)
Theorem PutFile_then_append (f : FileDriver) (fs : os.FS) (path : string)
        (d1 d2 : list byte) (cs : list string) :
  os.resolve fs (realPath f path) = Some cs ->
  parentIsDir (os.tree fs) cs = true ->
  (forall es, os.lookup fs (realPath f path) <> inr (os.Dir es)) ->
  exists fs2,
    PutFile f (fst (PutFile f fs path d1 false)) path d2 true
    = (fs2, inr (Z.of_nat (List.length d2)))
    /\ os.lookup fs2 (realPath f path) = inr (os.File (d1 ++ d2)).
Proof.
  intros Hres Hpar Hnd. rewrite (lookup_find _ _ _ Hres) in Hnd.
  destruct (PutFile_stores f fs path d1 false cs Hres Hpar Hnd) as (t1 & E1 & Hf1 & Hp1).
  rewrite E1. cbn [fst].
  assert (Hf1' : os.find t1 cs = inr (os.File d1)).
  { rewrite Hf1. now destruct (os.find (os.tree fs) cs) as [e|[old|es]]. }
  destruct (PutFile_over f {| os.tree := t1; os.wd := os.wd fs |} path d2 true cs d1)
    as (t2 & E2 & Hf2 & _); [now rewrite resolve_wd|assumption|assumption|].
  rewrite E2. eexists. split; [reflexivity|].
  cbn [os.wd]. now rewrite (lookup_resolved _ _ _ _ Hres).
Qed.

Lemma PutFile_then_append_witness :
  exists fs2,
    PutFile sampleDriver
      (fst (PutFile sampleDriver sampleFS "/new.txt" [x68] false))
      "/new.txt" [x69] true
    = (fs2, inr 1%Z)
    /\ os.lookup fs2 (realPath sampleDriver "/new.txt") = inr (os.File [x68; x69]).
Proof.
  apply (PutFile_then_append sampleDriver sampleFS "/new.txt" [x68] [x69]
           ["srv"; "new.txt"]);
    [reflexivity|reflexivity|intros es H; discriminate H].
Defined.

(** X3: [PutFile], appending or not, leaves every other regular file
    with the content it had. *)
Theorem PutFile_keeps_other_files (f : FileDriver) (fs : os.FS) (path : string)
        (d : list byte) (appendData : bool) (cs cs' : list string) (d' : list byte) :
  os.resolve fs (realPath f path) = Some cs ->
  parentIsDir (os.tree fs) cs = true ->
  (forall es, os.lookup fs (realPath f path) <> inr (os.Dir es)) ->
  cs' <> cs ->
  os.find (os.tree fs) cs' = inr (os.File d') ->
  os.find (os.tree (fst (PutFile f fs path d appendData))) cs' = inr (os.File d').
Proof.
  intros Hres Hpar Hnd Hne Hf'. rewrite (lookup_find _ _ _ Hres) in Hnd.
  pose proof (files_diverge cs' _ cs d' Hf' Hpar Hnd Hne) as Hd.
  rewrite diverge_sym in Hd.
  destruct (PutFile f fs path d appendData) as [fs' r] eqn:E.
  destruct (PutFile_frame _ _ _ _ _ _ _ cs cs' E Hres Hd) as [F _].
  cbn [fst]. now rewrite F.
Qed.

Lemma PutFile_keeps_other_files_witness :
  os.find (os.tree (fst (PutFile sampleDriver sampleFS "/b.txt" [x7a] false)))
    ["srv"; "a"; "x"]
  = inr (os.File [x61]).
Proof.
  apply (PutFile_keeps_other_files sampleDriver sampleFS "/b.txt" [x7a] false
           ["srv"; "b.txt"] ["srv"; "a"; "x"] [x61]);
    [reflexivity|reflexivity|intros es H; discriminate H|discriminate|reflexivity].
Defined.

(** X4: [PutFile] on the path of a directory returns the error
    [A dir has the same name], and on a path that leads through a regular
    file the error of [Lstat] in a [Put File error:] line; both leave the
    file system as it was, for either value of [appendData]. *)
Theorem PutFile_refuses (f : FileDriver) (fs : os.FS) (path : string)
        (d : list byte) (appendData : bool) :
  (forall es, os.lookup fs (realPath f path) = inr (os.Dir es) ->
     PutFile f fs path d appendData
     = (fs, inl (ErrorString "A dir has the same name")))
  /\ (os.lookup fs (realPath f path) = inl ENOTDIR ->
      PutFile f fs path d appendData
      = (fs, inl (ErrorString
                    (Sprintln "Put File error:"
                       (PathError "lstat" (realPath f path) ENOTDIR))))).
Proof.
  unfold PutFile, os.Lstat. split.
  - intros es H. now rewrite H.
  - intros H. now rewrite H.
Qed.

Lemma PutFile_refuses_witness :
  PutFile sampleDriver sampleFS "/a" [x61] false
  = (sampleFS, inl (ErrorString "A dir has the same name"))
  /\ PutFile sampleDriver sampleFS "/b.txt/c" [x61] true
     = (sampleFS,
        inl (ErrorString
               (Sprintln "Put File error:"
                  (PathError "lstat" (realPath sampleDriver "/b.txt/c") ENOTDIR)))).
Proof.
  split.
  - apply (proj1 (PutFile_refuses sampleDriver sampleFS "/a" [x61] false)
             [("x", os.File [x61])]).
    reflexivity.
  - apply (proj2 (PutFile_refuses sampleDriver sampleFS "/b.txt/c" [x61] true)).
    reflexivity.
Defined.

(** X5: storing a file at a free path and then deleting it with
    [DeleteFile] gives back the file system there was before. *)
Theorem PutFile_then_DeleteFile (f : FileDriver) (fs : os.FS) (path : string)
        (d : list byte) (appendData : bool) (cs : list string) :
  os.resolve fs (realPath f path) = Some cs ->
  parentIsDir (os.tree fs) cs = true ->
  os.lookup fs (realPath f path) = inl ENOENT ->
  DeleteFile f (fst (PutFile f fs path d appendData)) path = (fs, None).
Proof.
  intros Hres Hpar Hl. rewrite (lookup_find _ _ _ Hres) in Hl.
  assert (Hno : findo (os.tree fs) cs = None) by (unfold findo; now rewrite Hl).
  rewrite (PutFile_new f fs path d appendData cs Hres Hpar Hno). cbn [fst].
  unfold DeleteFile, os.Lstat.
  rewrite (lookup_resolved _ _ _ _ Hres).
  destruct (find_graft (os.File d) cs _ Hpar Hno) as [Hg _]. rewrite Hg.
  cbn [os.statOf os.IsDir negb]. unfold os.Remove, os.update.
  rewrite resolve_wd, Hres. cbn [os.tree os.wd].
  erewrite (alter_graft _ (os.File d) cs (os.tree fs)); [|assumption|assumption|reflexivity].
  now destruct fs.
Qed.

Lemma PutFile_then_DeleteFile_witness :
  DeleteFile sampleDriver
    (fst (PutFile sampleDriver sampleFS "/new.txt" [x68] false)) "/new.txt"
  = (sampleFS, None).
Proof.
  apply (PutFile_then_DeleteFile sampleDriver sampleFS "/new.txt" [x68] false
           ["srv"; "new.txt"]); reflexivity.
Defined.

(** X6: [DeleteFile] removes a regular file, after which its path is
    not found and every other regular file is as before; on a directory it
    returns [Not a file] and changes nothing. *)
Theorem DeleteFile_only_files (f : FileDriver) (fs : os.FS) (path : string)
        (cs : list string) :
  os.resolve fs (realPath f path) = Some cs ->
  (forall d, os.find (os.tree fs) cs = inr (os.File d) ->
     parentIsDir (os.tree fs) cs = true ->
     exists fs',
       DeleteFile f fs path = (fs', None)
       /\ os.lookup fs' (realPath f path) = inl ENOENT
       /\ forall cs' d', cs' <> cs ->
            os.find (os.tree fs) cs' = inr (os.File d') ->
            os.find (os.tree fs') cs' = inr (os.File d'))
  /\ (forall es, os.find (os.tree fs) cs = inr (os.Dir es) ->
      DeleteFile f fs path = (fs, Some (ErrorString "Not a file"))).
Proof.
  intros Hres. unfold DeleteFile, os.Lstat. rewrite (lookup_find _ _ _ Hres).
  split.
  - intros d Hf Hpar. rewrite Hf. cbn [os.statOf os.IsDir negb].
    destruct (Remove_file_spec fs _ cs Hres Hpar d) as (t' & E & Hn & Hp');
      [now apply findo_Some|].
    rewrite E. eexists. split; [reflexivity|]. split.
    + rewrite (lookup_resolved _ _ _ _ Hres). now apply find_absent.
    + intros cs' d' Hne Hf'. cbn [os.tree].
      assert (Hd : diverge cs cs' = true).
      { rewrite diverge_sym. apply (files_diverge cs' _ cs d' Hf' Hpar); [|assumption].
        intros es. rewrite Hf. discriminate. }
      unfold os.Remove in E.
      destruct (update_frame _ _ _ _ _ _ cs cs' E Hres Hd) as [F _].
      cbn [os.tree] in F. now rewrite F.
  - intros es Hf. now rewrite Hf.
Qed.

Lemma DeleteFile_only_files_witness :
  (exists fs',
     DeleteFile sampleDriver sampleFS "/b.txt" = (fs', None)
     /\ os.lookup fs' (realPath sampleDriver "/b.txt") = inl ENOENT
     /\ forall cs' d', cs' <> ["srv"; "b.txt"] ->
          os.find (os.tree sampleFS) cs' = inr (os.File d') ->
          os.find (os.tree fs') cs' = inr (os.File d'))
  /\ DeleteFile sampleDriver sampleFS "/a"
     = (sampleFS, Some (ErrorString "Not a file")).
Proof.
  split.
  - apply (proj1 (DeleteFile_only_files sampleDriver sampleFS "/b.txt"
                    ["srv"; "b.txt"] eq_refl) [x61; x62]); reflexivity.
  - apply (proj2 (DeleteFile_only_files sampleDriver sampleFS "/a"
                    ["srv"; "a"] eq_refl) [("x", os.File [x61])]).
    reflexivity.
Defined.



(** ** More on [MkdirAll] *)

Lemma mkdirAll_is_dir cs : forall t t',
  os.mkdirAll cs t = inr t' -> exists es', t' = os.Dir es'.
Proof.
  intros t t' H. destruct cs as [|c rest].
  - destruct t; [discriminate|]. rewrite mkdirAll_nil in H. injection H as <-. eauto.
  - destruct t as [d|es]; [discriminate|]. rewrite mkdirAll_cons in H.
    destruct (os.mkdirAll rest _); [discriminate|]. injection H as <-. eauto.
Qed.

Lemma mkdirAll_keeps cs : forall t t',
  os.mkdirAll cs t = inr t' -> keeps t t'.
Proof.
  induction cs as [|c rest IH]; intros t t' H cs' n Hf.
  - destruct t; [discriminate|]. rewrite mkdirAll_nil in H. injection H as <-.
    rewrite Hf. destruct n; eauto.
  - destruct t as [d|es]; [discriminate|]. rewrite mkdirAll_cons in H.
    destruct (os.mkdirAll rest _) as [e|child'] eqn:E; [discriminate|].
    injection H as <-.
    destruct cs' as [|y cs'].
    + simpl in Hf. injection Hf as <-. simpl. eauto.
    + rewrite find_cons_dir in *.
      destruct (String.eqb_spec y c) as [->|Hne].
      * rewrite assoc_set.
        destruct (os.assoc c es) as [child|]; [|discriminate].
        exact (IH _ _ E cs' n Hf).
      * rewrite assoc_set_other by assumption.
        destruct (os.assoc y es) as [ch|]; [|discriminate].
        rewrite Hf. destruct n; eauto.
Qed.

Lemma mkdirAll_graft cs : forall t,
  parentIsDir t cs = true -> findo t cs = None ->
  os.mkdirAll cs t = inr (graft cs (os.Dir []) t).
Proof.
  induction cs as [|c rest IH]; intros t Hp Hn; [discriminate|].
  destruct t as [d|es]; [now destruct rest|].
  rewrite mkdirAll_cons. destruct rest as [|c2 rest].
  - rewrite findo_cons in Hn. rewrite graft_last.
    destruct (os.assoc c es) eqn:Ea; [discriminate|].
    rewrite mkdirAll_nil. now rewrite set_absent.
  - rewrite parentIsDir_cons in Hp. rewrite findo_cons in Hn. rewrite graft_cons.
    destruct (os.assoc c es) as [child|] eqn:Ea; [|discriminate].
    rewrite (IH child Hp Hn). now rewrite (set_present _ _ child).
Qed.

(** X8: whatever [MakeDir] returns, every regular file keeps its
    content and every directory stays a directory. *)
Theorem MakeDir_keeps_everything (f : FileDriver) (fs : os.FS) (path : string) :
  keeps (os.tree fs) (os.tree (fst (MakeDir f fs path))).
Proof.
  unfold MakeDir, os.MkdirAll.
  destruct (os.resolve fs (realPath f path)) as [cs|].
  - destruct (os.mkdirAll cs (os.tree fs)) as [e|t'] eqn:E; cbn [fst os.tree].
    + intros cs' n H. rewrite H. destruct n; eauto.
    + now apply (mkdirAll_keeps cs).
  - cbn [fst]. intros cs' n H. rewrite H. destruct n; eauto.
Qed.

(** X9: after a [MakeDir] that returned [nil], [ChangeDir] to the same
    path returns [nil]. *)
Theorem MakeDir_then_ChangeDir (f : FileDriver) (fs fs' : os.FS) (path : string) :
  MakeDir f fs path = (fs', None) ->
  ChangeDir f fs' path = None.
Proof.
  unfold MakeDir, os.MkdirAll, ChangeDir, os.Lstat, os.lookup.
  destruct (os.resolve fs (realPath f path)) as [cs|] eqn:Hr; [|discriminate].
  destruct (os.mkdirAll cs (os.tree fs)) as [e|t'] eqn:E; [discriminate|].
  intros [= <-]. rewrite resolve_wd, Hr. cbn [os.tree].
  destruct (mkdirAll_prefixes cs _ _ E (List.length cs)) as [es H].
  rewrite firstn_all in H. now rewrite H.
Qed.

Lemma MakeDir_then_ChangeDir_witness :
  ChangeDir sampleDriver (fst (MakeDir sampleDriver sampleFS "/p/q")) "/p/q" = None.
Proof.
  apply (MakeDir_then_ChangeDir sampleDriver sampleFS
           (fst (MakeDir sampleDriver sampleFS "/p/q")) "/p/q").
  reflexivity.
Defined.

(** X10: making a directory at a free path whose parent exists and
    then deleting it with [DeleteDir] gives back the file system there was
    before. *)
Theorem MakeDir_then_DeleteDir (f : FileDriver) (fs : os.FS) (path : string)
        (cs : list string) :
  os.resolve fs (realPath f path) = Some cs ->
  parentIsDir (os.tree fs) cs = true ->
  os.lookup fs (realPath f path) = inl ENOENT ->
  DeleteDir f (fst (MakeDir f fs path)) path = (fs, None).
Proof.
  intros Hres Hpar Hl. rewrite (lookup_find _ _ _ Hres) in Hl.
  assert (Hno : findo (os.tree fs) cs = None) by (unfold findo; now rewrite Hl).
  unfold MakeDir, os.MkdirAll. rewrite Hres, (mkdirAll_graft cs _ Hpar Hno).
  cbn [fst]. unfold DeleteDir, os.Lstat.
  rewrite (lookup_resolved _ _ _ _ Hres).
  destruct (find_graft (os.Dir []) cs _ Hpar Hno) as [Hg _]. rewrite Hg.
  cbn [os.statOf os.IsDir]. unfold os.Remove, os.update.
  rewrite resolve_wd, Hres. cbn [os.tree os.wd].
  erewrite (alter_graft _ (os.Dir []) cs (os.tree fs)); [|assumption|assumption|reflexivity].
  now destruct fs.
Qed.

Lemma MakeDir_then_DeleteDir_witness :
  DeleteDir sampleDriver (fst (MakeDir sampleDriver sampleFS "/e")) "/e"
  = (sampleFS, None).
Proof.
  apply (MakeDir_then_DeleteDir sampleDriver sampleFS "/e" ["srv"; "e"]);
    reflexivity.
Defined.



Section ListLoop.

Context {St : Type}.
Variables (c : FileDriver) (callback : FileInfoEx -> St -> St * option error).
Variables (r : bool) (out : list string) (dd : nat).
Hypothesis Hinv : cleanInv r (out, dd).

Lemma listDirFn_at_entry name child s :
  isName name = true ->
  listDirFn c (filepath.render r out) callback
    (filepath.Join [filepath.render r out; name])
    (Visited (os.statOf (filepath.Join [filepath.render r out; name]) child)) s
  = match entryInfo c (name, child) with
    | inl err => (s, Some err)
    | inr i =>
        let '(s', err) := callback i s in
        match err with
        | Some e => (s', Some e)
        | None => if nodeIsDir child then (s', Some SkipDir) else (s', None)
        end
    end.
Proof.
  intros Hn. rewrite (Join_entry r out dd name Hinv Hn). unfold listDirFn.
  rewrite (Rel_entry r out dd name Hinv Hn), statOf_entry.
  cbn [os.Name os.IsDir]. rewrite (basename_entry r out name Hn).
  rewrite String.eqb_refl. unfold entryInfo.
  destruct (GetMode (perm c) name); [reflexivity|].
  destruct (GetOwner (perm c) name); [reflexivity|].
  destruct (GetGroup (perm c) name); reflexivity.
Qed.

Lemma walk_at_entry name child s :
  isName name = true ->
  walk (listDirFn c (filepath.render r out) callback)
    (filepath.Join [filepath.render r out; name]) child s
  = match entryInfo c (name, child) with
    | inl err => (s, Some err)
    | inr i =>
        let '(s', err) := callback i s in
        match err with
        | Some e => (s', Some e)
        | None => if nodeIsDir child then (s', Some SkipDir) else (s', None)
        end
    end.
Proof.
  intros Hn. destruct child as [d|es].
  - rewrite walk_file. now apply listDirFn_at_entry.
  - rewrite walk_dir, listDirFn_at_entry by assumption.
    destruct (entryInfo c (name, os.Dir es)) as [err|i]; [reflexivity|].
    destruct (callback i s) as [s' [e|]]; reflexivity.
Qed.

Lemma walkEntries_loop es : forall s,
  Forall (fun e => isName (fst e) = true) es ->
  walkEntries (listDirFn c (filepath.render r out) callback)
    (filepath.render r out) es s
  = listLoop c callback es s.
Proof.
  induction es as [|[name child] es IH]; intros s Hn; [reflexivity|].
  inversion Hn; subst. cbn [fst] in *.
  rewrite walkEntries_cons, walk_at_entry by assumption. cbn [listLoop snd].
  destruct (entryInfo c (name, child)) as [err|i].
  - destruct (nodeIsDir child && isSkipDir err); [now apply IH|reflexivity].
  - destruct (callback i s) as [s' [e|]].
    + destruct (nodeIsDir child && isSkipDir e); [now apply IH|reflexivity].
    + destruct (nodeIsDir child); cbn [andb isSkipDir]; now apply IH.
Qed.

End ListLoop.

(** X12: on a directory whose real path is not [.], [ListDir] is a loop
    over the entries of that directory in the order of their names: for each
    it asks the permission oracle and calls the callback, it stops at the
    first error of either, except that [SkipDir] at a directory entry only
    goes on to the next entry, and a final [SkipDir] or [SkipAll] is turned
    into [nil]. Nothing below the entries is visited. *)
Theorem ListDir_is_a_loop_over_the_children {St : Type} (c : FileDriver)
        (fs : os.FS) (path : string) (es : list (string * os.node))
        (callback : FileInfoEx -> St -> St * option error) (s : St) :
  os.lookup fs (realPath c path) = inr (os.Dir es) ->
  realPath c path <> "." ->
  Forall (fun e => isName (fst e) = true) es ->
  ListDir c fs path callback s = afterWalk (listLoop c callback es s).
Proof.
  intros Hl Hne Hn. unfold ListDir, Walk.
  set (basepath := realPath c path) in *. rewrite Hl.
  assert (Hc : cleaned basepath).
  { destruct (Join_cleaned (RootPath c :: strings.Split path)) as [E|H]; [|exact H].
    unfold basepath, realPath in Hl. rewrite E in Hl. discriminate. }
  destruct Hc as (r & out & dd & Hinv & E). rewrite E in *.
  rewrite walk_dir, (listDirFn_root c callback r out dd Hinv) by assumption.
  rewrite (walkEntries_loop c callback r out dd Hinv es s Hn).
  unfold afterWalk. destruct (listLoop c callback es s) as [s' [[]|]]; reflexivity.
Qed.

Lemma ListDir_is_a_loop_over_the_children_witness :
  ListDir sampleDriver sampleFS "/" record []
  = afterWalk
      (listLoop sampleDriver record
         [("a", os.Dir [("x", os.File [x61])]); ("b.txt", os.File [x61; x62])]
         []).
Proof.
  apply (ListDir_is_a_loop_over_the_children sampleDriver sampleFS "/");
    [reflexivity|discriminate|repeat constructor].
Defined.

(** X13: [ListDir] of a regular file calls nothing and returns [nil];
    [ListDir] of a path that cannot be looked up returns the [lstat] error
    for the real path, and calls nothing. *)
Theorem ListDir_of_a_file_or_of_nothing {St : Type} (c : FileDriver)
        (fs : os.FS) (path : string)
        (callback : FileInfoEx -> St -> St * option error) (s : St) :
  (forall d, os.lookup fs (realPath c path) = inr (os.File d) ->
     realPath c path <> "." ->
     ListDir c fs path callback s = (s, None))
  /\ (forall e, os.lookup fs (realPath c path) = inl e ->
      ListDir c fs path callback s
      = (s, Some (PathError "lstat" (realPath c path) e))).
Proof.
  unfold ListDir, Walk. set (basepath := realPath c path). split.
  - intros d Hl Hne. rewrite Hl.
    assert (Hc : cleaned basepath).
    { destruct (Join_cleaned (RootPath c :: strings.Split path)) as [E|H]; [|exact H].
      unfold basepath, realPath in Hl. rewrite E in Hl. discriminate. }
    destruct Hc as (r & out & dd & Hinv & E). rewrite E in *.
    rewrite walk_file, (listDirFn_root c callback r out dd Hinv) by assumption.
    reflexivity.
  - intros e Hl. rewrite Hl. reflexivity.
Qed.

Lemma ListDir_of_a_file_or_of_nothing_witness :
  ListDir sampleDriver sampleFS "/b.txt" record [] = ([], None)
  /\ ListDir sampleDriver sampleFS "/nope" record []
     = ([], Some (PathError "lstat" (realPath sampleDriver "/nope") ENOENT)).
Proof.
  split.
  - apply (proj1 (ListDir_of_a_file_or_of_nothing sampleDriver sampleFS "/b.txt"
                    record []) [x61; x62]); [reflexivity|discriminate].
  - apply (proj2 (ListDir_of_a_file_or_of_nothing sampleDriver sampleFS "/nope"
                    record [])).
    reflexivity.
Defined.

(** ** [filepath.Abs] and the kernel agree *)

Lemma cleanElem_rooted out e :
  filepath.cleanElem true (out, 0) e = (os.resolveElem out e, 0).
Proof.
  unfold filepath.cleanElem, os.resolveElem.
  destruct (e =? ""); [reflexivity|]. destruct (e =? "."); [reflexivity|].
  destruct (e =? ".."); [|reflexivity].
  destruct out as [|x out]; reflexivity.
Qed.

Lemma fold_cleanElem_rooted l : forall out,
  fold_left (filepath.cleanElem true) l (out, 0)
  = (fold_left os.resolveElem l out, 0).
Proof.
  induction l as [|e l IH]; intros out; cbn [fold_left]; [reflexivity|].
  now rewrite cleanElem_rooted, IH.
Qed.

Lemma fold_resolve_names names : forall acc,
  Forall (fun e => isName e = true) names ->
  fold_left os.resolveElem names acc = acc ++ names.
Proof.
  induction names as [|n names IH]; intros acc H; cbn [fold_left].
  - now rewrite app_nil_r.
  - inversion H; subst. rewrite resolveElem_name, IH by assumption.
    now rewrite <- app_assoc.
Qed.

Lemma resolve_Clean_rooted fs y :
  filepath.rooted y = true ->
  os.resolve fs (filepath.Clean y)
  = Some (fold_left os.resolveElem (strings.Split y) []).
Proof.
  intros Hr. assert (Hy : (y =? "") = false) by (now destruct y).
  pose proof (cleanState_inv y) as Hinv.
  unfold filepath.Clean, filepath.comps. rewrite Hy, Hr.
  unfold filepath.cleanState in *. rewrite Hr in *.
  rewrite fold_cleanElem_rooted in *. cbn [fst].
  set (cs := fold_left os.resolveElem (strings.Split y) []) in *.
  destruct (render_nonempty _ _ _ Hinv) as [Hne Hr'].
  unfold os.resolve. apply String.eqb_neq in Hne. rewrite Hne, Hr'.
  rewrite (fold_resolve_render _ _ _ _ Hinv).
  destruct Hinv as (names & Ho & Hn & _). simpl in Ho. subst cs. rewrite Ho.
  now rewrite (fold_resolve_names names []).
Qed.

Lemma Split_Getwd fs :
  Forall (fun e => isName e = true) (os.wd fs) ->
  fold_left os.resolveElem (strings.Split (os.Getwd fs)) [] = os.wd fs.
Proof.
  intros H. unfold os.Getwd.
  change ("/" ++ strings.Join (os.wd fs))%string
    with ("" ++ "/" ++ strings.Join (os.wd fs))%string.
  rewrite Split_app. destruct (os.wd fs) as [|x xs] eqn:E; [reflexivity|].
  rewrite Split_Join; [|discriminate|].
  - change (fold_left os.resolveElem (strings.Split "" ++ x :: xs) [])
      with (fold_left os.resolveElem (x :: xs) []).
    now rewrite (fold_resolve_names (x :: xs) []).
  - eapply Forall_impl; [|exact H]. intros a Ha. now apply isName_spec in Ha.
Qed.

(** The path [Stat] hands to [Lstat] denotes the same entry as the path
    the other operations use. *)
Lemma resolve_Abs fs p :
  Forall (fun e => isName e = true) (os.wd fs) ->
  p <> "" ->
  os.resolve fs (filepath.Abs (os.Getwd fs) p) = os.resolve fs p.
Proof.
  intros Hwd Hp. unfold filepath.Abs, filepath.IsAbs.
  destruct (filepath.rooted p) eqn:Hr.
  - rewrite (resolve_Clean_rooted fs p Hr). unfold os.resolve.
    apply String.eqb_neq in Hp. now rewrite Hp, Hr.
  - cbn [filepath.Join].
    assert (Hg : (os.Getwd fs =? "") = false) by reflexivity.
    rewrite Hg, Join_cons. change (strings.Join [p]) with p.
    rewrite resolve_Clean_rooted by reflexivity.
    rewrite Split_app, fold_left_app, (Split_Getwd fs Hwd).
    unfold os.resolve. apply String.eqb_neq in Hp. now rewrite Hp, Hr.
Qed.

Lemma lookup_Abs fs p :
  Forall (fun e => isName e = true) (os.wd fs) ->
  p <> "" ->
  os.lookup fs (filepath.Abs (os.Getwd fs) p) = os.lookup fs p.
Proof. intros Hwd Hp. unfold os.lookup. now rewrite resolve_Abs. Qed.






(** X16: after storing [d] with [PutFile] (not appending), [Stat] of the
    path reports a regular file of the length of [d] with the mode of the
    permission oracle unchanged. *)
Theorem PutFile_then_Stat (f : FileDriver) (fs : os.FS) (path : string)
        (d : list byte) (cs : list string) (m : Z) (o g : string) :
  Forall (fun e => isName e = true) (os.wd fs) ->
  os.resolve fs (realPath f path) = Some cs ->
  parentIsDir (os.tree fs) cs = true ->
  (forall es, os.lookup fs (realPath f path) <> inr (os.Dir es)) ->
  GetMode (perm f) path = inr m ->
  GetOwner (perm f) path = inr o ->
  GetGroup (perm f) path = inr g ->
  exists fi,
    Stat f (fst (PutFile f fs path d false)) path = inr fi
    /\ os.Size (info fi) = Z.of_nat (List.length d)
    /\ os.IsDir (info fi) = false
    /\ mode fi = m.
Proof.
  intros Hwd Hres Hpar Hnd Hm Ho Hg. rewrite (lookup_find _ _ _ Hres) in Hnd.
  assert (Hne : realPath f path <> "").
  { intros E. rewrite E in Hres. discriminate. }
  destruct (PutFile_stores f fs path d false cs Hres Hpar Hnd) as (t' & E & Hf & _).
  rewrite E. cbn [fst]. unfold Stat, os.Lstat.
  rewrite lookup_Abs by assumption.
  rewrite (lookup_resolved _ _ _ _ Hres), Hf, Hm, Ho, Hg.
  eexists. split; [reflexivity|]. cbn [info mode os.statOf os.Size os.IsDir].
  repeat split. now destruct (os.find (os.tree fs) cs) as [e|[old|es]].
Qed.

Lemma PutFile_then_Stat_witness :
  exists fi,
    Stat sampleDriver (fst (PutFile sampleDriver sampleFS "/new.txt" [x68; x69] false))
      "/new.txt" = inr fi
    /\ os.Size (info fi) = 2%Z
    /\ os.IsDir (info fi) = false
    /\ mode fi = 420%Z.
Proof.
  apply (PutFile_then_Stat sampleDriver sampleFS "/new.txt" [x68; x69]
           ["srv"; "new.txt"] 420 "root" "root");
    [repeat constructor|reflexivity|reflexivity|intros es H; discriminate H
    |reflexivity|reflexivity|reflexivity].
Defined.

(** ** [Rename] *)

Lemma diverge_sameNames a : forall b, diverge a b = true -> os.sameNames a b = false.
Proof.
  induction a as [|x a IH]; intros [|y b] H; simpl in *; try discriminate.
  destruct (x =? y); [now rewrite IH|reflexivity].
Qed.

Lemma diverge_leadsTo a : forall b, diverge a b = true -> os.leadsTo a b = false.
Proof.
  induction a as [|x a IH]; intros [|y b] H; simpl in *; try discriminate.
  destruct (x =? y); [now rewrite IH|reflexivity].
Qed.

Lemma file_has_parent t a d b :
  os.find t a = inr (os.File d) -> parentIsDir t b = true ->
  parentIsDir t a = true.
Proof.
  intros Hf Hp. destruct a as [|x a].
  - simpl in Hf. injection Hf as ->. destruct b as [|y [|]]; discriminate.
  - apply (find_some_parentIsDir (x :: a) t (os.File d)); [discriminate|exact Hf].
Qed.

(** X17: [Rename] of a regular file to another path that is free or
    holds a regular file, in an existing directory, returns [nil]; the old
    path is then not found, the new path holds the content, and every other
    regular file is as before. *)
Theorem Rename_moves_a_file (f : FileDriver) (fs : os.FS)
        (fromPath toPath : string) (a b : list string) (d : list byte) :
  os.resolve fs (realPath f fromPath) = Some a ->
  os.resolve fs (realPath f toPath) = Some b ->
  os.find (os.tree fs) a = inr (os.File d) ->
  parentIsDir (os.tree fs) b = true ->
  (forall es, os.find (os.tree fs) b <> inr (os.Dir es)) ->
  a <> b ->
  exists fs',
    Rename f fs fromPath toPath = (fs', None)
    /\ os.lookup fs' (realPath f fromPath) = inl ENOENT
    /\ os.lookup fs' (realPath f toPath) = inr (os.File d)
    /\ forall cs' d', cs' <> a -> cs' <> b ->
         os.find (os.tree fs) cs' = inr (os.File d') ->
         os.find (os.tree fs') cs' = inr (os.File d').
Proof.
  intros Ha Hb Hf Hpb Hnd Hne.
  pose proof (file_has_parent _ _ _ _ Hf Hpb) as Hpa.
  pose proof (files_diverge a _ b d Hf Hpb Hnd Hne) as Hd.
  assert (Hd' : diverge b a = true) by (now rewrite diverge_sym).
  destruct (alter_spec (fun _ => inr None) a (os.tree fs) None Hpa eq_refl)
    as (t1 & E1 & Hn1 & Hp1).
  destruct (alter_frame _ a _ _ b E1 Hd) as [F1 P1].
  assert (Hpb1 : parentIsDir t1 b = true) by congruence.
  destruct (alter_spec (fun _ => inr (Some (os.File d))) b t1 (Some (os.File d))
              Hpb1 eq_refl) as (t2 & E2 & Hn2 & Hp2).
  destruct (alter_frame _ b _ _ a E2 Hd') as [F2 P2].
  exists {| os.tree := t2; os.wd := os.wd fs |}.
  assert (Hren : os.rename fs (realPath f fromPath) (realPath f toPath)
                 = ({| os.tree := t2; os.wd := os.wd fs |}, None)).
  { unfold os.rename. rewrite Ha, Hb, Hf.
    replace (os.isRoot a) with false by (now destruct a).
    replace (os.isRoot b) with false by (now destruct b).
    cbn [orb].
    rewrite (diverge_sameNames a b Hd), (diverge_leadsTo a b Hd).
    destruct (os.find (os.tree fs) b) as [e|[d0|es]];
      [| |now elim (Hnd es)]; now rewrite E1, E2. }
  split; [|split; [|split]].
  - unfold Rename, os.Rename. rewrite (lookup_find _ _ _ Hb), Hren.
    destruct (os.find (os.tree fs) b) as [e|[d0|es]];
      [reflexivity|reflexivity|now elim (Hnd es)].
  - rewrite (lookup_resolved _ _ _ _ Ha), F2. now apply find_absent.
  - rewrite (lookup_resolved _ _ _ _ Hb). now apply findo_Some.
  - intros cs' d' Hna Hnb Hf'. cbn [os.tree].
    assert (D1 : diverge a cs' = true).
    { rewrite diverge_sym. apply (files_diverge cs' _ a d' Hf' Hpa); [|assumption].
      intros es. rewrite Hf. discriminate. }
    assert (D2 : diverge b cs' = true).
    { rewrite diverge_sym. now apply (files_diverge cs' _ b d' Hf' Hpb). }
    destruct (alter_frame _ a _ _ cs' E1 D1) as [G1 _].
    destruct (alter_frame _ b _ _ cs' E2 D2) as [G2 _].
    congruence.
Qed.

Lemma Rename_moves_a_file_witness :
  exists fs',
    Rename sampleDriver sampleFS "/b.txt" "/a/y" = (fs', None)
    /\ os.lookup fs' (realPath sampleDriver "/b.txt") = inl ENOENT
    /\ os.lookup fs' (realPath sampleDriver "/a/y") = inr (os.File [x61; x62])
    /\ forall cs' d', cs' <> ["srv"; "b.txt"] -> cs' <> ["srv"; "a"; "y"] ->
         os.find (os.tree sampleFS) cs' = inr (os.File d') ->
         os.find (os.tree fs') cs' = inr (os.File d').
Proof.
  apply (Rename_moves_a_file sampleDriver sampleFS "/b.txt" "/a/y"
           ["srv"; "b.txt"] ["srv"; "a"; "y"] [x61; x62]);
    [reflexivity|reflexivity|reflexivity|reflexivity
    |intros es H; discriminate H|discriminate].
Defined.

(** X18: [Rename] onto another path that is an existing directory,
    empty or not, changes nothing and returns the link error of [os.Rename]
    for the two real paths: with [EEXIST] when the old path exists, and
    with the error of looking up the old path when it does not. *)
Theorem Rename_refuses_an_existing_directory (f : FileDriver) (fs : os.FS)
        (fromPath toPath : string) (a b : list string) (es : list (string * os.node)) :
  os.resolve fs (realPath f fromPath) = Some a ->
  os.resolve fs (realPath f toPath) = Some b ->
  os.find (os.tree fs) b = inr (os.Dir es) ->
  a <> b ->
  Rename f fs fromPath toPath
  = (fs, Some {| os.le_Op := "rename";
                 os.le_Old := realPath f fromPath;
                 os.le_New := realPath f toPath;
                 os.le_Err := match os.find (os.tree fs) a with
                              | inl e => e
                              | inr _ => EEXIST
                              end |}).
Proof.
  intros Ha Hb Hf Hne. unfold Rename, os.Rename.
  rewrite (lookup_find _ _ _ Hb), Hf, (lookup_find _ _ _ Ha), Ha, Hb.
  destruct (os.find (os.tree fs) a); [reflexivity|].
  assert (E : os.sameNames b a = false).
  { clear -Hne. revert a Hne. induction b as [|y b IH]; intros [|x a] H; simpl;
      try reflexivity; [congruence|].
    destruct (String.eqb_spec y x) as [->|]; [|reflexivity].
    simpl. apply IH. congruence. }
  rewrite E. cbn [negb]. now rewrite orb_true_r.
Qed.

Lemma Rename_refuses_an_existing_directory_witness :
  Rename sampleDriver sampleFS "/b.txt" "/a"
  = (sampleFS, Some {| os.le_Op := "rename"; os.le_Old := "/srv/b.txt";
                       os.le_New := "/srv/a"; os.le_Err := EEXIST |}).
Proof.
  apply (Rename_refuses_an_existing_directory sampleDriver sampleFS "/b.txt" "/a"
           ["srv"; "b.txt"] ["srv"; "a"] [("x", os.File [x61])]);
    [reflexivity|reflexivity|reflexivity|discriminate].
Defined.




(** ** The accept loop *)

Lemma withSessions_nil w : withSessions w [] = w.
Proof. destruct w. unfold withSessions. cbn. now rewrite app_nil_r. Qed.

Lemma withSessions_app w a b :
  withSessions (withSessions w a) b = withSessions w (a ++ b).
Proof. unfold withSessions. cbn. now rewrite app_assoc. Qed.

Lemma acceptLoop_arrivals s l fac d cs : forall w,
  listener s = Some l -> l_closed l = false ->
  Factory (opts s) = Some fac -> NewDriver fac tt = inr d ->
  acceptLoop s w (arrivals cs)
  = (s, withSessions w (map (fun c => newConn s c d) cs), None).
Proof.
  intros w Hl Hc Hf Hd. revert w.
  induction cs as [|c cs IH]; intros w.
  - cbn. now rewrite withSessions_nil.
  - cbn [arrivals map acceptLoop]. unfold serveTurn, Accept.
    rewrite Hl, Hc, Hf, Hd. fold (arrivals cs).
    fold (withSessions w [newConn s c d]).
    now rewrite IH, withSessions_app.
Qed.

(** X20: on an open listener and with a factory that delivers the driver
    [d], [Serve] starts one session for every connection that arrives, in
    the order of arrival, each with the name prefix [/], the driver [d] and
    the [Auth] and TLS configuration of the server; it logs nothing, closes
    no connection and goes on accepting. *)
Theorem Serve_starts_one_session_per_connection (s : Server) (l : Listener)
        (w : World) (fac : DriverFactory) (d : Driver) (cs : list nat) :
  l_closed l = false ->
  Factory (opts s) = Some fac ->
  NewDriver fac tt = inr d ->
  Serve s l w (arrivals cs)
  = (started s l,
     withSessions w
       (map (fun c => {| namePrefix := "/"; conn := c; driver := d;
                         c_auth := auth (opts s);
                         c_tlsConfig := s_tlsConfig s |}) cs),
     None).
Proof.
  intros Hc Hf Hd. unfold Serve. fold (started s l).
  now rewrite (acceptLoop_arrivals (started s l) l fac d cs w eq_refl Hc Hf Hd).
Qed.

Lemma Serve_starts_one_session_per_connection_witness :
  Serve sampleServer sampleListener emptyWorld (arrivals [1; 2])
  = (started sampleServer sampleListener,
     withSessions emptyWorld
       [ {| namePrefix := "/"; conn := 1;
            driver := {| RootPath := "./upload"; perm := simplePerm "root" "root" |};
            c_auth := None; c_tlsConfig := None |};
         {| namePrefix := "/"; conn := 2;
            driver := {| RootPath := "./upload"; perm := simplePerm "root" "root" |};
            c_auth := None; c_tlsConfig := None |} ],
     None).
Proof.
  apply (Serve_starts_one_session_per_connection sampleServer sampleListener
           emptyWorld
           (FileDriverFactory_NewDriver
              {| fdf_RootPath := "./upload"; fdf_Perm := simplePerm "root" "root" |})
           {| RootPath := "./upload"; perm := simplePerm "root" "root" |} [1; 2]);
    reflexivity.
Defined.

(** X21: when the factory fails for an accepted connection, the accept
    loop logs the error, closes that connection, starts no session and goes
    on with the next event. *)
Theorem Serve_drops_the_connection_when_the_factory_fails (s : Server)
        (l : Listener) (w : World) (fac : DriverFactory) (lg : Logger)
        (err : error) (c : nat) (evs : list event) :
  listener s = Some l -> l_closed l = false ->
  Factory (opts s) = Some fac ->
  NewDriver fac tt = inl err ->
  s_logger s = Some lg ->
  acceptLoop s w (Accepts (inr c) :: evs)
  = acceptLoop s
      (withClosed
         (withLine w "" ("Error creating driver, aborting client connection: "
                           ++ Error err)) c)
      evs.
Proof.
  intros Hl Hc Hf Hd Hg. cbn [acceptLoop]. unfold serveTurn, Accept, Printf.
  now rewrite Hl, Hc, Hf, Hd, Hg.
Qed.

Lemma Serve_drops_the_connection_when_the_factory_fails_witness :
  acceptLoop (started brokenServer sampleListener) emptyWorld [Accepts (inr 5)]
  = (started brokenServer sampleListener,
     withClosed
       (withLine emptyWorld ""
          "Error creating driver, aborting client connection: no driver") 5,
     None).
Proof.
  apply (Serve_drops_the_connection_when_the_factory_fails
           (started brokenServer sampleListener) sampleListener emptyWorld
           brokenFactory StdLogger (ErrorString "no driver") 5 []);
    reflexivity.
Defined.

(** [Shutdown] leaves the options and the logger alone and keeps the
    listener in place. *)
Lemma Shutdown_keeps s :
  opts (fst (Shutdown s)) = opts s
  /\ s_logger (fst (Shutdown s)) = s_logger s
  /\ (listener s <> None -> listener (fst (Shutdown s)) <> None).
Proof.
  unfold Shutdown. destruct (listener s) as [l|].
  - destruct (Close l) as [l' e]. cbn. repeat split. discriminate.
  - cbn. repeat split. congruence.
Qed.

Lemma acceptLoop_panics evs : forall s w s1 w1,
  listener s <> None ->
  acceptLoop s w evs = (s1, w1, Some Panicked) ->
  s_logger s = None \/ Factory (opts s) = None.
Proof.
  induction evs as [|ev evs IH]; intros s w s1 w1 Hl H; [discriminate|].
  destruct ev as [r|]; cbn [acceptLoop] in H.
  - destruct (serveTurn s w r) as [w' [out|]] eqn:E.
    + injection H as _ _ ->. unfold serveTurn, Printf in E.
      destruct (listener s) as [l|]; [|congruence].
      destruct (s_logger s); [|now left].
      destruct (Factory (opts s)) as [fac|]; [|now right].
      destruct (Accept l r) as [err|c].
      * destruct (ctx s) as [[|]|]; try discriminate;
          destruct (isTemporary err); discriminate.
      * destruct (NewDriver fac tt); discriminate.
    + now apply (IH s w' s1 w1).
  - destruct (Shutdown_keeps s) as (Ho & Hg & Hk).
    destruct (IH _ _ _ _ (Hk Hl) H) as [X|X]; [left|right]; congruence.
Qed.

(** X22: [Serve] can end in a nil dereference only on a server that has
    no logger or no factory. *)
Theorem Serve_panics_only_without_logger_or_factory (s : Server) (l : Listener)
        (w : World) (evs : list event) (s1 : Server) (w1 : World) :
  Serve s l w evs = (s1, w1, Some Panicked) ->
  s_logger s = None \/ Factory (opts s) = None.
Proof.
  unfold Serve. intros H.
  apply acceptLoop_panics in H; [exact H|discriminate].
Qed.

Lemma Serve_panics_only_without_logger_or_factory_witness :
  s_logger (NewServer "welcome" None) = None
  \/ Factory (opts (NewServer "welcome" None)) = None.
Proof.
  apply (Serve_panics_only_without_logger_or_factory (NewServer "welcome" None)
           sampleListener emptyWorld [Accepts (inr 1)]
           (started (NewServer "welcome" None) sampleListener) emptyWorld).
  reflexivity.
Defined.

Section NewServerFacts.

Variables (featCmds featsPre featsPost defaultWelcomeMessage : string).

(** X23: a server made by [NewServer] from options without a [Factory],
    [nil] options included, panics in [Serve] at the first connection it
    accepts; made from options with a [Factory], it never panics in [Serve],
    whatever arrives. *)
Theorem NewServer_needs_a_Factory (o : option ServerOpts) (l : Listener)
        (w : World) :
  let given := match o with Some opts => opts | None => zeroOpts end in
  (Factory given = None ->
   forall c evs, l_closed l = false ->
     Serve (NewServer defaultWelcomeMessage o) l w (Accepts (inr c) :: evs)
     = (started (NewServer defaultWelcomeMessage o) l, w, Some Panicked))
  /\ (Factory given <> None ->
      forall evs,
        snd (Serve (NewServer defaultWelcomeMessage o) l w evs) <> Some Panicked).
Proof.
  intros given. split.
  - intros Hf c evs Hc. unfold Serve. cbn [acceptLoop]. unfold serveTurn, Accept.
    cbn [listener opts]. rewrite Hc.
    cbn [NewServer opts serverOptsWithDefaults Factory]. fold given.
    now rewrite Hf.
  - intros Hf evs H.
    destruct (Serve (NewServer defaultWelcomeMessage o) l w evs) as [[s1 w1] out] eqn:E.
    cbn [snd] in H. subst out. unfold Serve in E.
    apply acceptLoop_panics in E; [|discriminate].
    cbn [s_logger opts NewServer serverOptsWithDefaults logger Factory] in E.
    fold given in E. destruct E as [E|E]; [|now elim Hf].
    now destruct (logger given).
Qed.

(** X24: [serverOptsWithDefaults] changes nothing in options it has
    already completed, so [NewServer] of the options of a server it made
    makes the same server again. *)
Theorem NewServer_of_its_own_options (o : option ServerOpts) :
  serverOptsWithDefaults defaultWelcomeMessage
    (Some (serverOptsWithDefaults defaultWelcomeMessage o))
  = serverOptsWithDefaults defaultWelcomeMessage o
  /\ NewServer defaultWelcomeMessage
       (Some (opts (NewServer defaultWelcomeMessage o)))
     = NewServer defaultWelcomeMessage o.
Proof.
  assert (H : serverOptsWithDefaults defaultWelcomeMessage
                (Some (serverOptsWithDefaults defaultWelcomeMessage o))
              = serverOptsWithDefaults defaultWelcomeMessage o).
  { unfold serverOptsWithDefaults.
    cbn [Hostname Port Name WelcomeMessage auth logger Factory TLS KeyFile
         CertFile ExplicitFTPS PublicIp PassivePorts].
    set (g := match o with Some opts => opts | None => zeroOpts end).
    f_equal.
    - now destruct (auth g).
    - destruct (Name g =? "") eqn:E; [reflexivity|now rewrite E].
    - destruct (Hostname g =? "") eqn:E; [reflexivity|now rewrite E].
    - destruct (Port g =? 0)%Z eqn:E; [reflexivity|now rewrite E].
    - destruct (WelcomeMessage g =? "") eqn:E; [|now rewrite E].
      now destruct (defaultWelcomeMessage =? "").
    - now destruct (logger g). }
  split; [exact H|].
  unfold NewServer. cbn [opts]. now rewrite H.
Qed.


End NewServerFacts.

Lemma NewServer_needs_a_Factory_witness :
  Serve (NewServer "welcome" None) sampleListener emptyWorld [Accepts (inr 1)]
  = (started (NewServer "welcome" None) sampleListener, emptyWorld, Some Panicked)
  /\ snd (Serve (NewServer "welcome" (Some sampleOpts)) sampleListener emptyWorld
            [Accepts (inr 1); Accepts (inl (ErrorString "boom"))])
     <> Some Panicked.
Proof.
  split.
  - apply (proj1 (NewServer_needs_a_Factory "welcome" None sampleListener
                    emptyWorld)); reflexivity.
  - apply (proj2 (NewServer_needs_a_Factory "welcome" (Some sampleOpts)
                    sampleListener emptyWorld)).
    discriminate.
Defined.


(** X26: a [Shutdown] before [Serve] does not stop the [Serve] that
    follows: [Serve] sets a new context and its own listener, and runs as on
    the server that was not shut down. *)
Theorem Serve_forgets_an_earlier_Shutdown (s : Server) (l : Listener)
        (w : World) (evs : list event) :
  Serve (fst (Shutdown s)) l w evs = Serve s l w evs.
Proof.
  unfold Serve, Shutdown. destruct (listener s) as [l0|]; [|reflexivity].
  now destruct (Close l0).
Qed.

(** After [Shutdown] the loop returns at the next [Accept], with
    [ErrServerClosed]. *)
Lemma acceptLoop_shut evs : forall s w l s1 w1 out,
  listener s = Some l -> l_closed l = true -> ctx s = Some true ->
  acceptLoop s w evs = (s1, w1, Some out) ->
  out = Returned ErrServerClosed
  /\ exists pre r post, evs = pre ++ Accepts r :: post.
Proof.
  induction evs as [|ev evs IH]; intros s w l s1 w1 out Hl Hc Hx H;
    [discriminate|].
  destruct ev as [r|]; cbn [acceptLoop] in H.
  - rewrite (serveTurn_after_cancel s w l r errClosing Hl Hx) in H.
    + injection H as _ _ <-. split; [reflexivity|]. now exists [], r, evs.
    + unfold Accept. now rewrite Hc.
  - assert (E : fst (Shutdown s) = s).
    { clear - Hl Hc Hx. unfold Shutdown, Close. rewrite Hl, Hc, Hx. cbn [fst].
      destruct s; cbn in *. now subst. }
    rewrite E in H. destruct (IH _ _ _ _ _ _ Hl Hc Hx H) as (-> & pre & r & post & ->).
    split; [reflexivity|]. now exists (ShutdownCalled :: pre), r, post.
Qed.

Lemma acceptLoop_returns evs : forall s w l s1 w1 err,
  listener s = Some l -> l_closed l = false -> ctx s = Some false ->
  acceptLoop s w evs = (s1, w1, Some (Returned err)) ->
  exists pre r post,
    evs = pre ++ Accepts r :: post
    /\ ((In ShutdownCalled pre /\ err = ErrServerClosed)
        \/ (~ In ShutdownCalled pre /\ r = inl err /\ isTemporary err = false)).
Proof.
  induction evs as [|ev evs IH]; intros s w l s1 w1 err Hl Hc Hx H;
    [discriminate|].
  destruct ev as [r|]; cbn [acceptLoop] in H.
  - destruct (serveTurn s w r) as [w' [out|]] eqn:E.
    + injection H as _ _ ->. exists [], r, evs. split; [reflexivity|]. right.
      split; [now intros []|].
      unfold serveTurn, Accept, Printf in E. rewrite Hl, Hc, Hx in E.
      destruct r as [e|c].
      * destruct (s_logger s); [|discriminate].
        destruct (isTemporary e) eqn:Et; [discriminate|].
        injection E as _ <-. now split.
      * destruct (Factory (opts s)) as [fac|]; [|discriminate].
        destruct (NewDriver fac tt); [|discriminate].
        now destruct (s_logger s).
    + destruct (IH _ _ _ _ _ _ Hl Hc Hx H) as (pre & r' & post & -> & D).
      exists (Accepts r :: pre), r', post. split; [reflexivity|].
      destruct D as [[Hi ->]|(Hn & -> & Ht)].
      * left. split; [now right|reflexivity].
      * right. split; [|now split]. intros [X|X]; [discriminate|now apply Hn].
  - assert (Hs : serving s) by (split; congruence).
    destruct (Shutdown_closes s Hs) as (l' & Hl' & Hc' & Hx').
    destruct (acceptLoop_shut _ _ _ _ _ _ _ Hl' Hc' Hx' H)
      as (E & pre & r & post & ->).
    injection E as ->.
    exists (ShutdownCalled :: pre), r, post. split; [reflexivity|].
    left. split; [now left|reflexivity].
Qed.

(** X27: when [Serve] on an open listener returns an error, it does so
    at an [Accept]: either [Shutdown] was called before and the error is
    [ErrServerClosed], or no [Shutdown] was called, the [Accept] failed with
    an error that is not temporary, and that error is returned. *)
Theorem Serve_returns_at_an_Accept (s : Server) (l : Listener) (w : World)
        (evs : list event) (s1 : Server) (w1 : World) (err : error) :
  l_closed l = false ->
  Serve s l w evs = (s1, w1, Some (Returned err)) ->
  exists pre r post,
    evs = pre ++ Accepts r :: post
    /\ ((In ShutdownCalled pre /\ err = ErrServerClosed)
        \/ (~ In ShutdownCalled pre /\ r = inl err /\ isTemporary err = false)).
Proof.
  intros Hc H. unfold Serve in H.
  now apply (acceptLoop_returns evs (started s l) w l s1 w1 err eq_refl Hc eq_refl).
Qed.

Lemma Serve_returns_at_an_Accept_witness :
  exists pre r post,
    [Accepts (inr 1); ShutdownCalled; Accepts (inr 2)] = pre ++ Accepts r :: post
    /\ ((In ShutdownCalled pre /\ ErrServerClosed = ErrServerClosed)
        \/ (~ In ShutdownCalled pre /\ r = inl ErrServerClosed
            /\ isTemporary ErrServerClosed = false)).
Proof.
  apply (Serve_returns_at_an_Accept sampleServer sampleListener emptyWorld
           [Accepts (inr 1); ShutdownCalled; Accepts (inr 2)]
           (fst (Shutdown (started sampleServer sampleListener)))
           (withSessions emptyWorld
              [newConn (started sampleServer sampleListener) 1
                 {| RootPath := "./upload"; perm := simplePerm "root" "root" |}])
           ErrServerClosed); reflexivity.
Defined.
